(** * visage: the planar-path geometry engine ([visage_graphics/path.h])

    A shallow embedding of the parts of [Path], [clone_ptr] and
    [TriangulationGraph] that live in the headers, and the properties the
    specification states about them.

    Numbers are IEEE-754 values: C++ [float] is binary32 and [double] is
    binary64, both taken from the Standard Library's [SpecFloat] with
    round-to-nearest-even. *)

From Stdlib Require Import ZArith Bool List Lia Ascii.
From Stdlib Require Import Floats.SpecFloat.
From stdpp Require Import base option list gmap.

Local Open Scope Z_scope.

(* ================================================================== *)
(** * IEEE arithmetic                                                   *)
(* ================================================================== *)

(** The operations of one IEEE binary format, as C++ uses them on a
    template parameter [T]. *)
Class Ieee := {
  prec : Z;
  emax : Z
}.

Section IeeeOps.
Context {fmt : Ieee}.

Definition fadd (a b : spec_float) := SFadd prec emax a b.
Definition fsub (a b : spec_float) := SFsub prec emax a b.
Definition fmul (a b : spec_float) := SFmul prec emax a b.
Definition fdiv (a b : spec_float) := SFdiv prec emax a b.
Definition fabs (a : spec_float) := SFabs a.
Definition fneg (a : spec_float) := SFopp a.

(** [a == b], [a < b], [a <= b], and the derived [>], [>=], [!=]. *)
Definition feq (a b : spec_float) : bool := SFeqb a b.
Definition flt (a b : spec_float) : bool := SFltb a b.
Definition fle (a b : spec_float) : bool := SFleb a b.
Definition fgt (a b : spec_float) : bool := SFltb b a.
Definition fge (a b : spec_float) : bool := SFleb b a.
Definition fne (a b : spec_float) : bool := negb (SFeqb a b).

(** Conversion of an integer literal, correctly rounded. *)
Definition of_Z (z : Z) : spec_float := binary_normalize prec emax z 0 false.

(** The largest finite value ([FLT_MAX], [DBL_MAX]). *)
Definition fmax_value : spec_float := SFmax_float prec emax.

(** [std::min], [std::max] and [std::clamp] as the C++ library defines
    them through [operator<]. *)
Definition std_min (a b : spec_float) := if flt b a then b else a.
Definition std_max (a b : spec_float) := if flt a b then b else a.
Definition std_clamp (v lo hi : spec_float) :=
  if flt v lo then lo else if flt hi v then hi else v.

(** A C++ condition on a floating value: everything but a zero is true,
    NaN included. *)
Definition truthy (a : spec_float) : bool := negb (SFeqb a (S754_zero false)).

(** Neither an infinity nor NaN. *)
Definition is_finite (a : spec_float) : bool :=
  match a with
  | S754_zero _ | S754_finite _ _ _ => true
  | _ => false
  end.
End IeeeOps.

(** C++ [float]. *)
Definition binary32 : Ieee := {| prec := 24; emax := 128 |}.
(** C++ [double]. *)
Definition binary64 : Ieee := {| prec := 53; emax := 1024 |}.

Definition float := spec_float.
Definition double := spec_float.

Definition zero : spec_float := S754_zero false.

(** Literals of [path.h]. *)
Definition f32_0_5 : float := S754_finite false 8388608 (-24).          (* 0.5f *)
Definition f32_2_3 : float := S754_finite false 11184811 (-24).         (* 2.0f / 3.0f *)
Definition f32_1em6 : float := S754_finite false 8796093 (-43).         (* 0.000001f *)
Definition f32_0_1 : float := S754_finite false 13421773 (-27).         (* 0.1f *)
Definition f64_1em10 : double := S754_finite false 7737125245533627 (-86). (* 1.0e-10 *)
Definition FLT_MAX : float := S754_finite false 16777215 104.

(* ================================================================== *)
(** * Points                                                            *)
(* ================================================================== *)

(** Modelled from the spec: [BasePoint<T>] of [visage_utils/space.h],
    which is not part of the sources at hand.  The spec describes a point
    as a pair (x, y) with add, sub, scale, dot and cross; the operators
    below are the componentwise ones, [==] compares both coordinates with
    the IEEE [==], and a default-constructed point is the origin. *)
Record BasePoint (fmt : Ieee) := mkPoint { px : spec_float; py : spec_float }.
Arguments mkPoint {fmt} px py.
Arguments px {fmt} _.
Arguments py {fmt} _.

Definition Point := BasePoint binary32.
Definition DPoint := BasePoint binary64.

Section PointOps.
Context {fmt : Ieee}.
Implicit Types a b : BasePoint fmt.

Definition Point_origin : BasePoint fmt := mkPoint zero zero.
Definition Point_add a b : BasePoint fmt := mkPoint (fadd (px a) (px b)) (fadd (py a) (py b)).
Definition Point_sub a b : BasePoint fmt := mkPoint (fsub (px a) (px b)) (fsub (py a) (py b)).
Definition Point_scale a (k : spec_float) : BasePoint fmt := mkPoint (fmul (px a) k) (fmul (py a) k).
Definition Point_dot a b : spec_float := fadd (fmul (px a) (px b)) (fmul (py a) (py b)).
Definition squareMagnitude a : spec_float := fadd (fmul (px a) (px a)) (fmul (py a) (py a)).
Definition Point_eqb a b : bool := feq (px a) (px b) && feq (py a) (py b).
Definition Point_neb a b : bool := negb (Point_eqb a b).
Definition Point_finite a : bool := is_finite (px a) && is_finite (py a).
End PointOps.

(* ================================================================== *)
(** * Orientation predicates ([path.h], lines 36-60)                    *)
(* ================================================================== *)

Section Orientation.
Context {fmt : Ieee}.
(** [kEpsilon = 1.0e-10], converted to [T]. *)
Variable kEpsilon : spec_float.

(** The two cross-product terms [l = delta2.y * delta1.x] and
    [r = delta2.x * delta1.y]. *)
Definition cross_l (source target1 target2 : BasePoint fmt) : spec_float :=
  fmul (py (Point_sub target2 source)) (px (Point_sub target1 source)).
Definition cross_r (source target1 target2 : BasePoint fmt) : spec_float :=
  fmul (px (Point_sub target2 source)) (py (Point_sub target1 source)).

Definition orientation_T (source target1 target2 : BasePoint fmt) : spec_float :=
  let delta1 := Point_sub target1 source in
  let delta2 := Point_sub target2 source in
  let l := fmul (py delta2) (px delta1) in
  let r := fmul (px delta2) (py delta1) in
  let sum := fabs (fadd l r) in
  let diff := fsub l r in
  if fge (fabs diff) (fmul kEpsilon sum) then diff else zero.

Definition stableOrientation_T (source target1 target2 : BasePoint fmt) : spec_float :=
  let result := orientation_T source target1 target2 in
  if fne result zero then result
  else
    let result := orientation_T target2 source target1 in
    if fne result zero then result
    else orientation_T target1 target2 source.

(** The snapping rule in the words of the specification: zero when the
    magnitude of the difference is smaller than the relative epsilon
    times the sum of the two cross-product terms, the difference
    otherwise. *)
Definition orientation_as_specified (source target1 target2 : BasePoint fmt) : spec_float :=
  let l := cross_l source target1 target2 in
  let r := cross_r source target1 target2 in
  let diff := fsub l r in
  if flt (fabs diff) (fmul kEpsilon (fadd l r)) then zero else diff.
End Orientation.

(** The instance the triangulation graph uses: [T = double]. *)
Definition orientation : DPoint -> DPoint -> DPoint -> double :=
  orientation_T f64_1em10.
Definition stableOrientation : DPoint -> DPoint -> DPoint -> double :=
  stableOrientation_T f64_1em10.

(** Three points almost on one line through the origin: the origin,
    (-1, -1) and (1 + 2^-40, 1). *)
Definition d_one : double := S754_finite false 4503599627370496 (-52).
Definition d_minus_one : double := S754_finite true 4503599627370496 (-52).
Definition d_one_plus : double := S754_finite false 4503599627374592 (-52).
Definition cx_source : DPoint := mkPoint zero zero.
Definition cx_target1 : DPoint := mkPoint d_minus_one d_minus_one.
Definition cx_target2 : DPoint := mkPoint d_one_plus d_one.

(* ================================================================== *)
(** * The interfaces the header relies on                               *)
(* ================================================================== *)

(** What [path.h] uses from [visage_utils/space.h] and from the C math
    library, neither of which is part of the sources at hand: the
    resolution [Matrix] and the affine [Transform] applied to a point, the
    three-way comparison of two [DPoint]s, and [cosf] / [sinf]. *)
Class Space := {
  Matrix : Type;
  Matrix_apply : Matrix -> Point -> Point;
  Matrix_default : Matrix;
  Transform : Type;
  Transform_apply : Transform -> Point -> Point;
  DPoint_compare : DPoint -> DPoint -> double;
  cosf : float -> float;
  sinf : float -> float
}.

(* ================================================================== *)
(** * The triangulation graph ([path.h], lines 769-1110)                *)
(* ================================================================== *)

Inductive FillRule := NonZero | Positive | EvenOdd.

Inductive PointType := PT_None | PT_Begin | PT_Continue | PT_End.

Definition PointType_eqb (a b : PointType) : bool :=
  match a, b with
  | PT_None, PT_None | PT_Begin, PT_Begin
  | PT_Continue, PT_Continue | PT_End, PT_End => true
  | _, _ => false
  end.

Record IndexData := mkIndexData {
  index : Z;
  point : DPoint;
  type : PointType
}.

Section IndexOrder.
Context {space : Space}.

(** [IndexData::operator<]. *)
Definition IndexData_lt (this other : IndexData) : bool :=
  if negb (PointType_eqb (type this) (type other)) && PointType_eqb (type this) PT_None
  then false
  else if negb (PointType_eqb (type this) (type other)) && PointType_eqb (type other) PT_None
  then true
  else
    let compare := DPoint_compare (point this) (point other) in
    if truthy compare then flt compare zero
    else if negb (PointType_eqb (type this) (type other))
    then PointType_eqb (type this) PT_End || PointType_eqb (type other) PT_Begin
    else index this <? index other.
End IndexOrder.

(** Heap addresses of the graphs that [clone_ptr] handles own. *)
Definition addr := positive.

Record ScanLineArea := mkScanLineArea {
  from_index : Z;
  from : DPoint;
  to_index : Z;
  to : DPoint;
  forward : bool;
  data : Z
}.

Record IntersectionEvent := mkIntersectionEvent {
  ie_point : DPoint;
  area1_from_index : Z;
  area1_to_index : Z;
  area2_from_index : Z;
  area2_to_index : Z
}.

(** An iterator into the [areas_] vector of the scan line of the graph at
    [it_owner], [it_offset] elements from its start. *)
Record AreaIterator := mkAreaIterator { it_owner : addr; it_offset : nat }.

(** [TriangulationGraph::ScanLine].  [graph_] is the back pointer to the
    graph the scan line works for; [sl_sorted_indices_] points at the
    [sorted_indices_] vector of a graph (null before [reset()]). *)
Record ScanLine := mkScanLine {
  graph_ : addr;
  sl_sorted_indices_ : option addr;
  current_index_ : Z;
  next_intersection_ : Z;
  areas_ : list ScanLineArea;
  edit_positions_ : list Z;
  last_position1_ : AreaIterator;
  last_position2_ : AreaIterator;
  aliases_ : gmap Z Z;
  new_areas_ : list ScanLineArea;
  old_areas_ : list ScanLineArea;
  next_areas_ : list ScanLineArea;
  degeneracies_ : list Z;
  intersection_events_ : list IntersectionEvent;
  last_data_ : Z
}.

(** [ScanLine::setGraph]. *)
Definition setGraph (graph : addr) (sl : ScanLine) : ScanLine :=
  mkScanLine graph (sl_sorted_indices_ sl) (current_index_ sl) (next_intersection_ sl)
    (areas_ sl) (edit_positions_ sl) (last_position1_ sl) (last_position2_ sl)
    (aliases_ sl) (new_areas_ sl) (old_areas_ sl) (next_areas_ sl)
    (degeneracies_ sl) (intersection_events_ sl) (last_data_ sl).

(** [ScanLine::resolveAlias]. *)
Definition resolveAlias (sl : ScanLine) (i : Z) : Z :=
  match aliases_ sl !! i with
  | Some original => original
  | None => i
  end.

Section Graph.
Context {space : Space}.

(** [TriangulationGraph].  [scan_line_] is a [unique_ptr<ScanLine>] that
    the graph owns alone and that the copy constructor dereferences; it
    is kept by value. *)
Record TriangulationGraph := mkGraph {
  resolution_transform_ : Transform;
  intersections_broken_ : bool;
  points_ : list DPoint;
  sorted_indices_ : list IndexData;
  prev_edge_ : list Z;
  next_edge_ : list Z;
  scan_line_ : ScanLine
}.

(** The copy constructor: every member is copied, the scan line into a
    new [ScanLine] whose back pointer is then set to the new graph
    (which lives at [this]). *)
Definition TriangulationGraph_copy (this : addr) (other : TriangulationGraph)
  : TriangulationGraph :=
  mkGraph (resolution_transform_ other) (intersections_broken_ other)
    (points_ other) (sorted_indices_ other) (prev_edge_ other) (next_edge_ other)
    (setGraph this (scan_line_ other)).
End Graph.

(* ================================================================== *)
(** * [clone_ptr] ([visage_utils/clone_ptr.h])                          *)
(* ================================================================== *)

(** The free store: the graphs alive at their addresses. *)
Abbreviation Heap := (gmap addr TriangulationGraph).

Section ClonePtr.
Context {space : Space}.

(** A [clone_ptr<TriangulationGraph>]: the managed address, or null. *)
Definition clone_ptr := option addr.

(** [std::make_unique<T>(args...)]: a new object at an address no live
    object has; the constructor is told where it constructs ([this]). *)
Definition make_unique (ctor : addr -> TriangulationGraph) (h : Heap) : addr * Heap :=
  let this := fresh (dom h) in (this, <[this := ctor this]> h).

(** [clone_ptr::reset()]: the managed object is deleted. *)
Definition clone_ptr_reset (p : clone_ptr) (h : Heap) : clone_ptr * Heap :=
  match p with
  | Some a => (None, delete a h)
  | None => (None, h)
  end.

(** [clone_ptr(const clone_ptr& other)]:
    the pointee of [other.p_] is copy-constructed into a new object when
    [other.p_] is not null, and the new handle is null otherwise.
    [None] stands for the dereference of a pointer to no live object. *)
Definition clone_ptr_copy (other : clone_ptr) (h : Heap) : option (clone_ptr * Heap) :=
  match other with
  | None => Some (None, h)
  | Some a =>
      match h !! a with
      | Some g =>
          let '(a', h') := make_unique (fun this => TriangulationGraph_copy this g) h in
          Some (Some a', h')
      | None => None
      end
  end.

(** [clone_ptr& operator=(const clone_ptr& other)]: nothing on
    self-assignment ([this == &other]); otherwise the clone is made
    first and the object managed so far is deleted when [p_] takes the
    new one. *)
Definition clone_ptr_assign (self_assignment : bool) (this other : clone_ptr) (h : Heap)
  : option (clone_ptr * Heap) :=
  if self_assignment then Some (this, h)
  else
    match clone_ptr_copy other h with
    | Some (p', h') => Some (p', snd (clone_ptr_reset this h'))
    | None => None
    end.

(** [clone_ptr::get()]. *)
Definition clone_ptr_get (p : clone_ptr) : option addr := p.
End ClonePtr.

(* ================================================================== *)
(** * [Path] ([path.h], lines 69-1189)                                  *)
(* ================================================================== *)

(** [std::vector]'s [back()] and [front()], and the writes through the
    reference [back()] returns. *)
Definition back {A} (l : list A) : option A := last l.
Definition front {A} (l : list A) : option A := head l.
Arguments back {A} l : simpl never.
Arguments front {A} l : simpl never.

Fixpoint set_back {A} (x : A) (l : list A) : list A :=
  match l with
  | [] => []
  | [_] => [x]
  | y :: l' => y :: set_back x l'
  end.

Definition alter_back {A} (f : A -> A) (l : list A) : list A :=
  match back l with
  | Some y => set_back (f y) l
  | None => l
  end.

Definition is_empty {A} (l : list A) : bool :=
  match l with [] => true | _ => false end.

Record SubPath := mkSubPath {
  points : list Point;
  values : list float;
  closed : bool
}.

(** A default-constructed [SubPath], as [emplace_back()] makes it. *)
Definition SubPath_new : SubPath := mkSubPath [] [] false.

Definition push_point (p : Point) (sp : SubPath) : SubPath :=
  mkSubPath (points sp ++ [p]) (values sp) (closed sp).
Definition push_value (v : float) (sp : SubPath) : SubPath :=
  mkSubPath (points sp) (values sp ++ [v]) (closed sp).
Definition set_closed (c : bool) (sp : SubPath) : SubPath :=
  mkSubPath (points sp) (values sp) c.
Definition set_points (ps : list Point) (sp : SubPath) : SubPath :=
  mkSubPath ps (values sp) (closed sp).

Definition f32_one : float := S754_finite false 8388608 (-23).

(** [Bounds] of [space.h], as far as [boundingBox] builds one. *)
Record Bounds := mkBounds { bx : float; by_ : float; bwidth : float; bheight : float }.

(** The two build configurations of [defines.h]: with [NDEBUG]
    [VISAGE_ASSERT(x)] is [((void)0)]; without it the macro calls
    [debugAssert], whose documentation says that the application
    terminates when the condition is false. *)
Inductive Build := Debug | Release.

Inductive Outcome (A : Type) :=
| Returned (a : A)
| Terminated.
Arguments Returned {A} a.
Arguments Terminated {A}.

Definition VISAGE_ASSERT {A} (build : Build) (condition : bool) (k : Outcome A) : Outcome A :=
  match build with
  | Release => k
  | Debug => if condition then k else Terminated
  end.

Section Path.
Context {space : Space}.
Local Existing Instance binary32.

Record Path := mkPath {
  resolution_matrix_ : Matrix;
  paths_ : list SubPath;
  triangulation_graph_ : clone_ptr;
  fill_rule_ : FillRule;
  smooth_control_point_ : Point;
  last_point_ : Point;
  current_value_ : float;
  error_tolerance_ : float
}.

(** [Path() = default]: the member initialisers of the class. *)
Definition Path_new : Path :=
  mkPath Matrix_default [] None EvenOdd Point_origin Point_origin zero f32_0_1.

Definition with_paths (ps : list SubPath) (p : Path) : Path :=
  mkPath (resolution_matrix_ p) ps (triangulation_graph_ p) (fill_rule_ p)
    (smooth_control_point_ p) (last_point_ p) (current_value_ p) (error_tolerance_ p).
Definition with_graph (g : clone_ptr) (p : Path) : Path :=
  mkPath (resolution_matrix_ p) (paths_ p) g (fill_rule_ p)
    (smooth_control_point_ p) (last_point_ p) (current_value_ p) (error_tolerance_ p).
Definition with_fill_rule (r : FillRule) (p : Path) : Path :=
  mkPath (resolution_matrix_ p) (paths_ p) (triangulation_graph_ p) r
    (smooth_control_point_ p) (last_point_ p) (current_value_ p) (error_tolerance_ p).
Definition with_smooth (c : Point) (p : Path) : Path :=
  mkPath (resolution_matrix_ p) (paths_ p) (triangulation_graph_ p) (fill_rule_ p)
    c (last_point_ p) (current_value_ p) (error_tolerance_ p).
Definition with_last_point (l : Point) (p : Path) : Path :=
  mkPath (resolution_matrix_ p) (paths_ p) (triangulation_graph_ p) (fill_rule_ p)
    (smooth_control_point_ p) l (current_value_ p) (error_tolerance_ p).
Definition with_value (v : float) (p : Path) : Path :=
  mkPath (resolution_matrix_ p) (paths_ p) (triangulation_graph_ p) (fill_rule_ p)
    (smooth_control_point_ p) (last_point_ p) v (error_tolerance_ p).
Definition with_tolerance (t : float) (p : Path) : Path :=
  mkPath (resolution_matrix_ p) (paths_ p) (triangulation_graph_ p) (fill_rule_ p)
    (smooth_control_point_ p) (last_point_ p) (current_value_ p) t.
Definition with_matrix (m : Matrix) (p : Path) : Path :=
  mkPath m (paths_ p) (triangulation_graph_ p) (fill_rule_ p)
    (smooth_control_point_ p) (last_point_ p) (current_value_ p) (error_tolerance_ p).

(** A [Path] object together with the free store its graph handle
    points into. *)
Record Env := mkEnv { self : Path; heap : Heap }.

Definition on_self (f : Path -> Path) (e : Env) : Env := mkEnv (f (self e)) (heap e).

(** [setPointValue], [setFillRule], [fillRule], [errorTolerance],
    [setResolutionMatrix], [resolutionMatrix], [subPaths]. *)
Definition setPointValue (value : float) (p : Path) : Path := with_value value p.
Definition setFillRule (fill_rule : FillRule) (p : Path) : Path := with_fill_rule fill_rule p.
Definition fillRule (p : Path) : FillRule := fill_rule_ p.
Definition errorTolerance (p : Path) : float := error_tolerance_ p.
Definition setResolutionMatrix (m : Matrix) (p : Path) : Path := with_matrix m p.
Definition resolutionMatrix (p : Path) : Matrix := resolution_matrix_ p.
Definition subPaths (p : Path) : list SubPath := paths_ p.

(** [numPoints]. *)
Definition numPoints (p : Path) : nat :=
  fold_left (fun count path => (count + length (points path))%nat) (paths_ p) 0%nat.

(** [startNewPath]. *)
Definition startNewPath (p : Path) : Path :=
  let p1 :=
    match back (paths_ p) with
    | None => with_paths (paths_ p ++ [SubPath_new]) p
    | Some b =>
        if negb (is_empty (points b)) then with_paths (paths_ p ++ [SubPath_new]) p else p
    end in
  with_value zero (with_smooth Point_origin p1).

(** [currentPath()]: a closed or missing last sub-path makes it append a
    new one; the reference it returns is the last sub-path afterwards. *)
Definition currentPath (p : Path) : Path :=
  match back (paths_ p) with
  | None => with_paths (paths_ p ++ [SubPath_new]) p
  | Some b => if closed b then with_paths (paths_ p ++ [SubPath_new]) p else p
  end.

(** A write through the reference [currentPath()] returns. *)
Definition on_currentPath (f : SubPath -> SubPath) (p : Path) : Path :=
  let p1 := currentPath p in with_paths (alter_back f (paths_ p1)) p1.

(** [currentPath().points.empty()]. *)
Definition currentPath_empty (p : Path) : bool :=
  match back (paths_ (currentPath p)) with
  | Some b => is_empty (points b)
  | None => true
  end.

(** [triangulation_graph_.reset()]. *)
Definition reset_graph (e : Env) : Env :=
  let '(g, h) := clone_ptr_reset (triangulation_graph_ (self e)) (heap e) in
  mkEnv (with_graph g (self e)) h.

(** [addPoint]. *)
Definition addPoint (point : Point) (e : Env) : Env :=
  let e1 := on_self currentPath e in
  let duplicate :=
    match back (paths_ (self e1)) with
    | Some cur =>
        match back (points cur) with
        | Some b => Point_eqb point b
        | None => false
        end
    | None => false
    end in
  if duplicate then e1
  else
    let e2 := reset_graph e1 in
    let e3 := on_self (with_last_point point) e2 in
    let e4 := on_self (on_currentPath (push_point point)) e3 in
    on_self (fun p => on_currentPath (push_value (current_value_ p)) p) e4.

(** [moveTo]. *)
Definition moveTo (point : Point) (relative : bool) (p : Path) : Path :=
  let p1 :=
    match back (paths_ p) with
    | Some b => if negb (is_empty (points b)) then startNewPath p else p
    | None => p
    end in
  let point := if relative then Point_add point (last_point_ p1) else point in
  with_smooth Point_origin (with_last_point point p1).

(** [lineTo]. *)
Definition lineTo (point : Point) (relative : bool) (e : Env) : Env :=
  let e0 := on_self currentPath e in
  let e1 := if currentPath_empty (self e0) then addPoint (last_point_ (self e0)) e0 else e0 in
  let point := if relative then Point_add point (last_point_ (self e1)) else point in
  on_self (with_smooth Point_origin) (addPoint point e1).

(** [verticalTo] and [horizontalTo]. *)
Definition verticalTo (y : float) (relative : bool) (e : Env) : Env :=
  let y := if relative then fadd y (py (last_point_ (self e))) else y in
  on_self (with_smooth Point_origin)
    (lineTo (mkPoint (px (last_point_ (self e))) y) false e).

Definition horizontalTo (x : float) (relative : bool) (e : Env) : Env :=
  let x := if relative then fadd x (px (last_point_ (self e))) else x in
  on_self (with_smooth Point_origin)
    (lineTo (mkPoint x (py (last_point_ (self e)))) false e).

(** [kCloseEpsilon = 0.000001f]. *)
Definition kCloseEpsilon : float := f32_1em6.

(** [close]. *)
Definition close (e : Env) : Env :=
  match back (paths_ (self e)) with
  | None => e
  | Some b =>
      match front (points b), back (points b) with
      | Some first, Some last =>
          let e1 :=
            if flt (squareMagnitude (Point_sub first last)) kCloseEpsilon then
              on_self (fun p =>
                with_last_point first
                  (with_paths
                     (alter_back (fun sp => set_points (set_back first (points sp)) sp)
                        (paths_ p)) p)) e
            else if Point_neb first last then addPoint first e
            else e in
          on_self (on_currentPath (set_closed true)) e1
      | _, _ => e
      end
  end.

(** [deltaFromLine]. *)
Definition deltaFromLine (point line_from line_to : Point) : Point :=
  if Point_eqb line_from line_to then Point_sub point line_from
  else
    let line_delta := Point_sub line_to line_from in
    let point_delta := Point_sub point line_from in
    let t := fdiv (Point_dot point_delta line_delta) (Point_dot line_delta line_delta) in
    let t := std_clamp t zero f32_one in
    let closest_point := Point_add line_from (Point_scale line_delta t) in
    Point_sub point closest_point.

(** The test that ends the subdivision in [recurseBezierTo]. *)
Definition flat_enough (p : Path) (from control1 control2 to : Point) : bool :=
  let error_squared := fmul (error_tolerance_ p) (error_tolerance_ p) in
  let delta1 := Matrix_apply (resolution_matrix_ p) (deltaFromLine control1 from to) in
  let delta2 := Matrix_apply (resolution_matrix_ p) (deltaFromLine control2 from to) in
  fle (squareMagnitude delta1) error_squared && fle (squareMagnitude delta2) error_squared.

(** The de Casteljau construction at the parameter one half. *)
Definition mid (a b : Point) : Point := Point_scale (Point_add a b) f32_0_5.

Record Split := mkSplit {
  mid1 : Point; mid2 : Point; mid3 : Point;
  midmid1 : Point; midmid2 : Point; break_point : Point
}.

Definition deCasteljau (from control1 control2 to : Point) : Split :=
  let mid1 := mid from control1 in
  let mid2 := mid control1 control2 in
  let mid3 := mid control2 to in
  let midmid1 := mid mid1 mid2 in
  let midmid2 := mid mid2 mid3 in
  let break_point := mid midmid1 midmid2 in
  mkSplit mid1 mid2 mid3 midmid1 midmid2 break_point.

(** [recurseBezierTo].  The source recurses without a depth limit;
    [fuel] bounds the depth here and [None] reports that it ran out. *)
Fixpoint recurseBezierTo (fuel : nat) (from control1 control2 to : Point) (e : Env)
  : option Env :=
  match fuel with
  | O => None
  | S fuel' =>
      if flat_enough (self e) from control1 control2 to then Some (addPoint to e)
      else
        let s := deCasteljau from control1 control2 to in
        match recurseBezierTo fuel' from (mid1 s) (midmid1 s) (break_point s) e with
        | Some e1 => recurseBezierTo fuel' (break_point s) (midmid2 s) (mid3 s) to e1
        | None => None
        end
  end.

(** [quadraticTo]. *)
Definition quadraticTo (fuel : nat) (control end_ : Point) (relative : bool) (e : Env)
  : option Env :=
  let e0 := on_self currentPath e in
  let e1 := if currentPath_empty (self e0) then addPoint (last_point_ (self e0)) e0 else e0 in
  let from := last_point_ (self e1) in
  let control := if relative then Point_add control from else control in
  let end_ := if relative then Point_add end_ from else end_ in
  let control1 := Point_add from (Point_scale (Point_sub control from) f32_2_3) in
  let control2 := Point_add end_ (Point_scale (Point_sub control end_) f32_2_3) in
  let e2 := on_self (with_smooth (Point_add end_ (Point_sub end_ control))) e1 in
  recurseBezierTo fuel from control1 control2 end_ e2.

(** [smoothQuadraticTo]. *)
Definition smoothQuadraticTo (fuel : nat) (end_ : Point) (relative : bool) (e : Env)
  : option Env :=
  let end_ := if relative then Point_add end_ (last_point_ (self e)) else end_ in
  quadraticTo fuel (smooth_control_point_ (self e)) end_ false e.

(** [bezierTo]. *)
Definition bezierTo (fuel : nat) (control1 control2 end_ : Point) (relative : bool) (e : Env)
  : option Env :=
  let e0 := on_self currentPath e in
  let e1 := if currentPath_empty (self e0) then addPoint (last_point_ (self e0)) e0 else e0 in
  let from := last_point_ (self e1) in
  let control1 := if relative then Point_add control1 from else control1 in
  let control2 := if relative then Point_add control2 from else control2 in
  let end_ := if relative then Point_add end_ from else end_ in
  match recurseBezierTo fuel from control1 control2 end_ e1 with
  | Some e2 => Some (on_self (with_smooth (Point_add end_ (Point_sub end_ control2))) e2)
  | None => None
  end.

(** [smoothBezierTo]. *)
Definition smoothBezierTo (fuel : nat) (end_control end_ : Point) (relative : bool) (e : Env)
  : option Env :=
  let end_control :=
    if relative then Point_add end_control (last_point_ (self e)) else end_control in
  let end_ := if relative then Point_add end_ (last_point_ (self e)) else end_ in
  bezierTo fuel (smooth_control_point_ (self e)) end_control end_ false e.

(** [clear]. *)
Definition clear (e : Env) : Env :=
  reset_graph (on_self (fun p => with_last_point Point_origin (with_paths [] p)) e).

(** The loop shared by [scale], [translate], [rotate] and [transform]:
    every point of every sub-path is replaced by its image. *)
Definition map_points (f : Point -> Point) (p : Path) : Path :=
  with_paths (map (fun path => set_points (map f (points path)) path) (paths_ p)) p.

Definition scale (mult : float) (p : Path) : Path :=
  map_points (fun point => Point_scale point mult) p.

Definition translate (offset : Point) (p : Path) : Path :=
  map_points (fun point => Point_add point offset) p.

Definition rotate (angle : float) (p : Path) : Path :=
  let row1 : Point := mkPoint (cosf angle) (sinf angle) in
  let row2 : Point := mkPoint (fneg (sinf angle)) (cosf angle) in
  map_points (fun point =>
    let x := px point in
    let y := py point in
    mkPoint (fadd (fmul (px row1) x) (fmul (py row1) y))
            (fadd (fmul (px row2) x) (fmul (py row2) y))) p.

Definition transform (t : Transform) (p : Path) : Path :=
  map_points (Transform_apply t) p.

(** [reverse]. *)
Definition reverse (p : Path) : Path :=
  with_paths
    (map (fun path => mkSubPath (rev (points path)) (rev (values path)) (closed path))
       (paths_ p)) p.

(** [boundingBox]. *)
Definition boundingBox (p : Path) : Bounds :=
  let lowest := fneg FLT_MAX in
  let step (acc : float * float * float * float) (point : Point) :=
    let '(min_x, min_y, max_x, max_y) := acc in
    (std_min min_x (px point), std_min min_y (py point),
     std_max max_x (px point), std_max max_y (py point)) in
  let '(min_x, min_y, max_x, max_y) :=
    fold_left (fun acc path => fold_left step (points path) acc) (paths_ p)
      (FLT_MAX, FLT_MAX, lowest, lowest) in
  if fgt min_x max_x || fgt min_y max_y then mkBounds zero zero zero zero
  else mkBounds min_x min_y (fsub max_x min_x) (fsub max_y min_y).

(** [setErrorTolerance]. *)
Definition setErrorTolerance (build : Build) (tolerance : float) (p : Path) : Outcome Path :=
  VISAGE_ASSERT build (fgt tolerance zero)
    (Returned (if fgt tolerance zero then with_tolerance tolerance p else p)).

(** [Path(const Path& other) = default]: memberwise copy; the vectors
    and scalars by value, the graph handle through [clone_ptr]'s copy
    constructor. *)
Definition Path_copy (other : Path) (h : Heap) : option Env :=
  match clone_ptr_copy (triangulation_graph_ other) h with
  | Some (g, h') => Some (mkEnv (with_graph g other) h')
  | None => None
  end.

(** [Path& operator=(const Path& other) = default]: memberwise copy
    assignment into [this]. *)
Definition Path_assign (self_assignment : bool) (this other : Path) (h : Heap) : option Env :=
  match clone_ptr_assign self_assignment (triangulation_graph_ this)
          (triangulation_graph_ other) h with
  | Some (g, h') => Some (mkEnv (with_graph g (if self_assignment then this else other)) h')
  | None => None
  end.
End Path.

(** What [path.h] declares and [path.cpp], which is not part of the
    sources at hand, defines: the constructor of the graph from a path. *)
Class PathCpp {space : Space} := {
  TriangulationGraph_of_Path : Path -> addr -> TriangulationGraph
}.

Section Calls.
Context {space : Space} {cpp : PathCpp}.

(** [triangulationGraph()]: the graph is built on the first query after
    a reset and reused afterwards. *)
Definition triangulationGraph (e : Env) : addr * Env :=
  match triangulation_graph_ (self e) with
  | Some a => (a, e)
  | None =>
      let '(a, h) := make_unique (TriangulationGraph_of_Path (self e)) (heap e) in
      (a, mkEnv (with_graph (Some a) (self e)) h)
  end.

(** The edit calls of the public interface that the header defines. *)
Inductive EditOp :=
| MoveTo (point : Point) (relative : bool)
| LineTo (point : Point) (relative : bool)
| VerticalTo (y : float) (relative : bool)
| HorizontalTo (x : float) (relative : bool)
| Close
| QuadraticTo (control end_ : Point) (relative : bool)
| SmoothQuadraticTo (end_ : Point) (relative : bool)
| BezierTo (control1 control2 end_ : Point) (relative : bool)
| SmoothBezierTo (end_control end_ : Point) (relative : bool)
| Clear
| Scale (mult : float)
| Translate (offset : Point)
| Rotate (angle : float)
| TransformBy (t : Transform)
| Reverse
| SetFillRule (fill_rule : FillRule)
| SetPointValue (value : float)
| SetResolutionMatrix (m : Matrix).

(** One edit call; [fuel] bounds the depth of the curve subdivision. *)
Definition run (fuel : nat) (op : EditOp) (e : Env) : option Env :=
  match op with
  | MoveTo point relative => Some (on_self (moveTo point relative) e)
  | LineTo point relative => Some (lineTo point relative e)
  | VerticalTo y relative => Some (verticalTo y relative e)
  | HorizontalTo x relative => Some (horizontalTo x relative e)
  | Close => Some (close e)
  | QuadraticTo control end_ relative => quadraticTo fuel control end_ relative e
  | SmoothQuadraticTo end_ relative => smoothQuadraticTo fuel end_ relative e
  | BezierTo control1 control2 end_ relative => bezierTo fuel control1 control2 end_ relative e
  | SmoothBezierTo end_control end_ relative => smoothBezierTo fuel end_control end_ relative e
  | Clear => Some (clear e)
  | Scale mult => Some (on_self (scale mult) e)
  | Translate offset => Some (on_self (translate offset) e)
  | Rotate angle => Some (on_self (rotate angle) e)
  | TransformBy t => Some (on_self (transform t) e)
  | Reverse => Some (on_self reverse e)
  | SetFillRule fill_rule => Some (on_self (setFillRule fill_rule) e)
  | SetPointValue value => Some (on_self (setPointValue value) e)
  | SetResolutionMatrix m => Some (on_self (setResolutionMatrix m) e)
  end.

(** Modelled from the spec: a geometry query is a member function of
    the graph, which [path.cpp] defines ([triangulate], [combine],
    [offset], ...).  The spec says that a query builds or reuses the
    path's own graph and works on it; a query is therefore a function
    that rewrites the graph [triangulationGraph()] returns.  It may read
    the whole free store: the scan line of a copied graph still points at
    the [sorted_indices_] of the graph it was copied from. *)
Definition query (method : Heap -> TriangulationGraph -> TriangulationGraph) (e : Env) : Env :=
  let '(a, e1) := triangulationGraph e in
  mkEnv (self e1) (alter (method (heap e1)) a (heap e1)).

(** A call made through one [Path] object. *)
Inductive PathCall :=
| Edit (op : EditOp)
| Query (method : Heap -> TriangulationGraph -> TriangulationGraph).

Definition call (fuel : nat) (c : PathCall) (e : Env) : option Env :=
  match c with
  | Edit op => run fuel op e
  | Query method => Some (query method e)
  end.

Fixpoint calls (fuel : nat) (cs : list PathCall) (e : Env) : option Env :=
  match cs with
  | [] => Some e
  | c :: cs' =>
      match call fuel c e with
      | Some e1 => calls fuel cs' e1
      | None => None
      end
  end.
End Calls.

(* ================================================================== *)
(** * The vocabulary of the properties                                  *)
(* ================================================================== *)

Section Vocabulary.
Context {space : Space}.
Local Existing Instance binary32.

(** The number of points of a list of sub-paths. *)
Definition count_points (ps : list SubPath) : nat :=
  sum_list_with (fun sp => length (points sp)) ps.

(** The state [addPoint] leaves when it does add the point. *)
Definition appended (point : Point) (e : Env) : Env :=
  let p := currentPath (self e) in
  mkEnv
    (with_paths
       (alter_back
          (fun cur =>
             mkSubPath (points cur ++ [point]) (values cur ++ [current_value_ p]) (closed cur))
          (paths_ p))
       (with_last_point point (with_graph None p)))
    (snd (clone_ptr_reset (triangulation_graph_ (self e)) (heap e))).

(** The test on which [addPoint] returns early. *)
Definition duplicate (point : Point) (p : Path) : bool :=
  match back (paths_ (currentPath p)) with
  | Some cur =>
      match back (points cur) with
      | Some b => Point_eqb point b
      | None => false
      end
  | None => false
  end.

(** A function on paths is quiet when it keeps the graph handle and the
    number of points. *)
Definition quiet (f : Path -> Path) : Prop :=
  forall p, triangulation_graph_ (f p) = triangulation_graph_ p /\
            numPoints (f p) = numPoints p.

(** An edit call either keeps the handle, the free store and the number
    of points, or it leaves the handle null and the graph deleted. *)
Definition kept_or_discarded (e e' : Env) : Prop :=
  (heap e' = heap e /\
   triangulation_graph_ (self e') = triangulation_graph_ (self e) /\
   numPoints (self e') = numPoints (self e))
  \/
  (triangulation_graph_ (self e') = None /\
   heap e' = snd (clone_ptr_reset (triangulation_graph_ (self e)) (heap e))).

(** The closed sub-path without points that [close()] leaves behind a
    sub-path that was closed already. *)
Definition SubPath_closed_empty : SubPath := mkSubPath [] [] true.

(** The test of the first branch of [close()]. *)
Definition snaps (first last : Point) : bool :=
  flt (squareMagnitude (Point_sub first last)) kCloseEpsilon.

(** The invariant of a sub-path: as many values as points, and equal
    first and last points when it is closed. *)
Definition SubPath_ok (sp : SubPath) : Prop :=
  length (values sp) = length (points sp) /\
  (closed sp = true -> front (points sp) = back (points sp)).

Definition Path_ok (p : Path) : Prop := Forall SubPath_ok (paths_ p).

(** The end points of the last sub-path are finite (or it has none). *)
Definition ends_finite (p : Path) : bool :=
  match back (paths_ p) with
  | Some b =>
      match front (points b), back (points b) with
      | Some first, Some last => Point_finite first && Point_finite last
      | _, _ => true
      end
  | None => true
  end.

(** The polyline under construction ends at [to]: the last point of the
    last sub-path is [to], or a point that [operator==] identifies with
    it. *)
Definition ends_at (to : Point) (p : Path) : Prop :=
  exists init cur b,
    paths_ p = init ++ [cur] /\ back (points cur) = Some b /\
    (b = to \/ Point_eqb to b = true).

(** The graph [g] is alive at [a], and [a] is not what the path of this
    environment manages. *)
Definition foreign (a : addr) (g : TriangulationGraph) (e : Env) : Prop :=
  heap e !! a = Some g /\ triangulation_graph_ (self e) <> Some a.

End Vocabulary.

(* ================================================================== *)
(** * An implementation of the interfaces                               *)
(* ================================================================== *)

(** The model runs on concrete paths once [Space] and [PathCpp] are
    implemented.  The implementation below is the plain one: a 2x2
    resolution matrix, an affine transform, the comparison of two points
    by y and then by x (the sweep direction of the spec), and the first
    terms of the power series for [cosf] and [sinf]. *)
Module Plain.
Local Existing Instance binary32.

Record Matrix2 := mkMatrix2 { m00 : float; m01 : float; m10 : float; m11 : float }.

Definition Matrix2_apply (m : Matrix2) (p : Point) : Point :=
  mkPoint (fadd (fmul (m00 m) (px p)) (fmul (m01 m) (py p)))
          (fadd (fmul (m10 m) (px p)) (fmul (m11 m) (py p))).

Definition Matrix2_identity : Matrix2 := mkMatrix2 f32_one zero zero f32_one.

Record Affine := mkAffine { linear : Matrix2; shift : Point }.

Definition Affine_apply (t : Affine) (p : Point) : Point :=
  Point_add (Matrix2_apply (linear t) p) (shift t).

Definition compare_lex (a b : DPoint) : double :=
  if fne (py a) (py b) then @fsub binary64 (py a) (py b)
  else @fsub binary64 (px a) (px b).

Definition cos_series (a : float) : float :=
  fsub f32_one (fmul (fmul a a) f32_0_5).

Definition sin_series (a : float) : float :=
  fsub a (fdiv (fmul (fmul a a) a) (of_Z 6)).

Definition space : Space := {|
  Matrix := Matrix2;
  Matrix_apply := Matrix2_apply;
  Matrix_default := Matrix2_identity;
  Transform := Affine;
  Transform_apply := Affine_apply;
  DPoint_compare := compare_lex;
  cosf := cos_series;
  sinf := sin_series
|}.

(** The widening conversion from [float] to [double]; every binary32
    value is a binary64 value. *)
Definition to_double (a : float) : double :=
  match a with
  | S754_finite s m e => binary_round 53 1024 s m e
  | _ => a
  end.

Definition to_DPoint (p : Point) : DPoint := mkPoint (to_double (px p)) (to_double (py p)).

(** The links of one contour of [n] vertices that starts at vertex
    [start]: vertex [start + i] is linked to its cyclic neighbours. *)
Definition cycle_next (start n : nat) : list Z :=
  map (fun i => Z.of_nat (start + (i + 1) mod n)) (seq 0 n).
Definition cycle_prev (start n : nat) : list Z :=
  map (fun i => Z.of_nat (start + (i + n - 1) mod n)) (seq 0 n).

Fixpoint contour_links (link : nat -> nat -> list Z) (start : nat) (ps : list SubPath)
  : list Z :=
  match ps with
  | [] => []
  | sp :: rest =>
      link start (length (points sp))
        ++ contour_links link (start + length (points sp)) rest
  end.

Definition ScanLine_new (graph : addr) : ScanLine :=
  mkScanLine graph None 0 (-1) [] [] (mkAreaIterator graph 0) (mkAreaIterator graph 0)
    ∅ [] [] [] [] [] 0.

(** Modelled from the spec: the constructor of the graph from a path,
    which [path.cpp] defines.  The spec says that every point of every
    sub-path becomes a vertex of the graph and that consecutive points
    of a sub-path are linked through [next_edge] and [prev_edge],
    wrapping around at the ends. *)
Definition graph_of_path (t : Affine) (p : @Path space) (this : addr)
  : @TriangulationGraph space :=
  @mkGraph space t false
    (concat (map (fun sp => map to_DPoint (points sp)) (paths_ p)))
    []
    (contour_links cycle_prev 0 (paths_ p))
    (contour_links cycle_next 0 (paths_ p))
    (ScanLine_new this).

Definition Affine_identity : Affine := mkAffine Matrix2_identity Point_origin.

Definition cpp : @PathCpp space := {|
  TriangulationGraph_of_Path := graph_of_path Affine_identity
|}.

Definition pt (x y : Z) : Point := mkPoint (of_Z x) (of_Z y).

(** Two sweep events at the point (4, 0): the end of one edge and the
    beginning of another. *)
Definition event_end : IndexData := mkIndexData 7 (to_DPoint (pt 4 0)) PT_End.
Definition event_begin : IndexData := mkIndexData 2 (to_DPoint (pt 4 0)) PT_Begin.

(** A path with two sub-paths and no point. *)
Definition pointless_path : @Path space :=
  @mkPath space Matrix2_identity [SubPath_new; mkSubPath [] [] true] None NonZero
    Point_origin (pt 1 1) zero f32_0_1.

(** The triangle (0,0), (4,0), (0,3) as an open sub-path, and the path
    that holds it with a graph cached at address 1. *)
Definition triangle : SubPath :=
  mkSubPath [pt 0 0; pt 4 0; pt 0 3] [zero; zero; zero] false.

Definition triangle_path : @Path space :=
  @mkPath space Matrix2_identity [triangle] None EvenOdd Point_origin (pt 0 3) zero f32_0_1.

Definition triangle_cached : @Env space :=
  snd (@triangulationGraph space cpp (@mkEnv space triangle_path ∅)).

(** An empty path and an empty free store. *)
Definition nothing : @Env space := @mkEnv space (@Path_new space) ∅.

(** A sub-path whose last point, (1/4096, 0), is closer to its first
    point than [close()] tells apart. *)
Definition almost_closed : SubPath :=
  mkSubPath [pt 0 0; pt 4 0; pt 0 3; mkPoint (fdiv (of_Z 1) (of_Z 4096)) zero]
    [zero; zero; zero; zero] false.

Definition almost_closed_path : @Path space :=
  @mkPath space Matrix2_identity [almost_closed] None EvenOdd Point_origin
    (mkPoint (fdiv (of_Z 1) (of_Z 4096)) zero) zero f32_0_1.

(** A tiny loop at (0, 3), the last point of [triangle]: a cubic that
    starts and ends there, with control points 1/16 away. *)
Definition loop_control1 : Point := mkPoint (fdiv (of_Z 1) (of_Z 16)) (of_Z 3).
Definition loop_control2 : Point := mkPoint zero (fdiv (of_Z 49) (of_Z 16)).

(** A point whose coordinates are not numbers. *)
Definition nan_point : Point := mkPoint S754_nan S754_nan.

(** An arch from (0, 3) to (4, 3) with control points (1, 5) and (3, 5). *)
Definition arch (fuel : nat) : option (@Env space) :=
  @recurseBezierTo space fuel (pt 0 3) (pt 1 5) (pt 3 5) (pt 4 3) triangle_cached.
End Plain.


(* ================================================================== *)
(** * Segment intersection ([path.h], lines 313-324)                    *)
(* ================================================================== *)

Section Intersection.
Context {fmt : Ieee}.

(** Modelled from the spec: [BasePoint<T>::cross] of [space.h], the
    cross product of two vectors, [x * other.y - y * other.x]. *)
Definition Point_cross (a b : BasePoint fmt) : spec_float :=
  fsub (fmul (px a) (py b)) (fmul (py a) (px b)).

(** [Path::findIntersection]; [None] is [std::nullopt]. *)
Definition findIntersection (start1 end1 start2 end2 : BasePoint fmt)
  : option (BasePoint fmt) :=
  let delta1 := Point_sub end1 start1 in
  let delta2 := Point_sub end2 start2 in
  let det := Point_cross delta1 delta2 in
  if feq det zero then None
  else
    let start_delta := Point_sub start2 start1 in
    let t1 := fdiv (Point_cross start_delta delta2) det in
    Some (Point_add start1 (Point_scale delta1 t1)).
End Intersection.

(* ================================================================== *)
(** * [Path::CommandList] ([path.h], lines 86-269)                      *)
(* ================================================================== *)

Module CommandList.
Local Existing Instance binary32.

(** [Path::Command]; [type_] and [end_] are the members [type] and
    [end]. *)
Record Command := mkCommand {
  type_ : ascii;
  end_ : Point;
  control1 : Point;
  control2 : Point;
  flags : Z
}.

(** The default member initialiser [{ FLT_MAX, FLT_MAX }] of the two
    control points. *)
Definition no_control : Point := mkPoint FLT_MAX FLT_MAX.

(** [enum Flags]. *)
Definition kLargeArc : Z := 1.
Definition kSweep : Z := Z.shiftl 1 1.

(** A [CommandList] is a [std::vector<Command>] with the two members
    [start] and [current]. *)
Record t := mkList {
  commands : list Command;
  start : Point;
  current : Point
}.

(** A default-constructed list. *)
Definition empty : t := mkList [] Point_origin Point_origin.

Definition adjustPoint (p : Point) (relative : bool) (l : t) : Point :=
  if relative then Point_add (current l) p else p.

Definition addCommand (command : Command) (l : t) : t :=
  mkList (commands l ++ [command]) (start l) (end_ command).

Definition moveTo (x y : float) (relative : bool) (l : t) : t :=
  let l1 :=
    addCommand (mkCommand "M" (adjustPoint (mkPoint x y) relative l) no_control no_control 0) l in
  mkList (commands l1) (current l1) (current l1).

Definition lineTo (x y : float) (relative : bool) (l : t) : t :=
  addCommand (mkCommand "L" (adjustPoint (mkPoint x y) relative l) no_control no_control 0) l.

Definition horizontalTo (x : float) (relative : bool) (l : t) : t :=
  addCommand
    (mkCommand "L"
       (mkPoint (if relative then fadd x (px (current l)) else x) (py (current l)))
       no_control no_control 0) l.

Definition verticalTo (y : float) (relative : bool) (l : t) : t :=
  addCommand
    (mkCommand "L"
       (mkPoint (px (current l)) (if relative then fadd y (py (current l)) else y))
       no_control no_control 0) l.

Definition quadraticTo (cx cy x y : float) (relative : bool) (l : t) : t :=
  addCommand
    (mkCommand "Q" (adjustPoint (mkPoint x y) relative l)
       (adjustPoint (mkPoint cx cy) relative l) no_control 0) l.

Definition smoothQuadraticTo (x y : float) (relative : bool) (l : t) : t :=
  addCommand (mkCommand "T" (adjustPoint (mkPoint x y) relative l) no_control no_control 0) l.

Definition bezierTo (cx1 cy1 cx2 cy2 x y : float) (relative : bool) (l : t) : t :=
  addCommand
    (mkCommand "C" (adjustPoint (mkPoint x y) relative l)
       (adjustPoint (mkPoint cx1 cy1) relative l)
       (adjustPoint (mkPoint cx2 cy2) relative l) 0) l.

Definition smoothBezierTo (cx cy x y : float) (relative : bool) (l : t) : t :=
  addCommand
    (mkCommand "S" (adjustPoint (mkPoint x y) relative l)
       (adjustPoint (mkPoint cx cy) relative l) no_control 0) l.

Definition arcTo (rx ry rotation : float) (large_arc sweep : bool) (x y : float)
    (relative : bool) (l : t) : t :=
  let flags := Z.lor (if large_arc then kLargeArc else 0) (if sweep then kSweep else 0) in
  addCommand
    (mkCommand "A" (adjustPoint (mkPoint x y) relative l)
       (mkPoint rx ry) (mkPoint rotation rotation) flags) l.

Definition close (l : t) : t :=
  addCommand (mkCommand "Z" (start l) no_control no_control 0) l.

(** The calls that append a command. *)
Inductive Call :=
| MoveTo (x y : float) (relative : bool)
| LineTo (x y : float) (relative : bool)
| HorizontalTo (x : float) (relative : bool)
| VerticalTo (y : float) (relative : bool)
| QuadraticTo (cx cy x y : float) (relative : bool)
| SmoothQuadraticTo (x y : float) (relative : bool)
| BezierTo (cx1 cy1 cx2 cy2 x y : float) (relative : bool)
| SmoothBezierTo (cx cy x y : float) (relative : bool)
| ArcTo (rx ry rotation : float) (large_arc sweep : bool) (x y : float) (relative : bool)
| Close.

Definition call (c : Call) (l : t) : t :=
  match c with
  | MoveTo x y relative => moveTo x y relative l
  | LineTo x y relative => lineTo x y relative l
  | HorizontalTo x relative => horizontalTo x relative l
  | VerticalTo y relative => verticalTo y relative l
  | QuadraticTo cx cy x y relative => quadraticTo cx cy x y relative l
  | SmoothQuadraticTo x y relative => smoothQuadraticTo x y relative l
  | BezierTo cx1 cy1 cx2 cy2 x y relative => bezierTo cx1 cy1 cx2 cy2 x y relative l
  | SmoothBezierTo cx cy x y relative => smoothBezierTo cx cy x y relative l
  | ArcTo rx ry rotation large_arc sweep x y relative =>
      arcTo rx ry rotation large_arc sweep x y relative l
  | Close => close l
  end.

(** A list built by a sequence of calls on a default-constructed one. *)
Definition build (cs : list Call) : t := fold_left (fun l c => call c l) cs empty.

(** The end point of the last ['M'] command of a list of commands, the
    origin when there is none. *)
Definition last_move (cs : list Command) : Point :=
  fold_left (fun p c => if Ascii.eqb (type_ c) "M" then end_ c else p) cs Point_origin.

(** The end point of the last command, the origin when there is none. *)
Definition last_end (cs : list Command) : Point :=
  match back cs with
  | Some c => end_ c
  | None => Point_origin
  end.
End CommandList.

(* ================================================================== *)
(** * The scan line ([path.h], lines 769-807 and 860-1071)              *)
(* ================================================================== *)

(** An [int] used as the index of [operator[]] or [at()]: [None] when it
    is outside the vector. *)
Definition at_ {A} (l : list A) (i : Z) : option A :=
  if i <? 0 then None else l !! Z.to_nat i.

(** [i < v.size()] for an [int i]: the comparison converts [i] to
    [size_t], so that a negative [i] is not below any size. *)
Definition below_size (i : Z) (size : nat) : bool :=
  (0 <=? i) && (i <? Z.of_nat size).

Definition with_current_index (i : Z) (sl : ScanLine) : ScanLine :=
  mkScanLine (graph_ sl) (sl_sorted_indices_ sl) i (next_intersection_ sl)
    (areas_ sl) (edit_positions_ sl) (last_position1_ sl) (last_position2_ sl)
    (aliases_ sl) (new_areas_ sl) (old_areas_ sl) (next_areas_ sl)
    (degeneracies_ sl) (intersection_events_ sl) (last_data_ sl).

Definition with_next_intersection (i : Z) (sl : ScanLine) : ScanLine :=
  mkScanLine (graph_ sl) (sl_sorted_indices_ sl) (current_index_ sl) i
    (areas_ sl) (edit_positions_ sl) (last_position1_ sl) (last_position2_ sl)
    (aliases_ sl) (new_areas_ sl) (old_areas_ sl) (next_areas_ sl)
    (degeneracies_ sl) (intersection_events_ sl) (last_data_ sl).

Definition with_aliases (m : gmap Z Z) (sl : ScanLine) : ScanLine :=
  mkScanLine (graph_ sl) (sl_sorted_indices_ sl) (current_index_ sl) (next_intersection_ sl)
    (areas_ sl) (edit_positions_ sl) (last_position1_ sl) (last_position2_ sl)
    m (new_areas_ sl) (old_areas_ sl) (next_areas_ sl)
    (degeneracies_ sl) (intersection_events_ sl) (last_data_ sl).

(** The loop of [ScanLine::addAlias]: [original] is replaced by what it
    is an alias of until it is an alias of nothing.  The source loops
    without a bound; [fuel] bounds the number of steps here and [None]
    reports that it ran out. *)
Fixpoint follow_aliases (fuel : nat) (aliases : gmap Z Z) (original : Z) : option Z :=
  match fuel with
  | O => None
  | S fuel' =>
      match aliases !! original with
      | Some next => follow_aliases fuel' aliases next
      | None => Some original
      end
  end.

(** [ScanLine::addAlias]. *)
Definition addAlias (fuel : nat) (alias original : Z) (sl : ScanLine) : option ScanLine :=
  match follow_aliases fuel (aliases_ sl) original with
  | Some original => Some (with_aliases (<[alias := original]> (aliases_ sl)) sl)
  | None => None
  end.

(** [ScanLine::hasIntersection]. *)
Definition hasIntersection (from1 to1 from2 to2 : Z) (sl : ScanLine) : bool :=
  existsb
    (fun intersection =>
       ((area1_from_index intersection =? from1) && (area1_to_index intersection =? to1) &&
        (area2_from_index intersection =? from2) && (area2_to_index intersection =? to2))
       ||
       ((area1_from_index intersection =? from2) && (area1_to_index intersection =? to2) &&
        (area2_from_index intersection =? from1) && (area2_to_index intersection =? to1)))
    (intersection_events_ sl).

(** The search loop of [findAreaByToIndex] and [findAreaByFromTo]: the
    position of the first area from [it] on that passes the test. *)
Fixpoint find_area (test : ScanLineArea -> bool) (areas : list ScanLineArea) (it : nat)
  : option nat :=
  match areas with
  | [] => None
  | area :: rest => if test area then Some it else find_area test rest (S it)
  end.

(** [ScanLine::findAreaByToIndex(index, it)]; an iterator is its
    distance from [areas_.begin()], and [areas_.end()] is the size. *)
Definition findAreaByToIndex (build : Build) (index : Z) (it : nat) (sl : ScanLine)
  : Outcome nat :=
  match find_area (fun area => to_index area =? index) (drop it (areas_ sl)) it with
  | Some found => Returned found
  | None => VISAGE_ASSERT build false (Returned (length (areas_ sl)))
  end.

(** [ScanLine::findAreaByFromTo]. *)
Definition findAreaByFromTo (build : Build) (from to : Z) (sl : ScanLine) : Outcome nat :=
  match find_area (fun area => (from_index area =? from) && (to_index area =? to))
          (areas_ sl) 0 with
  | Some found => Returned found
  | None => VISAGE_ASSERT build false (Returned (length (areas_ sl)))
  end.

Section ScanLineOrder.
(** [DPoint::operator<] of [space.h], which is not part of the sources
    at hand. *)
Variable DPoint_lt : DPoint -> DPoint -> bool.

(** [ScanLineArea::operator==]. *)
Definition ScanLineArea_eqb (this other : ScanLineArea) : bool :=
  (from_index this =? from_index other) && (to_index this =? to_index other) &&
  Point_eqb (from this) (from other) && Point_eqb (to this) (to other).

(** [ScanLineArea::operator<]. *)
Definition ScanLineArea_lt (this other : ScanLineArea) : bool :=
  let orientation :=
    if DPoint_lt (from other) (from this)
    then stableOrientation (from other) (to other) (from this)
    else if DPoint_lt (from this) (from other)
    then fneg (stableOrientation (from this) (to this) (from other))
    else zero in
  if truthy orientation then flt orientation zero
  else if Point_eqb (to this) (from other) && Point_neb (from this) (to other) then true
  else if Point_eqb (from this) (to other) && Point_neb (to this) (from other) then false
  else if DPoint_lt (to other) (to this)
  then flt (stableOrientation (from other) (to other) (to this)) zero
  else if DPoint_lt (to this) (to other)
  then fgt (stableOrientation (from this) (to this) (to other)) zero
  else false.

(** The loop of [ScanLine::progressToNextIntersection]: the state is
    [next_intersection_], the local [point] and the counter [i]. *)
Definition next_intersection_step (state : Z * DPoint * Z) (event : IntersectionEvent)
  : Z * DPoint * Z :=
  let '(next_intersection, point, i) := state in
  if (next_intersection =? -1) || DPoint_lt (ie_point event) point
  then (i, ie_point event, i + 1)
  else (next_intersection, point, i + 1).

(** [ScanLine::progressToNextIntersection]. *)
Definition progressToNextIntersection (sl : ScanLine) : ScanLine :=
  let '(next_intersection, _, _) :=
    fold_left next_intersection_step (intersection_events_ sl) (-1, Point_origin, 0) in
  with_next_intersection next_intersection sl.
End ScanLineOrder.

Section ScanLineCalls.
Context {space : Space}.

(** The vector [sorted_indices_] points at, and [graph_->next_edge_],
    as the scan line finds them in the free store. *)
Definition sorted_indices_of (h : Heap) (sl : ScanLine) : option (list IndexData) :=
  match sl_sorted_indices_ sl with
  | Some a =>
      match h !! a with
      | Some g => Some (sorted_indices_ g)
      | None => None
      end
  | None => None
  end.

Definition next_edge_of (h : Heap) (sl : ScanLine) : option (list Z) :=
  match h !! graph_ sl with
  | Some g => Some (next_edge_ g)
  | None => None
  end.

(** [ScanLine::hasNext]; [None] stands for the dereference of a pointer
    to no live vector. *)
Definition hasNext (h : Heap) (sl : ScanLine) : option bool :=
  match sorted_indices_of h sl with
  | Some sorted => Some (below_size (current_index_ sl) (length sorted))
  | None => None
  end.

(** The loop of [ScanLine::progressToNextEvent] over the entries from
    [current_index_] on: it stops at the first entry whose vertex is not
    its own successor.  [None] stands for an index outside
    [next_edge_]. *)
Fixpoint skip_removed (next_edge : list Z) (rest : list IndexData) (current_index : Z)
  : option Z :=
  match rest with
  | [] => Some current_index
  | entry :: rest' =>
      match at_ next_edge (index entry) with
      | Some next =>
          if negb (next =? index entry) then Some current_index
          else skip_removed next_edge rest' (current_index + 1)
      | None => None
      end
  end.

(** [ScanLine::progressToNextEvent]. *)
Definition progressToNextEvent (h : Heap) (sl : ScanLine) : option ScanLine :=
  match sorted_indices_of h sl with
  | Some sorted =>
      if below_size (current_index_ sl) (length sorted) then
        match next_edge_of h sl with
        | Some next_edge =>
            match skip_removed next_edge (drop (Z.to_nat (current_index_ sl)) sorted)
                    (current_index_ sl) with
            | Some i => Some (with_current_index i sl)
            | None => None
            end
        | None => None
        end
      else Some sl
  | None => None
  end.
(** [ScanLine::Event]. *)
Record Event := mkEvent {
  ev_type : PointType;
  ev_index : Z;
  ev_point : DPoint;
  prev_index : Z;
  prev : DPoint;
  next_index : Z;
  next : DPoint;
  degeneracy : bool
}.

(** [ScanLine::nextEvent]; [None] stands for the exception of [at()]
    and for an index outside [prev_edge_], [next_edge_] or [points_].
    The two [at()] calls of the degeneracy test are made only behind
    their range tests, as [&&] evaluates them. *)
Definition nextEvent (h : Heap) (sl : ScanLine) : option Event :=
  match sorted_indices_of h sl, h !! graph_ sl with
  | Some sorted, Some g =>
      match at_ sorted (current_index_ sl) with
      | Some current =>
          match at_ (prev_edge_ g) (index current), at_ (next_edge_ g) (index current) with
          | Some prev_edge, Some next_edge =>
              let prev_index := resolveAlias sl prev_edge in
              let next_index := resolveAlias sl next_edge in
              match at_ (points_ g) prev_index, at_ (points_ g) next_index with
              | Some prev, Some next =>
                  let degeneracy :=
                    below_size (current_index_ sl + 1) (length sorted) &&
                    match at_ sorted (current_index_ sl + 1) with
                    | Some after => Point_eqb (point after) (point current)
                    | None => false
                    end in
                  let degeneracy :=
                    degeneracy ||
                    ((current_index_ sl - 1 >=? 0) &&
                     match at_ sorted (current_index_ sl - 1) with
                     | Some before => Point_eqb (point before) (point current)
                     | None => false
                     end) in
                  Some (mkEvent (type current) (index current) (point current)
                          prev_index prev next_index next degeneracy)
              | _, _ => None
              end
          | _, _ => None
          end
      | None => None
      end
  | _, _ => None
  end.
End ScanLineCalls.

(* ================================================================== *)
(** * Copies, length and a caller ([path.h], [examples/Paths])          *)
(* ================================================================== *)

Section MorePath.
Context {space : Space}.
Local Existing Instance binary32.

(** [scaled], [translated], [rotated], [transformed] and [reversed]:
    the call is made on a copy of the path, which is returned. *)
Definition scaled (mult : float) (this : Path) (h : Heap) : option Env :=
  match Path_copy this h with
  | Some result => Some (on_self (scale mult) result)
  | None => None
  end.

Definition translated (offset : Point) (this : Path) (h : Heap) : option Env :=
  match Path_copy this h with
  | Some result => Some (on_self (translate offset) result)
  | None => None
  end.

Definition rotated (angle : float) (this : Path) (h : Heap) : option Env :=
  match Path_copy this h with
  | Some result => Some (on_self (rotate angle) result)
  | None => None
  end.

Definition transformed (t : Transform) (this : Path) (h : Heap) : option Env :=
  match Path_copy this h with
  | Some result => Some (on_self (transform t) result)
  | None => None
  end.

Definition reversed (this : Path) (h : Heap) : option Env :=
  match Path_copy this h with
  | Some reversed_path => Some (on_self reverse reversed_path)
  | None => None
  end.

(** The five copy-returning calls. *)
Inductive CopyOp :=
| Scaled (mult : float)
| Translated (offset : Point)
| Rotated (angle : float)
| Transformed (t : Transform)
| Reversed.

Definition in_place (op : CopyOp) : Path -> Path :=
  match op with
  | Scaled mult => scale mult
  | Translated offset => translate offset
  | Rotated angle => rotate angle
  | Transformed t => transform t
  | Reversed => reverse
  end.

Definition run_copy (op : CopyOp) (this : Path) (h : Heap) : option Env :=
  match op with
  | Scaled mult => scaled mult this h
  | Translated offset => translated offset this h
  | Rotated angle => rotated angle this h
  | Transformed t => transformed t this h
  | Reversed => reversed this h
  end.

Section Length.
(** [Point::length] of [space.h], which is not part of the sources at
    hand. *)
Variable Point_length : Point -> float.

(** The inner loop of [Path::length], from [i = 1] on: [prev] is
    [points[i - 1]]. *)
Fixpoint add_segments (prev : Point) (rest : list Point) (total_length : float) : float :=
  match rest with
  | [] => total_length
  | point :: rest' =>
      add_segments point rest' (fadd total_length (Point_length (Point_sub point prev)))
  end.

(** [Path::length]. *)
Definition Path_length (p : Path) : float :=
  fold_left
    (fun total_length path =>
       let total_length :=
         match points path with
         | [] => total_length
         | first :: rest => add_segments first rest total_length
         end in
       if closed path && (2 <? length (points path))%nat then
         match front (points path), back (points path) with
         | Some first, Some last => fadd total_length (Point_length (Point_sub first last))
         | _, _ => total_length
         end
       else total_length)
    (paths_ p) zero.
End Length.

(** [kPi = 3.14159265f], [0.4f] and [2.0f]. *)
Definition f32_pi : float := S754_finite false 13176795 (-22).
Definition f32_0_4 : float := S754_finite false 13421773 (-25).
Definition f32_two : float := S754_finite false 8388608 (-22).

(** [starPath] of [examples/Paths/paths.cpp]: the vertex of the star
    that the loop computes for the counter [i].  The source writes the
    product as [r * Point(...)]; IEEE multiplication is commutative. *)
Definition star_vertex (center_x center_y radius : float) (i : Z) : Point :=
  let num_points := 10 in
  let angle := fmul (fmul (fdiv (of_Z i) (of_Z num_points)) f32_two) f32_pi in
  let r := if negb (i mod 2 =? 0) then radius else fmul radius f32_0_4 in
  Point_add (mkPoint center_x center_y) (Point_scale (mkPoint (sinf angle) (cosf angle)) r).

(** The body of the loop: [moveTo] for the first vertex, [lineTo] for
    the others. *)
Definition star_step (center_x center_y radius : float) (path : Env) (i : Z) : Env :=
  let point := star_vertex center_x center_y radius i in
  if i =? 0 then on_self (moveTo point false) path else lineTo point false path.

(** [starPath]: the path is default-constructed, the loop runs for
    [i = 0 .. 9], and the path is closed. *)
Definition starPath (center_x center_y radius : float) (h : Heap) : Env :=
  close
    (fold_left (star_step center_x center_y radius) (map Z.of_nat (seq 0 10))
       (mkEnv Path_new h)).
End MorePath.

(* ================================================================== *)
(** * The leak checker ([visage_utils/defines.h], lines 79-109)         *)
(* ================================================================== *)

(** [InstanceCounter<T>] and [LeakChecker<T>] exist in a debug build
    only.  The world of one type [T]: the [count_] of its counter and
    the [LeakChecker<T>] objects that are alive, by address. *)
Module LeakChecker.
Record World := mkWorld {
  count_ : Z;
  alive : gset positive
}.

(** The counter before any object is made: [int count_ = 0]. *)
Definition start : World := mkWorld 0 ∅.

(** [InstanceCounter::add] and [InstanceCounter::remove]. *)
Definition add (w : World) : World := mkWorld (count_ w + 1) (alive w).
Definition remove (w : World) : World := mkWorld (count_ w - 1) (alive w).

(** What a program does to the [LeakChecker<T>] objects: the default
    constructor and the copy constructor make the object at [this], the
    destructor ends it. *)
Inductive Event :=
| Construct (this : positive)
| CopyConstruct (this other : positive)
| Destroy (this : positive).

(** One event.  [None] stands for what C++ rules out or leaves
    undefined: an object made where one is alive, a copy of an object
    that is not alive, and the destruction of an object that is not
    alive. *)
Definition step (w : World) (ev : Event) : option World :=
  match ev with
  | Construct this =>
      if decide (this ∈ alive w) then None
      else Some (mkWorld (count_ (add w)) ({[this]} ∪ alive w))
  | CopyConstruct this other =>
      if decide (this ∈ alive w) then None
      else if decide (other ∈ alive w)
      then Some (mkWorld (count_ (add w)) ({[this]} ∪ alive w))
      else None
  | Destroy this =>
      if decide (this ∈ alive w)
      then Some (mkWorld (count_ (remove w)) (alive w ∖ {[this]}))
      else None
  end.

Fixpoint run (w : World) (evs : list Event) : option World :=
  match evs with
  | [] => Some w
  | ev :: evs' =>
      match step w ev with
      | Some w' => run w' evs'
      | None => None
      end
  end.

(** [~InstanceCounter()], at the end of the program. *)
Definition exit (w : World) : Outcome unit :=
  VISAGE_ASSERT Debug (count_ w =? 0) (Returned tt).
End LeakChecker.

(* ================================================================== *)
(** * More vocabulary                                                   *)
(* ================================================================== *)

(** Not a number. *)
Definition is_nan (a : spec_float) : bool :=
  match a with
  | S754_nan => true
  | _ => false
  end.

(** A zero of either sign, or NaN. *)
Definition zero_or_nan (a : spec_float) : Prop :=
  (exists sgn, a = S754_zero sgn) \/ a = S754_nan.

Section MoreVocabulary.
Context {space : Space}.
Local Existing Instance binary32.

(** The test of [addPoint] on the current sub-path: the point compares
    equal to the last one. *)
Definition repeats (point : Point) (cur : SubPath) : bool :=
  match back (points cur) with
  | Some b => Point_eqb point b
  | None => false
  end.

(** All points of a path, sub-path after sub-path. *)
Definition all_points (p : Path) : list Point := concat (map points (paths_ p)).

(** No point of the list compares equal to the one before it. *)
Fixpoint distinct_neighbours (l : list Point) : bool :=
  match l with
  | a :: (b :: _) as rest => negb (Point_eqb b a) && distinct_neighbours rest
  | _ => true
  end.

(** No sub-path has a segment between two points that compare equal. *)
Definition no_empty_segment (p : Path) : Prop :=
  Forall (fun sp => distinct_neighbours (points sp) = true) (paths_ p).

(** The drawing calls: [moveTo], the line calls and the curve calls. *)
Definition drawing (op : EditOp) : bool :=
  match op with
  | MoveTo _ _ | LineTo _ _ | VerticalTo _ _ | HorizontalTo _ _
  | QuadraticTo _ _ _ | SmoothQuadraticTo _ _ | BezierTo _ _ _ _ | SmoothBezierTo _ _ _ => true
  | _ => false
  end.

(** The point a line or curve call is to reach: the end point of the
    call, taken from [last_point_] when the call is relative. *)
Definition target (op : EditOp) (p : Path) : option Point :=
  let from := last_point_ p in
  match op with
  | LineTo point relative => Some (if relative then Point_add point from else point)
  | VerticalTo y relative => Some (mkPoint (px from) (if relative then fadd y (py from) else y))
  | HorizontalTo x relative => Some (mkPoint (if relative then fadd x (px from) else x) (py from))
  | QuadraticTo _ end_ relative | SmoothQuadraticTo end_ relative
  | BezierTo _ _ end_ relative | SmoothBezierTo _ end_ relative =>
      Some (if relative then Point_add end_ from else end_)
  | _ => None
  end.



(** The points [close()] leaves in a sub-path that runs from [first] to
    [last]. *)
Definition closed_points (first last : Point) (pts : list Point) : list Point :=
  if snaps first last then set_back first pts
  else if Point_neb first last then pts ++ [first]
  else pts.
End MoreVocabulary.

(** [found] is the position of the first area from [it] on that passes
    the test, and no area from [it] on passes it. *)
Definition first_match (test : ScanLineArea -> bool) (areas : list ScanLineArea)
    (it found : nat) : Prop :=
  (it <= found < length areas)%nat /\
  (exists area, areas !! found = Some area /\ test area = true) /\
  (forall j area, (it <= j < found)%nat -> areas !! j = Some area -> test area = false).

Definition no_match (test : ScanLineArea -> bool) (areas : list ScanLineArea) (it : nat)
  : Prop :=
  forall j area, (it <= j)%nat -> areas !! j = Some area -> test area = false.

(** What a search for an area returns: the first match, or, when there
    is none, [areas_.end()] in a release build and nothing in a debug
    build, where the assertion ends the program. *)
Definition search_result (build : Build) (test : ScanLineArea -> bool)
    (areas : list ScanLineArea) (it : nat) (result : Outcome nat) : Prop :=
  match result with
  | Returned found =>
      first_match test areas it found \/
      (build = Release /\ found = length areas /\ no_match test areas it)
  | Terminated => build = Debug /\ no_match test areas it
  end.

Section Ownership.
Context {space : Space}.

(** The graph handle of the path is null or manages a live graph. *)
Definition owns_live_graph (e : Env) : Prop :=
  forall a, triangulation_graph_ (self e) = Some a -> is_Some (heap e !! a).
End Ownership.

(** No alias is itself aliased: [resolveAlias] resolves in one step. *)
Definition flat_aliases (aliases : gmap Z Z) : Prop :=
  forall alias original, aliases !! alias = Some original -> aliases !! original = None.

(* ================================================================== *)
(** * More concrete data                                                *)
(* ================================================================== *)

Module Samples.
Local Existing Instance binary32.

(** The comparison of two points by y and then by x. *)
Definition lt_lex (a b : DPoint) : bool :=
  flt (py a) (py b) || (feq (py a) (py b) && flt (px a) (px b)).

(** The length of a vector as the square root of its squared
    magnitude. *)
Definition sqrt_length (p : Point) : float := SFsqrt prec emax (squareMagnitude p).

Definition dpt (x y : Z) : DPoint := Plain.to_DPoint (Plain.pt x y).

(** A scan line with two pending intersections and three active
    areas. *)
Definition two_events : list IntersectionEvent :=
  [mkIntersectionEvent (dpt 3 2) 0 1 4 5; mkIntersectionEvent (dpt 1 1) 2 3 6 7].

Definition three_areas : list ScanLineArea :=
  [mkScanLineArea 0 (dpt 0 0) 1 (dpt 4 0) true 0;
   mkScanLineArea 1 (dpt 4 0) 2 (dpt 0 3) true 0;
   mkScanLineArea 2 (dpt 0 3) 0 (dpt 0 0) false 0].

Definition scan_line : ScanLine :=
  mkScanLine 1%positive (Some 1%positive) 0 (-1) three_areas []
    (mkAreaIterator 1%positive 0) (mkAreaIterator 1%positive 0)
    (<[5 := 2]> ∅) [] [] [] [] two_events 0.

(** The graph of the triangle after vertex 0 was taken out of its
    cycle: it is its own successor, and the sorted entries are the
    vertices in sweep order. *)
Definition removed_first : @TriangulationGraph Plain.space :=
  @mkGraph Plain.space Plain.Affine_identity false
    [dpt 0 0; dpt 4 0; dpt 0 3]
    [mkIndexData 0 (dpt 0 0) PT_Begin; mkIndexData 1 (dpt 4 0) PT_Continue;
     mkIndexData 2 (dpt 0 3) PT_End]
    [0; 2; 1] [0; 2; 1] scan_line.

Definition store : gmap addr (@TriangulationGraph Plain.space) :=
  <[1%positive := removed_first]> ∅.

(** Two [LeakChecker] objects: one made, one copied from it, and both
    destroyed. *)
Definition lifetimes : list LeakChecker.Event :=
  [LeakChecker.Construct 1; LeakChecker.CopyConstruct 2 1;
   LeakChecker.Destroy 1; LeakChecker.Destroy 2].

(** The scan line at the second sorted entry of [removed_first], with a
    sorted list in which the last two entries are at the same point. *)
Definition twin_entries : @TriangulationGraph Plain.space :=
  @mkGraph Plain.space Plain.Affine_identity false
    [dpt 0 0; dpt 4 0; dpt 4 0]
    [mkIndexData 0 (dpt 0 0) PT_Begin; mkIndexData 1 (dpt 4 0) PT_Continue;
     mkIndexData 2 (dpt 4 0) PT_End]
    [2; 0; 1] [1; 2; 0] scan_line.

Definition twin_store : gmap addr (@TriangulationGraph Plain.space) :=
  <[1%positive := twin_entries]> ∅.

(** The triangle with a closed outline: its ends coincide. *)
Definition closed_triangle : SubPath :=
  mkSubPath [Plain.pt 0 0; Plain.pt 4 0; Plain.pt 0 3; Plain.pt 0 0]
    [zero; zero; zero; zero] true.

Definition closed_triangle_path : @Path Plain.space :=
  @mkPath Plain.space Plain.Matrix2_identity [closed_triangle] None EvenOdd Point_origin
    (Plain.pt 0 0) zero f32_0_1.

(** A path of two sub-paths with one point each. *)
Definition dots_path : @Path Plain.space :=
  @mkPath Plain.space Plain.Matrix2_identity
    [mkSubPath [Plain.pt 1 1] [zero] false; mkSubPath [Plain.pt 2 5] [zero] true] None EvenOdd
    Point_origin (Plain.pt 2 5) zero f32_0_1.
End Samples.


(* ================================================================== *)
(** * Facts about IEEE comparison and subtraction                       *)
(* ================================================================== *)

(** The literals are the correctly rounded quotients they stand for. *)
Example literals_binary32 :
  f32_0_5 = @fdiv binary32 (@of_Z binary32 1) (@of_Z binary32 2) /\
  f32_2_3 = @fdiv binary32 (@of_Z binary32 2) (@of_Z binary32 3) /\
  f32_1em6 = @fdiv binary32 (@of_Z binary32 1) (@of_Z binary32 1000000) /\
  f32_0_1 = @fdiv binary32 (@of_Z binary32 1) (@of_Z binary32 10) /\
  f32_one = @of_Z binary32 1 /\
  FLT_MAX = @fmax_value binary32.
Proof. vm_compute. repeat split. Qed.

Example literals_binary64 :
  f64_1em10 = @fdiv binary64 (@of_Z binary64 1) (@of_Z binary64 10000000000) /\
  d_one = @of_Z binary64 1 /\
  d_minus_one = @of_Z binary64 (-1) /\
  d_one_plus = @fadd binary64 d_one (@fdiv binary64 d_one (@of_Z binary64 1099511627776)).
Proof. vm_compute. repeat split. Qed.

Lemma SFcompare_antisym (a b : spec_float) (c : comparison) :
  SFcompare a b = Some c -> SFcompare b a = Some (CompOpp c).
Proof.
  destruct a as [sa|sa| |sa ma ea], b as [sb|sb| |sb mb eb]; simpl;
    try discriminate;
    try (destruct sa; intros [= <-]; reflexivity);
    try (destruct sb; intros [= <-]; reflexivity);
    try (destruct sa, sb; intros [= <-]; reflexivity).
  assert (Hm : Pos.compare_cont Eq mb ma = CompOpp (Pos.compare_cont Eq ma mb))
    by (now rewrite (Pos.compare_cont_antisym ma mb Eq)).
  destruct sa, sb; intros [= <-]; try reflexivity;
    rewrite (Z.compare_antisym ea eb), Hm; destruct (ea ?= eb); simpl; try reflexivity;
    now destruct (Pos.compare_cont Eq ma mb).
Qed.

Lemma flt_not_fge (a b : spec_float) : flt a b = true -> fge a b = false.
Proof.
  unfold flt, fge, SFltb, SFleb.
  destruct (SFcompare a b) as [[]|] eqn:E; try discriminate.
  intros _. now rewrite (SFcompare_antisym _ _ _ E).
Qed.

Lemma fle_not_fgt (a b : spec_float) : fle a b = true -> fgt a b = false.
Proof.
  unfold fle, fgt, SFltb, SFleb.
  destruct (SFcompare a b) as [[]|] eqn:E; try discriminate;
    intros _; now rewrite (SFcompare_antisym _ _ _ E).
Qed.

(** IEEE multiplication is commutative: [k * p] and [p * k] are the same
    point, whichever way [space.h] writes the product. *)
Lemma fmul_comm {fmt : Ieee} (a b : spec_float) : fmul a b = fmul b a.
Proof.
  unfold fmul.
  destruct a as [sa|sa| |sa ma ea], b as [sb|sb| |sb mb eb]; simpl;
    rewrite ?(xorb_comm sa sb); try reflexivity.
  now rewrite (Pos.mul_comm ma mb), (Z.add_comm ea eb).
Qed.

(** Two finite values that compare equal are the same value or two
    zeros. *)
Lemma feq_finite (a b : spec_float) :
  is_finite a = true -> is_finite b = true -> feq a b = true ->
  a = b \/ exists sa sb, a = S754_zero sa /\ b = S754_zero sb.
Proof.
  unfold feq, SFeqb.
  destruct a as [sa|sa| |sa ma ea], b as [sb|sb| |sb mb eb]; simpl; try discriminate;
    intros _ _.
  - right; eauto.
  - destruct sb; discriminate.
  - destruct sa; discriminate.
  - destruct sa, sb; try discriminate;
      destruct (ea ?= eb) eqn:He; try discriminate;
      apply Z.compare_eq in He; subst;
      destruct (Pos.compare_cont Eq ma mb) eqn:Hm; try discriminate;
      apply Pos.compare_eq in Hm; subst; intros _; now left.
Qed.

Lemma feq_refl_finite (a : spec_float) : is_finite a = true -> feq a a = true.
Proof.
  unfold feq, SFeqb. destruct a as [s|s| |s m e]; simpl; try discriminate; intros _; auto.
  destruct s; rewrite Z.compare_refl, Pos.compare_cont_refl; reflexivity.
Qed.

(** The difference of two finite values that compare equal is a zero. *)
Lemma fsub_equal_finite {fmt : Ieee} (a b : spec_float) :
  is_finite a = true -> is_finite b = true -> feq a b = true ->
  exists s, fsub a b = S754_zero s.
Proof.
  intros Ha Hb E. destruct (feq_finite a b Ha Hb E) as [->|(sa & sb & -> & ->)].
  - destruct b as [s|s| |s m e]; try discriminate; unfold fsub; simpl.
    + destruct s; eauto.
    + rewrite Z.min_id. unfold shl_align. rewrite Z.sub_diag. simpl.
      try rewrite Z.sub_diag. simpl. eauto.
  - unfold fsub; simpl. destruct sa, sb; eauto.
Qed.

(** The squared magnitude of a difference of zeros is the positive zero,
    which is below every positive bound. *)
Lemma squareMagnitude_zeros {fmt : Ieee} (sx sy : bool) :
  squareMagnitude (@mkPoint fmt (S754_zero sx) (S754_zero sy)) = zero.
Proof. unfold squareMagnitude, fadd, fmul; simpl. now destruct sx, sy. Qed.

Lemma Point_eqb_finite_sub {fmt : Ieee} (a b : BasePoint fmt) :
  Point_finite a = true -> Point_finite b = true -> Point_eqb a b = true ->
  squareMagnitude (Point_sub a b) = zero.
Proof.
  unfold Point_finite, Point_eqb.
  intros [Hax Hay]%andb_prop [Hbx Hby]%andb_prop [Ex Ey]%andb_prop.
  destruct (fsub_equal_finite _ _ Hax Hbx Ex) as [sx Hx].
  destruct (fsub_equal_finite _ _ Hay Hby Ey) as [sy Hy].
  unfold Point_sub. rewrite Hx, Hy. apply squareMagnitude_zeros.
Qed.

Lemma Point_eqb_refl_finite {fmt : Ieee} (a : BasePoint fmt) :
  Point_finite a = true -> Point_eqb a a = true.
Proof.
  unfold Point_finite, Point_eqb. intros [Hx Hy]%andb_prop.
  now rewrite !feq_refl_finite.
Qed.

(* ================================================================== *)
(** * The orientation predicate                                         *)
(* ================================================================== *)

Section OrientationFacts.

(** The rule of the template, for every format [T] and every value of
    [kEpsilon]. *)
Lemma orientation_T_compare {fmt : Ieee} (kEpsilon : spec_float)
    (source target1 target2 : BasePoint fmt) :
  let l := cross_l source target1 target2 in
  let r := cross_r source target1 target2 in
  let diff := fsub l r in
  let bound := fmul kEpsilon (fabs (fadd l r)) in
  orientation_T kEpsilon source target1 target2 =
    match SFcompare (fabs diff) bound with
    | Some Lt => zero
    | Some _ => diff
    | None => zero
    end.
Proof.
  intros l r diff bound.
  change (orientation_T kEpsilon source target1 target2)
    with (if fge (fabs diff) bound then diff else zero).
  unfold fge, SFleb.
  destruct (SFcompare (fabs diff) bound) as [c|] eqn:E.
  - rewrite (SFcompare_antisym _ _ _ E). now destruct c.
  - destruct (SFcompare bound (fabs diff)) as [c|] eqn:E'; [|reflexivity].
    apply SFcompare_antisym in E'. congruence.
Qed.

Local Existing Instance binary64.

(** C3, as stated, fails: on the three points [cx_source], [cx_target1]
    and [cx_target2] both cross-product terms are negative, so epsilon
    times their sum is negative and the magnitude of the difference
    (2^-40) is not smaller than it; the rule as specified returns the
    difference, the code returns 0. *)
Lemma orientation_sum_counterexample :
  orientation cx_source cx_target1 cx_target2 = zero /\
  orientation_as_specified f64_1em10 cx_source cx_target1 cx_target2
    = S754_finite false 4503599627370496 (-92) /\
  orientation cx_source cx_target1 cx_target2
    <> orientation_as_specified f64_1em10 cx_source cx_target1 cx_target2.
Proof. vm_compute. repeat split; discriminate. Qed.

(** C3, amended: [orientation] compares the magnitude of the difference
    [l - r] with 1e-10 times the absolute value of the sum [l + r]; it
    returns 0 when the magnitude is smaller (or the comparison is
    unordered) and the difference otherwise. *)
Theorem orientation_snaps_below_relative_epsilon (source target1 target2 : DPoint) :
  let l := cross_l source target1 target2 in
  let r := cross_r source target1 target2 in
  let diff := fsub l r in
  let bound := fmul f64_1em10 (fabs (fadd l r)) in
  orientation source target1 target2 =
    match SFcompare (fabs diff) bound with
    | Some Lt => zero
    | Some _ => diff
    | None => zero
    end.
Proof. exact (orientation_T_compare f64_1em10 source target1 target2). Qed.

(** The two sides of the rule: below the bound the result is 0, at or
    above it the result is the difference. *)
Corollary orientation_cases (source target1 target2 : DPoint) :
  let l := cross_l source target1 target2 in
  let r := cross_r source target1 target2 in
  let diff := fsub l r in
  let bound := fmul f64_1em10 (fabs (fadd l r)) in
  (flt (fabs diff) bound = true -> orientation source target1 target2 = zero) /\
  (fge (fabs diff) bound = true -> orientation source target1 target2 = diff).
Proof.
  intros l r diff bound.
  change (orientation source target1 target2)
    with (if fge (fabs diff) bound then diff else zero).
  split.
  - intros H. now rewrite (flt_not_fge _ _ H).
  - intros H. now rewrite H.
Qed.
End OrientationFacts.

(* ================================================================== *)
(** * The sweep-event order                                             *)
(* ================================================================== *)

Section IndexOrderFacts.
Context {space : Space}.

(** C4: of two index entries at the same point, the one of type [End]
    is strictly before the one of type [Begin] in
    [IndexData::operator<].  The comparison of [space.h] is assumed to
    report a point equal to itself. *)
Theorem IndexData_End_before_Begin (a b : IndexData) :
  point a = point b ->
  truthy (DPoint_compare (point a) (point a)) = false ->
  type a = PT_End ->
  type b = PT_Begin ->
  IndexData_lt a b = true /\ IndexData_lt b a = false.
Proof.
  intros Hp Hc Ha Hb. unfold IndexData_lt.
  rewrite <- Hp, Ha, Hb, Hc. simpl. split; reflexivity.
Qed.
End IndexOrderFacts.

Lemma IndexData_End_before_Begin_witness :
  @IndexData_lt Plain.space Plain.event_end Plain.event_begin = true /\
  @IndexData_lt Plain.space Plain.event_begin Plain.event_end = false.
Proof.
  apply (@IndexData_End_before_Begin Plain.space Plain.event_end Plain.event_begin);
    vm_compute; reflexivity.
Defined.

(* ================================================================== *)
(** * Scalar settings and queries of a path                             *)
(* ================================================================== *)

Section SettingFacts.
Context {space : Space}.
Local Existing Instance binary32.

(** C9, amended: for a tolerance [t <= 0], [setErrorTolerance(t)] leaves
    the path as it is in a release build (and the assertion ends the
    program in a debug build, so the tolerance is never changed); for
    [t > 0] it returns in both builds and [errorTolerance()] is [t]
    afterwards, the rest of the path being as before. *)
Theorem setErrorTolerance_spec (build : Build) (t : float) (p : Path) :
  (fle t zero = true ->
     setErrorTolerance build t p =
       match build with Release => Returned p | Debug => Terminated end) /\
  (fgt t zero = true ->
     setErrorTolerance build t p = Returned (with_tolerance t p) /\
     errorTolerance (with_tolerance t p) = t).
Proof.
  unfold setErrorTolerance, VISAGE_ASSERT. split.
  - intros H%fle_not_fgt. rewrite H. now destruct build.
  - intros H. rewrite H. now destruct build.
Qed.

(** What the two loops of [boundingBox] leave of their start values on a
    path without points. *)
Lemma fold_no_points {A} (step : A -> Point -> A) (ps : list SubPath) (acc : A) :
  Forall (fun sp => points sp = []) ps ->
  fold_left (fun acc path => fold_left step (points path) acc) ps acc = acc.
Proof.
  intros H. revert acc. induction H as [|sp ps Hsp _ IH]; intros acc; simpl.
  - reflexivity.
  - rewrite Hsp. simpl. apply IH.
Qed.

(** C10: the bounding box of a path without points is (0, 0, 0, 0). *)
Theorem boundingBox_no_points (p : Path) :
  Forall (fun sp => points sp = []) (paths_ p) ->
  boundingBox p = mkBounds zero zero zero zero.
Proof.
  intros H. unfold boundingBox. rewrite fold_no_points by assumption. reflexivity.
Qed.
End SettingFacts.

(** C9, as stated, fails in a debug build: [VISAGE_ASSERT(tolerance >
    0.0f)] fails for the tolerance 0 and the call does not return. *)
Lemma setErrorTolerance_debug_counterexample :
  fle zero zero = true /\
  @setErrorTolerance Plain.space Debug zero Plain.triangle_path = Terminated /\
  @setErrorTolerance Plain.space Debug zero Plain.triangle_path
    <> Returned Plain.triangle_path.
Proof. repeat split. discriminate. Qed.

Lemma setErrorTolerance_spec_witness :
  @setErrorTolerance Plain.space Release zero Plain.triangle_path
    = Returned Plain.triangle_path /\
  @errorTolerance Plain.space (with_tolerance f32_0_5 Plain.triangle_path) = f32_0_5.
Proof.
  split.
  - apply (@setErrorTolerance_spec Plain.space Release zero Plain.triangle_path).
    reflexivity.
  - apply (@setErrorTolerance_spec Plain.space Debug f32_0_5 Plain.triangle_path).
    reflexivity.
Defined.

Lemma boundingBox_no_points_witness :
  @boundingBox Plain.space Plain.pointless_path = mkBounds zero zero zero zero.
Proof.
  apply (@boundingBox_no_points Plain.space Plain.pointless_path).
  repeat constructor.
Defined.

(* ================================================================== *)
(** * Vectors seen from their back                                      *)
(* ================================================================== *)

Lemma snoc_cases {A} (l : list A) : l = [] \/ exists init x, l = init ++ [x].
Proof.
  induction l as [|y l _] using rev_ind; [now left | right; eauto].
Qed.

Lemma back_nil {A} : back (@nil A) = None.
Proof. reflexivity. Qed.

Lemma back_snoc {A} (l : list A) (x : A) : back (l ++ [x]) = Some x.
Proof. unfold back. apply last_snoc. Qed.

Lemma back_Some {A} (l : list A) (x : A) :
  back l = Some x -> exists init, l = init ++ [x].
Proof.
  destruct (snoc_cases l) as [->|(init & y & ->)]; [discriminate|].
  rewrite back_snoc. intros [= ->]. eauto.
Qed.

Lemma back_None {A} (l : list A) : back l = None -> l = [].
Proof.
  destruct (snoc_cases l) as [->|(init & y & ->)]; [reflexivity|].
  now rewrite back_snoc.
Qed.

Lemma set_back_snoc {A} (l : list A) (x y : A) : set_back x (l ++ [y]) = l ++ [x].
Proof.
  induction l as [|z l IH]; [reflexivity|].
  simpl. rewrite IH. destruct l; reflexivity.
Qed.

Lemma alter_back_snoc {A} (f : A -> A) (l : list A) (y : A) :
  alter_back f (l ++ [y]) = l ++ [f y].
Proof. unfold alter_back. now rewrite back_snoc, set_back_snoc. Qed.

Lemma alter_back_nil {A} (f : A -> A) : alter_back f [] = [].
Proof. reflexivity. Qed.

Lemma length_set_back {A} (l : list A) (x : A) : length (set_back x l) = length l.
Proof.
  destruct (snoc_cases l) as [->|(init & y & ->)]; [reflexivity|].
  now rewrite set_back_snoc, !length_app.
Qed.

Lemma front_snoc {A} (l : list A) (x y : A) :
  front l = Some x -> front (l ++ [y]) = Some x.
Proof. destruct l; [discriminate | trivial]. Qed.

Lemma front_set_back {A} (l : list A) (x : A) :
  front l = Some x -> front (set_back x l) = Some x.
Proof.
  destruct l as [|y [|z l]]; simpl; try discriminate; trivial.
Qed.

Lemma back_set_back {A} (l : list A) (x : A) :
  l <> [] -> back (set_back x l) = Some x.
Proof.
  destruct (snoc_cases l) as [->|(init & y & ->)]; [congruence|].
  intros _. now rewrite set_back_snoc, back_snoc.
Qed.

Lemma is_empty_true {A} (l : list A) : is_empty l = true <-> l = [].
Proof. destruct l; simpl; split; congruence. Qed.

Lemma back_not_empty {A} (l : list A) (x : A) : back l = Some x -> is_empty l = false.
Proof. destruct l; [discriminate | reflexivity]. Qed.

(* ================================================================== *)
(** * [currentPath] and [addPoint]                                      *)
(* ================================================================== *)

Section AddPointFacts.
Context {space : Space}.
Local Existing Instance binary32.

Lemma on_self_id (e : Env) : on_self (fun p => p) e = e.
Proof. now destruct e. Qed.

(** [currentPath()] leaves an open last sub-path alone and appends a new
    sub-path otherwise. *)
Lemma currentPath_open (p : Path) (init : list SubPath) (b : SubPath) :
  paths_ p = init ++ [b] -> closed b = false -> currentPath p = p.
Proof.
  intros Hp Hb. unfold currentPath. rewrite Hp, back_snoc, Hb. reflexivity.
Qed.

Lemma currentPath_closed (p : Path) (init : list SubPath) (b : SubPath) :
  paths_ p = init ++ [b] -> closed b = true ->
  currentPath p = with_paths (paths_ p ++ [SubPath_new]) p.
Proof.
  intros Hp Hb. unfold currentPath. rewrite Hp, back_snoc, Hb. reflexivity.
Qed.

Lemma currentPath_none (p : Path) :
  paths_ p = [] -> currentPath p = with_paths [SubPath_new] p.
Proof. intros Hp. unfold currentPath. rewrite Hp. reflexivity. Qed.

(** After [currentPath()] the last sub-path exists and is open. *)
Lemma currentPath_back (p : Path) :
  exists init cur,
    paths_ (currentPath p) = init ++ [cur] /\ closed cur = false /\
    (paths_ p = init ++ [cur] /\ currentPath p = p \/
     paths_ (currentPath p) = paths_ p ++ [SubPath_new] /\ cur = SubPath_new /\
     init = paths_ p).
Proof.
  destruct (snoc_cases (paths_ p)) as [Hp|(init & b & Hp)].
  - exists [], SubPath_new. rewrite (currentPath_none p Hp). simpl.
    rewrite Hp. naive_solver.
  - destruct (closed b) eqn:Hb.
    + exists (paths_ p), SubPath_new. rewrite (currentPath_closed p init b Hp Hb).
      simpl. naive_solver.
    + exists init, b. rewrite (currentPath_open p init b Hp Hb). naive_solver.
Qed.

Lemma currentPath_fields (p : Path) :
  currentPath p = with_paths (paths_ (currentPath p)) p.
Proof.
  unfold currentPath. destruct p as [m ps g r sc lp cv tol]; cbn.
  destruct (back ps) as [b|]; [destruct (closed b)|]; reflexivity.
Qed.

Lemma currentPath_idem (p : Path) : currentPath (currentPath p) = currentPath p.
Proof.
  destruct (currentPath_back p) as (init & cur & Hp & Hc & _).
  exact (currentPath_open _ _ _ Hp Hc).
Qed.

Lemma addPoint_unfold (point : Point) (e : Env) :
  addPoint point e =
    if duplicate point (self e) then on_self currentPath e else appended point e.
Proof.
  destruct e as [p h].
  unfold addPoint, duplicate, appended, on_self, reset_graph, on_currentPath.
  cbn [self heap].
  pose proof (currentPath_fields p) as Hf.
  destruct (currentPath_back p) as (init & cur & Hp & Hc & _).
  set (q := currentPath p) in *. clearbody q.
  rewrite Hp in Hf. subst q. cbn [paths_ with_paths].
  rewrite back_snoc.
  destruct (match back (points cur) with Some b => Point_eqb point b | None => false end);
    [reflexivity|].
  destruct p as [m ps g r sc lp cv tol].
  unfold clone_ptr_reset, currentPath; cbn.
  destruct g; cbn.
  all: rewrite back_snoc, Hc; cbn; rewrite alter_back_snoc, back_snoc; cbn.
  all: rewrite Hc; cbn; rewrite !alter_back_snoc; reflexivity.
Qed.
End AddPointFacts.

(* ================================================================== *)
(** * What an edit call does to the cached graph                        *)
(* ================================================================== *)

Section CacheFacts.
Context {space : Space}.
Local Existing Instance binary32.

Lemma numPoints_count (p : Path) : numPoints p = count_points (paths_ p).
Proof.
  unfold numPoints, count_points.
  enough (H : forall ps n,
             fold_left (fun count path => (count + length (points path))%nat) ps n
             = (n + sum_list_with (fun sp => length (points sp)) ps)%nat)
    by (now rewrite H).
  induction ps as [|sp ps IH]; intros n; simpl; [lia|]. rewrite IH. lia.
Qed.

Lemma count_points_snoc (ps : list SubPath) (sp : SubPath) :
  count_points (ps ++ [sp]) = (count_points ps + length (points sp))%nat.
Proof. unfold count_points. rewrite sum_list_with_app. simpl. lia. Qed.

Lemma kept_refl (e : Env) : kept_or_discarded e e.
Proof. left; auto. Qed.

Lemma kept_trans (e1 e2 e3 : Env) :
  kept_or_discarded e1 e2 -> kept_or_discarded e2 e3 -> kept_or_discarded e1 e3.
Proof.
  intros [(Hh & Hg & Hn)|(Hg & Hh)] [(Hh' & Hg' & Hn')|(Hg' & Hh')].
  - left. repeat split; congruence.
  - right. split; [assumption|]. now rewrite Hh', Hg, Hh.
  - right. split; [congruence|]. congruence.
  - right. split; [assumption|]. rewrite Hh', Hg. simpl. assumption.
Qed.

Lemma kept_on_self (f : Path -> Path) (e : Env) :
  quiet f -> kept_or_discarded e (on_self f e).
Proof. intros H. left. destruct (H (self e)). simpl. auto. Qed.

Lemma quiet_compose (f g : Path -> Path) :
  quiet f -> quiet g -> quiet (fun p => g (f p)).
Proof.
  intros Hf Hg p. destruct (Hf p) as [? ?], (Hg (f p)) as [? ?]. split; congruence.
Qed.

Lemma quiet_same_paths (f : Path -> Path) :
  (forall p, triangulation_graph_ (f p) = triangulation_graph_ p) ->
  (forall p, count_points (paths_ (f p)) = count_points (paths_ p)) ->
  quiet f.
Proof. intros Hg Hp p. split; [apply Hg|]. rewrite !numPoints_count. apply Hp. Qed.

Lemma quiet_currentPath : quiet currentPath.
Proof.
  apply quiet_same_paths; intros p.
  - rewrite currentPath_fields. reflexivity.
  - destruct (currentPath_back p) as (init & cur & Hp & _ & [[H1 H2]|(H1 & -> & ->)]).
    + now rewrite H2.
    + rewrite H1, count_points_snoc. simpl. lia.
Qed.

Lemma quiet_with_smooth (c : Point) : quiet (with_smooth c).
Proof. now apply quiet_same_paths. Qed.

Lemma quiet_with_last_point (c : Point) : quiet (with_last_point c).
Proof. now apply quiet_same_paths. Qed.

Lemma quiet_with_value (v : float) : quiet (with_value v).
Proof. now apply quiet_same_paths. Qed.

Lemma quiet_startNewPath : quiet startNewPath.
Proof.
  apply quiet_same_paths; intros p; unfold startNewPath.
  - destruct (back (paths_ p)) as [b|]; [destruct (negb (is_empty (points b)))|]; reflexivity.
  - destruct (back (paths_ p)) as [b|]; [destruct (negb (is_empty (points b)))|];
      cbn [paths_ with_value with_smooth with_paths];
      rewrite ?count_points_snoc; simpl; lia.
Qed.

Lemma quiet_moveTo (point : Point) (relative : bool) : quiet (moveTo point relative).
Proof.
  intros p. unfold moveTo.
  assert (H : quiet (fun p => match back (paths_ p) with
                              | Some b => if negb (is_empty (points b)) then startNewPath p else p
                              | None => p
                              end)).
  { intros q. destruct (back (paths_ q)) as [b|]; [destruct (negb (is_empty (points b)))|];
      auto using quiet_startNewPath. }
  destruct (H p) as [H1 H2]. split; [exact H1|].
  rewrite <- H2. rewrite !numPoints_count. reflexivity.
Qed.

Lemma count_points_alter_back (f : SubPath -> SubPath) (ps : list SubPath) :
  (forall sp, length (points (f sp)) = length (points sp)) ->
  count_points (alter_back f ps) = count_points ps.
Proof.
  intros Hf. destruct (snoc_cases ps) as [->|(init & b & ->)]; [reflexivity|].
  now rewrite alter_back_snoc, !count_points_snoc, Hf.
Qed.

Lemma quiet_on_currentPath (f : SubPath -> SubPath) :
  (forall sp, length (points (f sp)) = length (points sp)) ->
  quiet (on_currentPath f).
Proof.
  intros Hf. apply quiet_same_paths; intros p; unfold on_currentPath; cbn.
  - rewrite currentPath_fields. reflexivity.
  - rewrite count_points_alter_back by assumption.
    destruct (quiet_currentPath p) as [_ H]. now rewrite !numPoints_count in H.
Qed.

Lemma count_points_map (f : SubPath -> SubPath) (ps : list SubPath) :
  (forall sp, length (points (f sp)) = length (points sp)) ->
  count_points (map f ps) = count_points ps.
Proof.
  intros Hf. unfold count_points. induction ps as [|sp ps IH]; simpl; [reflexivity|].
  now rewrite Hf, IH.
Qed.

Lemma quiet_map_points (f : Point -> Point) : quiet (map_points f).
Proof.
  apply quiet_same_paths; intros p; [reflexivity|]. cbn.
  apply count_points_map. intros sp. cbn. apply length_map.
Qed.

Lemma quiet_reverse : quiet reverse.
Proof.
  apply quiet_same_paths; intros p; [reflexivity|]. cbn.
  apply count_points_map. intros sp. cbn. apply length_rev.
Qed.

(** [addPoint] keeps everything when the point repeats the last one and
    discards the graph when it appends. *)
Lemma kept_addPoint (point : Point) (e : Env) : kept_or_discarded e (addPoint point e).
Proof.
  rewrite addPoint_unfold. destruct (duplicate point (self e)).
  - apply kept_on_self, quiet_currentPath.
  - right. split; reflexivity.
Qed.

Lemma kept_reset_graph (e : Env) : kept_or_discarded e (reset_graph e).
Proof.
  right. unfold reset_graph.
  destruct (clone_ptr_reset (triangulation_graph_ (self e)) (heap e)) as [g h] eqn:E.
  simpl. unfold clone_ptr_reset in E.
  destruct (triangulation_graph_ (self e)); inversion E; subst; auto.
Qed.

Lemma kept_lineTo (point : Point) (relative : bool) (e : Env) :
  kept_or_discarded e (lineTo point relative e).
Proof.
  unfold lineTo.
  eapply kept_trans; [apply (kept_on_self currentPath), quiet_currentPath|].
  eapply kept_trans; [|apply kept_on_self, quiet_with_smooth].
  eapply kept_trans; [|apply kept_addPoint].
  destruct (currentPath_empty (self (on_self currentPath e)));
    [apply kept_addPoint | apply kept_refl].
Qed.

Lemma kept_close (e : Env) : kept_or_discarded e (close e).
Proof.
  unfold close.
  destruct (back (paths_ (self e))) as [b|]; [|apply kept_refl].
  destruct (front (points b)) as [first|]; [|apply kept_refl].
  destruct (back (points b)) as [last|]; [|apply kept_refl].
  eapply kept_trans; [|apply kept_on_self, quiet_on_currentPath; reflexivity].
  destruct (flt _ _); [|destruct (Point_neb first last)].
  - apply kept_on_self. apply quiet_same_paths; intros p; [reflexivity|]. cbn.
    apply count_points_alter_back. intros sp. cbn. apply length_set_back.
  - apply kept_addPoint.
  - apply kept_refl.
Qed.

Lemma kept_recurseBezierTo (fuel : nat) (from control1 control2 to : Point) (e e' : Env) :
  recurseBezierTo fuel from control1 control2 to e = Some e' -> kept_or_discarded e e'.
Proof.
  revert from control1 control2 to e e'.
  induction fuel as [|fuel IH]; intros from control1 control2 to e e'; simpl; [discriminate|].
  destruct (flat_enough (self e) from control1 control2 to).
  - intros [= <-]. apply kept_addPoint.
  - destruct (recurseBezierTo fuel from _ _ _ e) as [e1|] eqn:E1; [|discriminate].
    intros E2. eapply kept_trans; eauto.
Qed.

Lemma kept_curve_start (e : Env) :
  kept_or_discarded e
    (if currentPath_empty (self (on_self currentPath e))
     then addPoint (last_point_ (self (on_self currentPath e))) (on_self currentPath e)
     else on_self currentPath e).
Proof.
  eapply kept_trans; [apply (kept_on_self currentPath), quiet_currentPath|].
  destruct (currentPath_empty _); [apply kept_addPoint | apply kept_refl].
Qed.

Lemma kept_quadraticTo (fuel : nat) (control end_ : Point) (relative : bool) (e e' : Env) :
  quadraticTo fuel control end_ relative e = Some e' -> kept_or_discarded e e'.
Proof.
  unfold quadraticTo. intros H%kept_recurseBezierTo.
  eapply kept_trans; [apply kept_curve_start|].
  eapply kept_trans; [|exact H]. apply kept_on_self, quiet_with_smooth.
Qed.

Lemma kept_bezierTo (fuel : nat) (control1 control2 end_ : Point) (relative : bool)
    (e e' : Env) :
  bezierTo fuel control1 control2 end_ relative e = Some e' -> kept_or_discarded e e'.
Proof.
  unfold bezierTo.
  destruct (recurseBezierTo _ _ _ _ _ _) as [e2|] eqn:E; [|discriminate].
  intros [= <-]. apply kept_recurseBezierTo in E.
  eapply kept_trans; [apply kept_curve_start|].
  eapply kept_trans; [exact E|]. apply kept_on_self, quiet_with_smooth.
Qed.

Lemma kept_clear (e : Env) : kept_or_discarded e (clear e).
Proof.
  right. unfold clear, reset_graph, on_self, clone_ptr_reset. cbn.
  destruct (triangulation_graph_ (self e)); auto.
Qed.

(** Every edit call keeps or discards. *)
Lemma kept_run (fuel : nat) (op : EditOp) (e e' : Env) :
  run fuel op e = Some e' -> kept_or_discarded e e'.
Proof.
  destruct op; simpl; try (intros [= <-]).
  - apply kept_on_self, quiet_moveTo.
  - apply kept_lineTo.
  - eapply kept_trans; [apply kept_lineTo | apply kept_on_self, quiet_with_smooth].
  - eapply kept_trans; [apply kept_lineTo | apply kept_on_self, quiet_with_smooth].
  - apply kept_close.
  - apply kept_quadraticTo.
  - apply kept_quadraticTo.
  - apply kept_bezierTo.
  - apply kept_bezierTo.
  - apply kept_clear.
  - apply kept_on_self, quiet_map_points.
  - apply kept_on_self, quiet_map_points.
  - apply kept_on_self, quiet_map_points.
  - apply kept_on_self, quiet_map_points.
  - apply kept_on_self, quiet_reverse.
  - apply kept_on_self. now apply quiet_same_paths.
  - apply kept_on_self. now apply quiet_same_paths.
  - apply kept_on_self. now apply quiet_same_paths.
Qed.
End CacheFacts.

(* ================================================================== *)
(** * [close]                                                           *)
(* ================================================================== *)

Section CloseFacts.
Context {space : Space}.
Local Existing Instance binary32.

Lemma duplicate_open (point : Point) (p : Path) (init : list SubPath) (sp : SubPath)
    (last : Point) :
  paths_ p = init ++ [sp] -> closed sp = false -> back (points sp) = Some last ->
  duplicate point p = Point_eqb point last.
Proof.
  intros Hp Hc Hl. unfold duplicate.
  now rewrite (currentPath_open p init sp Hp Hc), Hp, back_snoc, Hl.
Qed.

Lemma duplicate_closed (point : Point) (p : Path) (init : list SubPath) (sp : SubPath) :
  paths_ p = init ++ [sp] -> closed sp = true -> duplicate point p = false.
Proof.
  intros Hp Hc. unfold duplicate.
  rewrite (currentPath_closed p init sp Hp Hc). cbn. now rewrite back_snoc.
Qed.

Lemma on_currentPath_open (f : SubPath -> SubPath) (p : Path) (init : list SubPath)
    (b : SubPath) :
  paths_ p = init ++ [b] -> closed b = false ->
  paths_ (on_currentPath f p) = init ++ [f b].
Proof.
  intros Hp Hc. unfold on_currentPath.
  rewrite (currentPath_open p init b Hp Hc). cbn. now rewrite Hp, alter_back_snoc.
Qed.

Lemma on_currentPath_closed (f : SubPath -> SubPath) (p : Path) (init : list SubPath)
    (b : SubPath) :
  paths_ p = init ++ [b] -> closed b = true ->
  paths_ (on_currentPath f p) = init ++ [b; f SubPath_new].
Proof.
  intros Hp Hc. unfold on_currentPath.
  rewrite (currentPath_closed p init b Hp Hc). cbn.
  now rewrite alter_back_snoc, Hp, <- app_assoc.
Qed.

(** The sub-paths after [close()], branch by branch. *)
Lemma close_paths (e : Env) (init : list SubPath) (sp : SubPath) (first last : Point) :
  paths_ (self e) = init ++ [sp] ->
  front (points sp) = Some first ->
  back (points sp) = Some last ->
  paths_ (self (close e)) =
    if snaps first last then
      init ++ [mkSubPath (set_back first (points sp)) (values sp) true]
           ++ (if closed sp then [SubPath_closed_empty] else [])
    else if Point_neb first last then
      if closed sp
      then init ++ [sp; mkSubPath [first] [current_value_ (self e)] true]
      else init ++ [mkSubPath (points sp ++ [first])
                      (values sp ++ [current_value_ (self e)]) true]
    else
      if closed sp then init ++ [sp; SubPath_closed_empty]
      else init ++ [set_closed true sp].
Proof.
  intros Hp Hf Hl. unfold close. rewrite Hp, back_snoc, Hf, Hl.
  fold (snaps first last). destruct e as [p h]. cbn [self] in Hp.
  destruct (snaps first last); [|destruct (Point_neb first last) eqn:Hne].
  - cbn [on_self self heap].
    match goal with |- paths_ (on_currentPath _ ?q) = _ =>
      assert (Hq : paths_ q = init ++ [set_points (set_back first (points sp)) sp])
        by (cbn; now rewrite Hp, alter_back_snoc)
    end.
    destruct (closed sp) eqn:Hc.
    + rewrite (on_currentPath_closed _ _ _ _ Hq Hc).
      unfold set_points. rewrite Hc. reflexivity.
    + rewrite (on_currentPath_open _ _ _ _ Hq Hc). rewrite app_nil_r. reflexivity.
  - rewrite addPoint_unfold. cbn [self].
    destruct (closed sp) eqn:Hc.
    + rewrite (duplicate_closed first p init sp Hp Hc). cbn [on_self self].
      match goal with |- paths_ (on_currentPath _ ?q) = _ =>
        assert (Hq : paths_ q = (init ++ [sp]) ++ [mkSubPath [first] [current_value_ p] false])
          by (unfold appended; cbn [self];
              rewrite (currentPath_closed p init sp Hp Hc); cbn;
              now rewrite alter_back_snoc, Hp)
      end.
      rewrite (on_currentPath_open _ _ _ _ Hq eq_refl), <- app_assoc. reflexivity.
    + rewrite (duplicate_open first p init sp last Hp Hc Hl).
      unfold Point_neb in Hne. apply negb_true_iff in Hne. rewrite Hne.
      cbn [on_self self].
      match goal with |- paths_ (on_currentPath _ ?q) = _ =>
        assert (Hq : paths_ q = init ++ [mkSubPath (points sp ++ [first])
                                           (values sp ++ [current_value_ p]) (closed sp)])
          by (unfold appended; cbn [self];
              rewrite (currentPath_open p init sp Hp Hc); cbn;
              now rewrite Hp, alter_back_snoc)
      end.
      rewrite (on_currentPath_open _ _ _ _ Hq Hc). reflexivity.
  - cbn [on_self self heap].
    destruct (closed sp) eqn:Hc.
    + now rewrite (on_currentPath_closed _ _ _ _ Hp Hc).
    + now rewrite (on_currentPath_open _ _ _ _ Hp Hc).
Qed.

(** For finite points that compare equal the snap test succeeds. *)
Lemma snaps_equal_finite (first last : Point) :
  Point_finite first = true -> Point_finite last = true ->
  Point_eqb first last = true -> snaps first last = true.
Proof.
  intros Hf Hl He. unfold snaps.
  now rewrite (Point_eqb_finite_sub first last Hf Hl He).
Qed.

(** C2: when the last sub-path has points, [close()] leaves it closed
    with its first and last point equal: the last point is overwritten
    with the first when their squared distance is below 1e-6 (the number
    of points stays), and a copy of the first point is appended
    otherwise, in which case the two differ.  With no sub-path, or no
    point in the last one, [close()] changes nothing.  The end points are
    finite, and the sub-path, if closed already, has coinciding ends. *)
Theorem close_joins_ends (e : Env) :
  (forall init sp first last,
     paths_ (self e) = init ++ [sp] ->
     front (points sp) = Some first ->
     back (points sp) = Some last ->
     Point_finite first = true ->
     Point_finite last = true ->
     (closed sp = true -> first = last) ->
     exists sp',
       paths_ (self (close e)) !! length init = Some sp' /\
       closed sp' = true /\
       front (points sp') = Some first /\
       back (points sp') = Some first /\
       (snaps first last = true ->
          points sp' = set_back first (points sp) /\
          length (points sp') = length (points sp) /\
          numPoints (self (close e)) = numPoints (self e)) /\
       (snaps first last = false ->
          Point_neb first last = true /\
          points sp' = points sp ++ [first])) /\
  ((paths_ (self e) = [] \/
    exists init sp, paths_ (self e) = init ++ [sp] /\ points sp = []) ->
   close e = e).
Proof.
  split.
  - intros init sp first last Hp Hf Hl Ff Fl Hinv.
    pose proof (close_paths e init sp first last Hp Hf Hl) as Hc.
    assert (Hne : points sp <> []) by (intros E; rewrite E in Hf; discriminate).
    destruct (snaps first last) eqn:Hs.
    + eexists. split; [|split; [|split; [|split; [|split]]]].
      * rewrite Hc. rewrite lookup_app_r by lia. rewrite Nat.sub_diag. reflexivity.
      * reflexivity.
      * cbn. now apply front_set_back.
      * cbn. now apply back_set_back.
      * intros _. cbn. split; [reflexivity|]. split; [apply length_set_back|].
        rewrite !numPoints_count, Hc, Hp.
        destruct (closed sp); rewrite ?app_nil_r, ?app_assoc, !count_points_snoc;
          cbn [points SubPath_closed_empty length];
          rewrite length_set_back; lia.
      * discriminate.
    + assert (Hneb : Point_neb first last = true).
      { unfold Point_neb. apply negb_true_iff.
        destruct (Point_eqb first last) eqn:He; [|reflexivity].
        rewrite (snaps_equal_finite first last Ff Fl He) in Hs. discriminate. }
      assert (Hopen : closed sp = false).
      { destruct (closed sp); [|reflexivity]. specialize (Hinv eq_refl). subst last.
        unfold Point_neb in Hneb. rewrite (Point_eqb_refl_finite first Ff) in Hneb.
        discriminate. }
      rewrite Hneb, Hopen in Hc.
      eexists. split; [|split; [|split; [|split; [|split]]]].
      * rewrite Hc. rewrite lookup_app_r by lia. rewrite Nat.sub_diag. reflexivity.
      * reflexivity.
      * cbn. now apply front_snoc.
      * cbn. apply back_snoc.
      * discriminate.
      * intros _. split; [exact Hneb | reflexivity].
  - intros [Hp|(init & sp & Hp & Hs)]; unfold close; rewrite Hp.
    + reflexivity.
    + rewrite back_snoc, Hs. reflexivity.
Qed.
End CloseFacts.

(* ================================================================== *)
(** * The sub-path invariant                                            *)
(* ================================================================== *)

Section InvariantFacts.
Context {space : Space}.
Local Existing Instance binary32.

Lemma SubPath_new_ok : SubPath_ok SubPath_new.
Proof. split; [reflexivity | discriminate]. Qed.

(** A default-constructed path satisfies the invariant. *)
Lemma Path_new_ok : Path_ok Path_new.
Proof. constructor. Qed.

Lemma ok_same_paths (f : Path -> Path) (p : Path) :
  paths_ (f p) = paths_ p -> Path_ok p -> Path_ok (f p).
Proof. unfold Path_ok. now intros ->. Qed.

Lemma ok_snoc (ps : list SubPath) (sp : SubPath) :
  Forall SubPath_ok (ps ++ [sp]) <-> Forall SubPath_ok ps /\ SubPath_ok sp.
Proof. rewrite Forall_app, Forall_singleton. reflexivity. Qed.

Lemma ok_currentPath (p : Path) : Path_ok p -> Path_ok (currentPath p).
Proof.
  intros H. unfold Path_ok.
  destruct (currentPath_back p) as (init & cur & Hp & _ & [[_ ->]|(-> & _ & _)]).
  - exact H.
  - apply ok_snoc. split; [exact H | apply SubPath_new_ok].
Qed.

Lemma ok_startNewPath (p : Path) : Path_ok p -> Path_ok (startNewPath p).
Proof.
  intros H. unfold startNewPath, Path_ok.
  destruct (back (paths_ p)) as [b|]; [destruct (negb (is_empty (points b)))|];
    cbn [paths_ with_value with_smooth with_paths];
    try apply ok_snoc; auto using SubPath_new_ok.
Qed.

Lemma ok_moveTo (point : Point) (relative : bool) (p : Path) :
  Path_ok p -> Path_ok (moveTo point relative p).
Proof.
  intros H. unfold moveTo.
  apply (ok_same_paths (fun q => with_smooth Point_origin (with_last_point _ q)));
    [reflexivity|].
  destruct (back (paths_ p)) as [b|]; [destruct (negb (is_empty (points b)))|];
    auto using ok_startNewPath.
Qed.

Lemma ok_addPoint (point : Point) (e : Env) :
  Path_ok (self e) -> Path_ok (self (addPoint point e)).
Proof.
  intros H. rewrite addPoint_unfold. destruct (duplicate point (self e)).
  - now apply ok_currentPath.
  - unfold appended. cbn [self]. apply ok_currentPath in H. unfold Path_ok in *.
    destruct (currentPath_back (self e)) as (init & cur & Hp & Hc & _).
    cbn [paths_ with_paths]. rewrite Hp in *. rewrite alter_back_snoc.
    apply ok_snoc in H as [Hi [Hlen _]]. apply ok_snoc. split; [exact Hi|].
    split; cbn.
    + rewrite !length_app, Hlen. reflexivity.
    + congruence.
Qed.

Lemma ok_on_self (f : Path -> Path) (e : Env) :
  (forall p, Path_ok p -> Path_ok (f p)) -> Path_ok (self e) -> Path_ok (self (on_self f e)).
Proof. intros Hf H. apply Hf, H. Qed.

Lemma ok_with_smooth (c : Point) (p : Path) : Path_ok p -> Path_ok (with_smooth c p).
Proof. now apply ok_same_paths. Qed.

Lemma ok_curve_start (e : Env) :
  Path_ok (self e) ->
  Path_ok (self (if currentPath_empty (self (on_self currentPath e))
                 then addPoint (last_point_ (self (on_self currentPath e)))
                        (on_self currentPath e)
                 else on_self currentPath e)).
Proof.
  intros H. apply ok_currentPath in H.
  destruct (currentPath_empty _); [apply ok_addPoint|]; exact H.
Qed.

Lemma ok_lineTo (point : Point) (relative : bool) (e : Env) :
  Path_ok (self e) -> Path_ok (self (lineTo point relative e)).
Proof.
  intros H. unfold lineTo. apply ok_on_self; [apply ok_with_smooth|].
  apply ok_addPoint, ok_curve_start, H.
Qed.

Lemma ok_recurseBezierTo (fuel : nat) (from control1 control2 to : Point) (e e' : Env) :
  recurseBezierTo fuel from control1 control2 to e = Some e' ->
  Path_ok (self e) -> Path_ok (self e').
Proof.
  revert from control1 control2 to e e'.
  induction fuel as [|fuel IH]; intros from control1 control2 to e e'; simpl; [discriminate|].
  destruct (flat_enough (self e) from control1 control2 to).
  - intros [= <-]. apply ok_addPoint.
  - destruct (recurseBezierTo fuel from _ _ _ e) as [e1|] eqn:E1; [|discriminate].
    intros E2 H. eapply IH; [exact E2|]. eapply IH; eauto.
Qed.

Lemma ok_quadraticTo (fuel : nat) (control end_ : Point) (relative : bool) (e e' : Env) :
  quadraticTo fuel control end_ relative e = Some e' ->
  Path_ok (self e) -> Path_ok (self e').
Proof.
  unfold quadraticTo. intros E H. eapply ok_recurseBezierTo; [exact E|].
  apply ok_on_self; [apply ok_with_smooth|]. apply ok_curve_start, H.
Qed.

Lemma ok_bezierTo (fuel : nat) (control1 control2 end_ : Point) (relative : bool)
    (e e' : Env) :
  bezierTo fuel control1 control2 end_ relative e = Some e' ->
  Path_ok (self e) -> Path_ok (self e').
Proof.
  unfold bezierTo.
  destruct (recurseBezierTo _ _ _ _ _ _) as [e2|] eqn:E; [|discriminate].
  intros [= <-] H. apply ok_on_self; [apply ok_with_smooth|].
  eapply ok_recurseBezierTo; [exact E|]. apply ok_curve_start, H.
Qed.

Lemma front_map {A B} (f : A -> B) (l : list A) : front (map f l) = f <$> front l.
Proof. now destruct l. Qed.

Lemma back_map {A B} (f : A -> B) (l : list A) : back (map f l) = f <$> back l.
Proof.
  destruct (snoc_cases l) as [->|(init & x & ->)]; [reflexivity|].
  rewrite map_app. simpl. now rewrite !back_snoc.
Qed.

Lemma front_rev {A} (l : list A) : front (rev l) = back l.
Proof.
  destruct (snoc_cases l) as [->|(init & x & ->)]; [reflexivity|].
  now rewrite rev_app_distr, back_snoc.
Qed.

Lemma back_rev {A} (l : list A) : back (rev l) = front l.
Proof. destruct l as [|x l]; [reflexivity|]. simpl. now rewrite back_snoc. Qed.

Lemma ok_map_points (f : Point -> Point) (p : Path) : Path_ok p -> Path_ok (map_points f p).
Proof.
  unfold Path_ok, map_points. cbn. intros H. apply Forall_map.
  eapply Forall_impl; [exact H|]. intros sp [Hlen Hc]. split; cbn.
  - now rewrite length_map.
  - intros Hcl. now rewrite front_map, back_map, (Hc Hcl).
Qed.

Lemma ok_reverse (p : Path) : Path_ok p -> Path_ok (reverse p).
Proof.
  unfold Path_ok, reverse. cbn. intros H. apply Forall_map.
  eapply Forall_impl; [exact H|]. intros sp [Hlen Hc]. split; cbn.
  - now rewrite !length_rev.
  - intros Hcl. now rewrite front_rev, back_rev, (Hc Hcl).
Qed.

Lemma ok_clear (e : Env) : Path_ok (self (clear e)).
Proof.
  unfold clear, reset_graph, on_self. cbn.
  destruct (clone_ptr_reset _ _). cbn. constructor.
Qed.

(** [close()] keeps the invariant when the end points of the last
    sub-path are finite. *)
Lemma ok_close (e : Env) :
  ends_finite (self e) = true -> Path_ok (self e) -> Path_ok (self (close e)).
Proof.
  intros Hfin H.
  destruct (snoc_cases (paths_ (self e))) as [Hp|(init & sp & Hp)].
  { unfold close. rewrite Hp. exact H. }
  destruct (front (points sp)) as [first|] eqn:Hf;
    [|unfold close; rewrite Hp, back_snoc, Hf; exact H].
  destruct (back (points sp)) as [last|] eqn:Hl;
    [|unfold close; rewrite Hp, back_snoc, Hf, Hl; exact H].
  unfold ends_finite in Hfin. rewrite Hp, back_snoc, Hf, Hl in Hfin.
  apply andb_prop in Hfin as [Ff Fl].
  unfold Path_ok in *. rewrite (close_paths e init sp first last Hp Hf Hl).
  rewrite Hp in H. apply ok_snoc in H as [Hi [Hlen Hends]].
  assert (Hne : points sp <> []) by (intros E; rewrite E in Hf; discriminate).
  assert (Hempty : SubPath_ok SubPath_closed_empty) by (split; reflexivity).
  destruct (snaps first last) eqn:Hs; [|destruct (Point_neb first last) eqn:Hneb].
  - rewrite app_assoc.
    assert (Hsnap : Forall SubPath_ok
              (init ++ [mkSubPath (set_back first (points sp)) (values sp) true])).
    { apply ok_snoc. split; [exact Hi|]. split; cbn.
      - now rewrite length_set_back.
      - intros _. now rewrite front_set_back, back_set_back. }
    destruct (closed sp); [apply ok_snoc; auto | now rewrite app_nil_r].
  - destruct (closed sp) eqn:Hc.
    + change (init ++ [sp; ?x]) with (init ++ [sp] ++ [x]). rewrite app_assoc.
      apply ok_snoc. split; [apply ok_snoc; split; [exact Hi | split; auto]|].
      split; reflexivity.
    + apply ok_snoc. split; [exact Hi|]. split; cbn.
      * now rewrite !length_app, Hlen.
      * intros _. now rewrite (front_snoc _ _ _ Hf), back_snoc.
  - unfold Point_neb in Hneb. apply negb_false_iff in Hneb.
    rewrite (snaps_equal_finite first last Ff Fl Hneb) in Hs. discriminate.
Qed.

(** C8: every edit call of the header keeps the sub-path invariant:
    each sub-path has as many values as points, and a closed sub-path has
    equal first and last points.  For [close()] the end points of the
    last sub-path are taken to be finite. *)
Theorem edits_keep_SubPath_invariant (fuel : nat) (op : EditOp) (e e' : Env) :
  Path_ok (self e) ->
  (op = Close -> ends_finite (self e) = true) ->
  run fuel op e = Some e' ->
  Path_ok (self e').
Proof.
  intros H Hfin. destruct op; simpl; try (intros [= <-]).
  - now apply ok_moveTo.
  - now apply ok_lineTo.
  - apply ok_on_self; [apply ok_with_smooth|]. now apply ok_lineTo.
  - apply ok_on_self; [apply ok_with_smooth|]. now apply ok_lineTo.
  - apply ok_close; auto.
  - intros E. eapply ok_quadraticTo; eauto.
  - intros E. eapply ok_quadraticTo; eauto.
  - intros E. eapply ok_bezierTo; eauto.
  - intros E. eapply ok_bezierTo; eauto.
  - apply ok_clear.
  - now apply ok_map_points.
  - now apply ok_map_points.
  - now apply ok_map_points.
  - now apply ok_map_points.
  - now apply ok_reverse.
  - exact H.
  - exact H.
  - exact H.
Qed.

(** The calls that do not subdivide a curve always return. *)
Lemma run_returns (fuel : nat) (op : EditOp) (e : Env) :
  match op with
  | QuadraticTo _ _ _ | SmoothQuadraticTo _ _ | BezierTo _ _ _ _ | SmoothBezierTo _ _ _ => True
  | _ => exists e', run fuel op e = Some e'
  end.
Proof. destruct op; simpl; eauto. Qed.
End InvariantFacts.

(* ================================================================== *)
(** * Curve flattening                                                  *)
(* ================================================================== *)

Section BezierFacts.
Context {space : Space}.
Local Existing Instance binary32.

Lemma numPoints_addPoint (point : Point) (e : Env) :
  numPoints (self (addPoint point e)) =
    if duplicate point (self e) then numPoints (self e) else S (numPoints (self e)).
Proof.
  rewrite addPoint_unfold. destruct (duplicate point (self e)).
  - apply quiet_currentPath.
  - unfold appended. cbn [self].
    destruct (quiet_currentPath (self e)) as [_ <-]. rewrite !numPoints_count.
    destruct (currentPath_back (self e)) as (init & cur & Hp & _).
    cbn [paths_ with_paths]. rewrite Hp, alter_back_snoc, !count_points_snoc.
    cbn. rewrite length_app. simpl. lia.
Qed.

Lemma addPoint_ends_at (to : Point) (e : Env) : ends_at to (self (addPoint to e)).
Proof.
  rewrite addPoint_unfold. unfold ends_at.
  destruct (duplicate to (self e)) eqn:Hd.
  - unfold duplicate in Hd. cbn [self on_self].
    destruct (back (paths_ (currentPath (self e)))) as [cur|] eqn:Hb; [|discriminate].
    destruct (back (points cur)) as [b|] eqn:Hl; [|discriminate].
    apply back_Some in Hb as [init Hb]. exists init, cur, b. auto.
  - unfold appended. cbn [self paths_ with_paths].
    destruct (currentPath_back (self e)) as (init & cur & Hp & _).
    rewrite Hp, alter_back_snoc. eexists init, _, to.
    split; [reflexivity|]. cbn [points]. rewrite back_snoc. auto.
Qed.

Lemma recurseBezierTo_ends_at (fuel : nat) (from control1 control2 to : Point) (e e' : Env) :
  recurseBezierTo fuel from control1 control2 to e = Some e' -> ends_at to (self e').
Proof.
  revert from control1 control2 to e e'.
  induction fuel as [|fuel IH]; intros from control1 control2 to e e'; simpl; [discriminate|].
  destruct (flat_enough (self e) from control1 control2 to).
  - intros [= <-]. apply addPoint_ends_at.
  - destruct (recurseBezierTo fuel from _ _ _ e) as [e1|]; [|discriminate].
    apply IH.
Qed.

(** More fuel does not change the result of a call that returns. *)
Lemma recurseBezierTo_more_fuel (fuel fuel' : nat) (from control1 control2 to : Point)
    (e e' : Env) :
  (fuel <= fuel')%nat ->
  recurseBezierTo fuel from control1 control2 to e = Some e' ->
  recurseBezierTo fuel' from control1 control2 to e = Some e'.
Proof.
  revert fuel' from control1 control2 to e e'.
  induction fuel as [|fuel IH]; intros fuel' from control1 control2 to e e' Hle;
    simpl; [discriminate|].
  destruct fuel' as [|fuel']; [lia|]. simpl.
  destruct (flat_enough (self e) from control1 control2 to); [trivial|].
  destruct (recurseBezierTo fuel from _ _ _ e) as [e1|] eqn:E1; [|discriminate].
  intros E2. rewrite (IH fuel' _ _ _ _ _ _ ltac:(lia) E1).
  apply IH; [lia | exact E2].
Qed.

(** C6, amended: when both control points are within the tolerance of
    the chord, [recurseBezierTo] is exactly one [addPoint(to)], which
    adds [to] as a single point unless [to] repeats the last point of the
    sub-path (then nothing is added); otherwise it recurses on the two
    halves of the de Casteljau split; the polyline of a call that returns
    ends at [to]. *)
Theorem recurseBezierTo_flattens (fuel : nat) (from control1 control2 to : Point) (e : Env) :
  (flat_enough (self e) from control1 control2 to = true ->
     recurseBezierTo (S fuel) from control1 control2 to e = Some (addPoint to e) /\
     numPoints (self (addPoint to e)) =
       if duplicate to (self e) then numPoints (self e) else S (numPoints (self e))) /\
  (flat_enough (self e) from control1 control2 to = false ->
     recurseBezierTo (S fuel) from control1 control2 to e =
       let s := deCasteljau from control1 control2 to in
       match recurseBezierTo fuel from (mid1 s) (midmid1 s) (break_point s) e with
       | Some e1 => recurseBezierTo fuel (break_point s) (midmid2 s) (mid3 s) to e1
       | None => None
       end) /\
  (forall e', recurseBezierTo fuel from control1 control2 to e = Some e' ->
              ends_at to (self e')).
Proof.
  split; [|split].
  - intros H. simpl. rewrite H. split; [reflexivity | apply numPoints_addPoint].
  - intros H. simpl. rewrite H. reflexivity.
  - intros e'. apply recurseBezierTo_ends_at.
Qed.
End BezierFacts.

(* ================================================================== *)
(** * The cached graph across edit calls                                *)
(* ================================================================== *)

Section DiscardFacts.
Context {space : Space} {cpp : PathCpp}.

(** [triangulationGraph()] on a path whose handle is null. *)
Lemma triangulationGraph_rebuilds (e : Env) :
  triangulation_graph_ (self e) = None ->
  let a := fresh (dom (heap e)) in
  triangulationGraph e =
    (a, mkEnv (with_graph (Some a) (self e))
          (<[a := TriangulationGraph_of_Path (self e) a]> (heap e))).
Proof. intros H. unfold triangulationGraph, make_unique. now rewrite H. Qed.

(** C1, amended: an edit call that changes the number of points of the
    path, and [clear()] always, leaves the graph handle null and the
    cached graph deleted, so that the next query builds a graph from the
    path as it is then; [setFillRule] stores the fill rule and leaves the
    handle and the sub-paths as they are. *)
Theorem point_edits_discard_cached_graph (fuel : nat) (op : EditOp) (e e' : Env) :
  (run fuel op e = Some e' ->
   numPoints (self e') <> numPoints (self e) \/ op = Clear ->
   triangulation_graph_ (self e') = None /\
   heap e' = snd (clone_ptr_reset (triangulation_graph_ (self e)) (heap e)) /\
   triangulationGraph e' =
     (fresh (dom (heap e')),
      mkEnv (with_graph (Some (fresh (dom (heap e')))) (self e'))
        (<[fresh (dom (heap e')) :=
             TriangulationGraph_of_Path (self e') (fresh (dom (heap e')))]> (heap e')))) /\
  (forall fill_rule p,
     triangulation_graph_ (setFillRule fill_rule p) = triangulation_graph_ p /\
     paths_ (setFillRule fill_rule p) = paths_ p /\
     fillRule (setFillRule fill_rule p) = fill_rule).
Proof.
  split; [|intros fill_rule p; repeat split].
  intros Hrun Hchg.
  assert (Hd : triangulation_graph_ (self e') = None /\
               heap e' = snd (clone_ptr_reset (triangulation_graph_ (self e)) (heap e))).
  { destruct Hchg as [Hn| ->].
    - destruct (kept_run fuel op e e' Hrun) as [(_ & _ & Hsame)|Hd]; [congruence | exact Hd].
    - simpl in Hrun. injection Hrun as <-.
      unfold clear, reset_graph, on_self, clone_ptr_reset. cbn.
      destruct (triangulation_graph_ (self e)); auto. }
  destruct Hd as [Hg Hh]. repeat split; try assumption.
  now apply triangulationGraph_rebuilds.
Qed.
End DiscardFacts.

(* ================================================================== *)
(** * Copies of a path                                                  *)
(* ================================================================== *)

Section CopyFacts.
Context {space : Space} {cpp : PathCpp}.

Lemma fresh_not_alive (h : gmap addr TriangulationGraph) (a : addr) (g : TriangulationGraph) :
  h !! a = Some g -> fresh (dom h) <> a.
Proof.
  intros Ha E. apply (is_fresh (dom h)). rewrite E. apply elem_of_dom. eauto.
Qed.

Lemma fresh_not_mapped (h : gmap addr TriangulationGraph) : h !! fresh (dom h) = None.
Proof. apply not_elem_of_dom, is_fresh. Qed.

Lemma foreign_kept (a : addr) (g : TriangulationGraph) (e e' : Env) :
  kept_or_discarded e e' -> foreign a g e -> foreign a g e'.
Proof.
  unfold foreign. intros [(Hh & Hg & _)|(Hg & Hh)] [Ha Hne].
  - rewrite Hh, Hg. auto.
  - rewrite Hg, Hh. split; [|discriminate].
    destruct (triangulation_graph_ (self e)) as [b|]; simpl; [|exact Ha].
    rewrite lookup_delete_ne; [exact Ha | congruence].
Qed.

Lemma foreign_query (a : addr) (g : TriangulationGraph)
    (method : Heap -> TriangulationGraph -> TriangulationGraph) (e : Env) :
  foreign a g e -> foreign a g (query method e).
Proof.
  unfold foreign, query, triangulationGraph, make_unique. intros [Ha Hne].
  destruct (triangulation_graph_ (self e)) as [b|] eqn:Hb; cbn.
  - rewrite Hb. split; [|exact Hne]. rewrite lookup_alter_ne; [exact Ha | congruence].
  - pose proof (fresh_not_alive (heap e) a g Ha) as Hf. split; [|congruence].
    rewrite lookup_alter_ne by exact Hf. rewrite lookup_insert_ne by exact Hf. exact Ha.
Qed.

Lemma foreign_calls (a : addr) (g : TriangulationGraph) (fuel : nat)
    (cs : list PathCall) (e e' : Env) :
  calls fuel cs e = Some e' -> foreign a g e -> foreign a g e'.
Proof.
  revert e. induction cs as [|c cs IH]; intros e; simpl.
  - now intros [= <-].
  - destruct (call fuel c e) as [e1|] eqn:Hc; [|discriminate].
    intros Hcs Hf. apply (IH e1 Hcs).
    destruct c as [op|method]; simpl in Hc.
    + eapply foreign_kept; [eapply kept_run; exact Hc | exact Hf].
    + injection Hc as <-. now apply foreign_query.
Qed.

(** The copy constructor of the graph changes the back pointer of the
    scan line and nothing else. *)
Lemma TriangulationGraph_copy_contents (this : addr) (g : TriangulationGraph) :
  let g' := TriangulationGraph_copy this g in
  resolution_transform_ g' = resolution_transform_ g /\
  intersections_broken_ g' = intersections_broken_ g /\
  points_ g' = points_ g /\
  sorted_indices_ g' = sorted_indices_ g /\
  prev_edge_ g' = prev_edge_ g /\
  next_edge_ g' = next_edge_ g /\
  graph_ (scan_line_ g') = this /\
  setGraph (graph_ (scan_line_ g)) (scan_line_ g') = scan_line_ g.
Proof. destruct g as [t ib ps si pe ne []]. cbn. repeat split. Qed.

(** C5: the copy of a path that holds a cached graph holds a graph of
    its own, at another address, with the contents of the source's graph
    (the scan line's back pointer aside, which is set to the new graph);
    the copy leaves the source's graph as it is, and whatever is called
    afterwards through one of the two paths leaves the graph of the
    other as it is.  This holds for the copy constructor and for the
    copy assignment to a path that owns a live graph or none. *)
Theorem Path_copy_clones_graph (p : Path) (h : Heap) (a : addr) (g : TriangulationGraph) :
  triangulation_graph_ p = Some a ->
  h !! a = Some g ->
  let a' := fresh (dom h) in
  let g' := TriangulationGraph_copy a' g in
  Path_copy p h = Some (mkEnv (with_graph (Some a') p) (<[a' := g']> h)) /\
  a' <> a /\
  (<[a' := g']> h) !! a' = Some g' /\
  (<[a' := g']> h) !! a = Some g /\
  (points_ g' = points_ g /\ prev_edge_ g' = prev_edge_ g /\ next_edge_ g' = next_edge_ g /\
   sorted_indices_ g' = sorted_indices_ g /\
   intersections_broken_ g' = intersections_broken_ g /\
   resolution_transform_ g' = resolution_transform_ g /\
   graph_ (scan_line_ g') = a' /\
   setGraph (graph_ (scan_line_ g)) (scan_line_ g') = scan_line_ g) /\
  (forall fuel cs e',
     calls fuel cs (mkEnv (with_graph (Some a') p) (<[a' := g']> h)) = Some e' ->
     heap e' !! a = Some g) /\
  (forall fuel cs e',
     calls fuel cs (mkEnv p (<[a' := g']> h)) = Some e' ->
     heap e' !! a' = Some g') /\
  (forall this : Path,
     triangulation_graph_ this <> Some a ->
     (forall b, triangulation_graph_ this = Some b -> is_Some (h !! b)) ->
     exists h',
       Path_assign false this p h = Some (mkEnv (with_graph (Some a') p) h') /\
       h' !! a' = Some g' /\ h' !! a = Some g /\
       (forall b, triangulation_graph_ this = Some b -> h' !! b = None) /\
       (forall fuel cs e',
          calls fuel cs (mkEnv (with_graph (Some a') p) h') = Some e' ->
          heap e' !! a = Some g) /\
       (forall fuel cs e',
          calls fuel cs (mkEnv p h') = Some e' -> heap e' !! a' = Some g')).
Proof.
  intros Hp Ha a' g'.
  assert (Hne : a' <> a) by exact (fresh_not_alive h a g Ha).
  assert (Hcopy : clone_ptr_copy (Some a) h = Some (Some a', <[a' := g']> h)).
  { unfold clone_ptr_copy, make_unique. now rewrite Ha. }
  assert (Hnew : (<[a' := g']> h) !! a' = Some g') by apply lookup_insert_eq.
  assert (Hold : (<[a' := g']> h) !! a = Some g) by (now rewrite lookup_insert_ne).
  split; [|split; [|split; [|split; [|split; [|split; [|split]]]]]]; try assumption.
  - unfold Path_copy. now rewrite Hp, Hcopy.
  - destruct (TriangulationGraph_copy_contents a' g) as (H1 & H2 & H3 & H4 & H5 & H6 & H7 & H8).
    fold g' in H1, H2, H3, H4, H5, H6, H7, H8. repeat split; assumption.
  - intros fuel cs e' Hcs.
    apply (foreign_calls a g fuel cs _ e' Hcs). split; cbn; [exact Hold | congruence].
  - intros fuel cs e' Hcs.
    apply (foreign_calls a' g' fuel cs _ e' Hcs). split; cbn; [exact Hnew | congruence].
  - intros this Hthis Hlive.
    exists (snd (clone_ptr_reset (triangulation_graph_ this) (<[a' := g']> h))).
    assert (Hb : forall b, triangulation_graph_ this = Some b -> b <> a' /\ b <> a).
    { intros b Hb. split; [|congruence].
      destruct (Hlive b Hb) as [gb Hgb]. intros ->.
      unfold a' in Hgb. now rewrite fresh_not_mapped in Hgb. }
    assert (Hnew' : snd (clone_ptr_reset (triangulation_graph_ this) (<[a' := g']> h)) !! a'
                    = Some g').
    { destruct (triangulation_graph_ this) as [b|] eqn:E; simpl; [|exact Hnew].
      destruct (Hb b eq_refl). now rewrite lookup_delete_ne. }
    assert (Hold' : snd (clone_ptr_reset (triangulation_graph_ this) (<[a' := g']> h)) !! a
                    = Some g).
    { destruct (triangulation_graph_ this) as [b|] eqn:E; simpl; [|exact Hold].
      destruct (Hb b eq_refl). now rewrite lookup_delete_ne. }
    split; [|split; [|split; [|split; [|split]]]]; try assumption.
    + unfold Path_assign, clone_ptr_assign. rewrite Hp, Hcopy. reflexivity.
    + intros b E. rewrite E. simpl. apply lookup_delete_eq.
    + intros fuel cs e' Hcs.
      apply (foreign_calls a g fuel cs _ e' Hcs). split; cbn; [exact Hold' | congruence].
    + intros fuel cs e' Hcs.
      apply (foreign_calls a' g' fuel cs _ e' Hcs). split; cbn; [exact Hnew' | congruence].
Qed.
End CopyFacts.

(* ================================================================== *)
(** * The properties on concrete paths                                  *)
(* ================================================================== *)

(** The subdivision has no depth limit: towards an end point that is not
    a number no curve ever passes the flatness test, whatever the fuel. *)
Section Divergence.
Local Existing Instance binary32.

Lemma fadd_nan_r (a : float) : fadd a S754_nan = S754_nan.
Proof. now destruct a. Qed.

Lemma fsub_nan_r (a : float) : fsub a S754_nan = S754_nan.
Proof. now destruct a. Qed.

Lemma fmul_nan_r (a : float) : fmul a S754_nan = S754_nan.
Proof. now destruct a. Qed.

Lemma feq_nan_r (a : float) : feq a S754_nan = false.
Proof. now destruct a. Qed.

Lemma mid_nan_r (a : Point) : @mid a Plain.nan_point = Plain.nan_point.
Proof. unfold mid, Point_scale, Point_add. cbn. now rewrite !fadd_nan_r. Qed.

Lemma deltaFromLine_nan (point from : Point) :
  deltaFromLine point from Plain.nan_point = Plain.nan_point.
Proof.
  unfold deltaFromLine, Point_eqb. cbn. rewrite feq_nan_r. cbn.
  unfold Point_dot, Point_sub, Point_add, Point_scale. cbn.
  repeat (rewrite ?fmul_nan_r, ?fadd_nan_r, ?fsub_nan_r; cbn).
  reflexivity.
Qed.

Lemma flat_enough_nan (p : @Path Plain.space) (from control1 control2 : Point) :
  flat_enough p from control1 control2 Plain.nan_point = false.
Proof.
  unfold flat_enough. rewrite !deltaFromLine_nan. cbn.
  unfold Plain.Matrix2_apply, squareMagnitude. cbn.
  now rewrite !fmul_nan_r, !fadd_nan_r.
Qed.

Lemma recurseBezierTo_never_returns (fuel : nat) (from control1 control2 : Point)
    (e : @Env Plain.space) :
  recurseBezierTo fuel from control1 control2 Plain.nan_point e = None.
Proof.
  revert from control1 control2 e.
  induction fuel as [|fuel IH]; intros from control1 control2 e; simpl; [reflexivity|].
  rewrite flat_enough_nan. unfold deCasteljau. cbn [mid1 midmid1 break_point midmid2 mid3].
  rewrite !mid_nan_r. now rewrite IH.
Qed.
End Divergence.

(** The arch is flattened into eight segments at depth three. *)
Example arch_returns :
  match Plain.arch 4 with
  | Some e' => @numPoints Plain.space (self e')
  | None => 0%nat
  end = 11%nat.
Proof. vm_compute. reflexivity. Qed.

Example arch_needs_fuel :
  match Plain.arch 3 with Some _ => true | None => false end = false.
Proof. vm_compute. reflexivity. Qed.

(** C1, as stated, fails for [setFillRule]: on a path with a cached graph
    the call changes the fill rule and the handle still manages the graph
    built before, which the next query returns. *)
Lemma setFillRule_keeps_graph_counterexample :
  let e := Plain.triangle_cached in
  let e' := on_self (setFillRule NonZero) e in
  fillRule (self e) = EvenOdd /\ fillRule (self e') = NonZero /\
  triangulation_graph_ (self e') = Some 1%positive /\
  triangulation_graph_ (self e') <> None /\
  fst (@triangulationGraph Plain.space Plain.cpp e') = 1%positive.
Proof. repeat split. discriminate. Qed.

Lemma point_edits_discard_cached_graph_witness :
  triangulation_graph_ (self (lineTo (Plain.pt 1 1) false Plain.triangle_cached)) = None.
Proof.
  apply (proj1 (@point_edits_discard_cached_graph Plain.space Plain.cpp 0
                  (LineTo (Plain.pt 1 1) false) Plain.triangle_cached
                  (lineTo (Plain.pt 1 1) false Plain.triangle_cached))).
  - reflexivity.
  - left. vm_compute. discriminate.
Defined.

Lemma close_joins_ends_witness :
  (exists sp',
     paths_ (self (close Plain.triangle_cached)) !! 0%nat = Some sp' /\
     closed sp' = true /\
     front (points sp') = Some (Plain.pt 0 0) /\
     back (points sp') = Some (Plain.pt 0 0)) /\
  close Plain.nothing = Plain.nothing.
Proof.
  split.
  - destruct (proj1 (@close_joins_ends Plain.space Plain.triangle_cached)
                [] Plain.triangle (Plain.pt 0 0) (Plain.pt 0 3))
      as (sp' & H1 & H2 & H3 & H4 & _);
      [reflexivity | reflexivity | reflexivity | reflexivity | reflexivity | discriminate |].
    exists sp'. auto.
  - apply (proj2 (@close_joins_ends Plain.space Plain.nothing)). left. reflexivity.
Defined.

(** The snapping branch on a concrete path. *)
Example close_snaps :
  snaps (Plain.pt 0 0) (mkPoint (@fdiv binary32 (@of_Z binary32 1) (@of_Z binary32 4096)) zero)
    = true /\
  map points (paths_ (self (close (@mkEnv Plain.space Plain.almost_closed_path ∅))))
    = [[Plain.pt 0 0; Plain.pt 4 0; Plain.pt 0 3; Plain.pt 0 0]].
Proof. split; vm_compute; reflexivity. Qed.

(** C6, as stated, fails when the end point repeats the last point of
    the sub-path: the tiny loop at (0, 3) passes the flatness test, and
    the call adds no point. *)
Lemma recurseBezierTo_no_point_counterexample :
  let e := Plain.triangle_cached in
  let p := Plain.pt 0 3 in
  flat_enough (self e) p Plain.loop_control1 Plain.loop_control2 p = true /\
  match recurseBezierTo 1 p Plain.loop_control1 Plain.loop_control2 p e with
  | Some e' => numPoints (self e')
  | None => 0%nat
  end = numPoints (self e) /\
  numPoints (self e) = 3%nat.
Proof. repeat split; vm_compute; reflexivity. Qed.

Lemma recurseBezierTo_flattens_witness :
  recurseBezierTo 1 (Plain.pt 0 3) Plain.loop_control1 Plain.loop_control2 (Plain.pt 1 3)
    Plain.triangle_cached
  = Some (addPoint (Plain.pt 1 3) Plain.triangle_cached) /\
  match Plain.arch 4 with
  | Some e' => ends_at (Plain.pt 4 3) (self e')
  | None => False
  end.
Proof.
  split.
  - apply (proj1 (@recurseBezierTo_flattens Plain.space 0 (Plain.pt 0 3)
                    Plain.loop_control1 Plain.loop_control2 (Plain.pt 1 3)
                    Plain.triangle_cached)).
    vm_compute. reflexivity.
  - assert (H : match Plain.arch 4 with Some _ => true | None => false end = true)
      by (vm_compute; reflexivity).
    unfold Plain.arch in *.
    destruct (recurseBezierTo 4 _ _ _ _ _) as [e'|] eqn:E; [|discriminate].
    exact (proj2 (proj2 (@recurseBezierTo_flattens Plain.space 4 (Plain.pt 0 3)
                           (Plain.pt 1 5) (Plain.pt 3 5) (Plain.pt 4 3)
                           Plain.triangle_cached)) e' E).
Defined.

Lemma edits_keep_SubPath_invariant_witness :
  Path_ok (self (close Plain.triangle_cached)).
Proof.
  apply (@edits_keep_SubPath_invariant Plain.space 0 Close Plain.triangle_cached).
  - repeat constructor; discriminate.
  - intros _. vm_compute. reflexivity.
  - reflexivity.
Defined.

Lemma Path_copy_clones_graph_witness :
  fresh (dom (heap Plain.triangle_cached)) <> 1%positive.
Proof.
  apply (@Path_copy_clones_graph Plain.space Plain.cpp
           (self Plain.triangle_cached) (heap Plain.triangle_cached) 1%positive
           (Plain.graph_of_path Plain.Affine_identity Plain.triangle_path 1%positive)).
  - reflexivity.
  - reflexivity.
Defined.

(* ================================================================== *)
(** * More facts about IEEE arithmetic                                  *)
(* ================================================================== *)

Lemma fadd_comm {fmt : Ieee} (a b : spec_float) : fadd a b = fadd b a.
Proof.
  unfold fadd.
  destruct a as [sa|sa| |sa ma ea], b as [sb|sb| |sb mb eb]; simpl; try reflexivity;
    try (destruct sa, sb; reflexivity).
  now rewrite (Z.min_comm ea eb), Z.add_comm.
Qed.

(** Rounding passes the sign through. *)
Lemma binary_round_opp (p e : Z) (m : positive) (ex : Z) :
  binary_round p e true m ex = SFopp (binary_round p e false m ex).
Proof.
  unfold binary_round, binary_round_aux.
  destruct (shl_align _ _ _) as [mz ez].
  destruct (shr_fexp p e (Z.pos mz) ez loc_Exact) as [mrs' e'].
  destruct (shr_fexp p e _ e' loc_Exact) as [mrs'' e''].
  destruct (shr_m mrs''); try reflexivity.
  now destruct (e'' <=? e - p).
Qed.

Lemma binary_normalize_opp (p e m ex : Z) :
  m <> 0 -> binary_normalize p e (- m) ex false = SFopp (binary_normalize p e m ex false).
Proof.
  destruct m as [|m|m]; [congruence| |]; intros _; simpl.
  - apply binary_round_opp.
  - rewrite binary_round_opp. now destruct (binary_round p e false m ex) as [[]|[]| |[] ? ?].
Qed.

(** [b - a] is the negation of [a - b], unless both are the positive
    zero. *)
Lemma fsub_swap {fmt : Ieee} (a b : spec_float) :
  fsub b a = fneg (fsub a b) \/ (fsub a b = zero /\ fsub b a = zero).
Proof.
  unfold fsub, fneg.
  destruct a as [sa|sa| |sa ma ea], b as [sb|sb| |sb mb eb]; simpl;
    try (left; reflexivity);
    try (destruct sa, sb; simpl; auto; fail);
    try (destruct sa; simpl; auto; fail);
    try (destruct sb; simpl; auto; fail).
  rewrite (Z.min_comm eb ea).
  set (x := cond_Zopp sa _). set (y := cond_Zopp sb _).
  destruct (Z.eq_dec (x - y) 0) as [E|E].
  - right. replace (y - x) with 0 by lia. rewrite E. auto.
  - left. replace (y - x) with (- (x - y)) by lia. now apply binary_normalize_opp.
Qed.

(** [a - a] is the positive zero, or not a number. *)
Lemma fsub_self {fmt : Ieee} (a : spec_float) : fsub a a = zero \/ fsub a a = S754_nan.
Proof.
  unfold fsub. destruct a as [s|s| |s m e]; simpl; auto.
  - destruct s; auto.
  - destruct s; auto.
  - rewrite Z.sub_diag. auto.
Qed.

Lemma fabs_fneg (a : spec_float) : fabs (fneg a) = fabs a.
Proof. now destruct a. Qed.

Lemma feq_sym (a b : spec_float) : feq a b = feq b a.
Proof.
  unfold feq, SFeqb.
  destruct (SFcompare a b) as [c|] eqn:E.
  - rewrite (SFcompare_antisym _ _ _ E). now destruct c.
  - destruct (SFcompare b a) as [c|] eqn:E'; [|reflexivity].
    apply SFcompare_antisym in E'. congruence.
Qed.

Lemma Point_eqb_sym {fmt : Ieee} (a b : BasePoint fmt) : Point_eqb a b = Point_eqb b a.
Proof. unfold Point_eqb. now rewrite (feq_sym (px a)), (feq_sym (py a)). Qed.

(** Every value but NaN compares equal to itself. *)
Lemma SFcompare_refl (a : spec_float) : is_nan a = false -> SFcompare a a = Some Eq.
Proof.
  destruct a as [s|s| |s m e]; simpl; try discriminate; intros _; try reflexivity.
  - now destruct s.
  - rewrite Z.compare_refl, Pos.compare_cont_refl. now destruct s.
Qed.

Lemma SFcompare_Some (a b : spec_float) :
  is_nan a = false -> is_nan b = false -> exists c, SFcompare a b = Some c.
Proof.
  destruct a as [sa|sa| |sa ma ea], b as [sb|sb| |sb mb eb]; simpl; try discriminate; eauto.
Qed.

Lemma SFcompare_not_nan (a b : spec_float) (c : comparison) :
  SFcompare a b = Some c -> is_nan a = false /\ is_nan b = false.
Proof.
  destruct a as [sa|sa| |sa ma ea], b as [sb|sb| |sb mb eb]; simpl; try discriminate; auto.
Qed.

(** The order of the values that are numbers is transitive. *)
Lemma SFcompare_trans (a b c : spec_float) (x y : comparison) :
  SFcompare a b = Some x -> SFcompare b c = Some y ->
  x <> Gt -> y <> Gt ->
  SFcompare a c = Some (match x with Eq => y | _ => Lt end).
Proof.
  destruct a as [sa|sa| |sa ma ea], b as [sb|sb| |sb mb eb], c as [sc|sc| |sc mc ec];
    simpl; try discriminate.
  all: try destruct sa; try destruct sb; try destruct sc.
  all: repeat match goal with
       | |- context [(?u ?= ?v)%Z] => destruct (Z.compare_spec u v)
       | |- context [Pos.compare_cont Eq ?u ?v] =>
           change (Pos.compare_cont Eq u v) with (u ?= v)%positive;
           destruct (Pos.compare_spec u v)
       end.
  all: simpl; intros [= <-] [= <-] Hx Hy.
  all: first [reflexivity | congruence | exfalso; lia].
Qed.

(* ================================================================== *)
(** * More about the orientation predicates                             *)
(* ================================================================== *)

Section MoreOrientationFacts.
Local Existing Instance binary64.

Lemma fmul_zero_or_nan_l (a b : spec_float) : zero_or_nan a -> zero_or_nan (fmul a b).
Proof.
  unfold zero_or_nan, fmul. intros [[sgn ->]| ->]; destruct b; simpl; eauto.
Qed.

Lemma fmul_zero_or_nan_r (a b : spec_float) : zero_or_nan b -> zero_or_nan (fmul a b).
Proof. rewrite fmul_comm. apply fmul_zero_or_nan_l. Qed.

Lemma fsub_self_zero_or_nan (a : spec_float) : zero_or_nan (fsub a a).
Proof. destruct (fsub_self a) as [-> | ->]; [left; now exists false | now right]. Qed.

(** The rule of [orientation] on two cross-product terms that are zeros
    or NaN. *)
Lemma snap_zero_or_nan (l r : spec_float) :
  zero_or_nan l -> zero_or_nan r ->
  exists sgn,
    (if fge (fabs (fsub l r)) (fmul f64_1em10 (fabs (fadd l r))) then fsub l r else zero)
    = S754_zero sgn.
Proof.
  intros [[sl ->]| ->] [[sr ->]| ->].
  - destruct sl, sr; vm_compute; eauto.
  - destruct sl; vm_compute; eauto.
  - vm_compute; eauto.
  - vm_compute; eauto.
Qed.

(** X1: The first and the second target coincide: the three points are on
    one line, whatever they are (infinite and NaN coordinates included).
    [orientation] returns the positive zero, and [stableOrientation],
    which then tries the two other rotations, returns a zero. *)
Theorem orientation_coincident_targets (source target : DPoint) :
  orientation source target target = zero /\
  exists sgn, stableOrientation source target target = S754_zero sgn.
Proof.
  assert (H1 : orientation source target target = zero).
  { unfold orientation, orientation_T.
    rewrite (fmul_comm (px (Point_sub target source)) (py (Point_sub target source))).
    set (l := fmul (py (Point_sub target source)) (px (Point_sub target source))).
    destruct (fsub_self l) as [-> | ->].
    - now destruct (fge _ _).
    - unfold fge, SFleb. cbn [fabs SFabs].
      now destruct (fmul f64_1em10 (fabs (fadd l l))) as [[]|[]| |[] ? ?]. }
  split; [exact H1|].
  unfold stableOrientation, stableOrientation_T.
  change (orientation_T f64_1em10) with orientation. rewrite H1.
  change (fne zero zero) with false. cbv iota.
  assert (H2 : exists sgn, orientation target source target = S754_zero sgn).
  { unfold orientation, orientation_T. apply snap_zero_or_nan.
    - apply fmul_zero_or_nan_l. cbn [py Point_sub]. apply fsub_self_zero_or_nan.
    - apply fmul_zero_or_nan_l. cbn [px Point_sub]. apply fsub_self_zero_or_nan. }
  destruct H2 as [sgn2 ->].
  replace (fne (S754_zero sgn2) zero) with false by now destruct sgn2.
  unfold orientation, orientation_T. apply snap_zero_or_nan.
  - apply fmul_zero_or_nan_r. cbn [px Point_sub]. apply fsub_self_zero_or_nan.
  - apply fmul_zero_or_nan_r. cbn [py Point_sub]. apply fsub_self_zero_or_nan.
Qed.

(** X2: Swapping the two targets negates the orientation; when the result
    snaps to zero it is the positive zero both ways.  In particular the
    two calls agree on whether the three points are on one line and
    disagree on the side otherwise. *)
Theorem orientation_swap_targets (source target1 target2 : DPoint) :
  orientation source target2 target1 = fneg (orientation source target1 target2) \/
  (orientation source target1 target2 = zero /\ orientation source target2 target1 = zero).
Proof.
  unfold orientation, orientation_T.
  set (d1 := Point_sub target1 source). set (d2 := Point_sub target2 source).
  rewrite (fmul_comm (py d1) (px d2)), (fmul_comm (px d1) (py d2)).
  set (l := fmul (py d2) (px d1)). set (r := fmul (px d2) (py d1)).
  rewrite (fadd_comm r l).
  destruct (fsub_swap l r) as [H|[H1 H2]].
  - rewrite H, fabs_fneg. destruct (fge _ _); [now left | right; now split].
  - rewrite H1, H2. right. split; now destruct (fge _ _).
Qed.
End MoreOrientationFacts.

(* ================================================================== *)
(** * The sub-paths after [addPoint] and [lineTo]                       *)
(* ================================================================== *)

Section MorePathFacts.
Context {space : Space}.
Local Existing Instance binary32.

(** What [currentPath()] returns is unique. *)
Lemma currentPath_cases (p : Path) (init : list SubPath) (cur : SubPath) :
  paths_ (currentPath p) = init ++ [cur] ->
  closed cur = false /\
  (paths_ p = init ++ [cur] /\ currentPath p = p \/
   init = paths_ p /\ cur = SubPath_new).
Proof.
  intros H.
  destruct (currentPath_back p) as (init' & cur' & Hp & Hc & Hcases).
  rewrite Hp in H. apply app_inj_tail in H as [-> ->].
  split; [exact Hc|]. destruct Hcases as [?|(_ & -> & ->)]; auto.
Qed.

Lemma addPoint_paths (point : Point) (e : Env) (init : list SubPath) (cur : SubPath) :
  paths_ (currentPath (self e)) = init ++ [cur] ->
  paths_ (self (addPoint point e)) =
    init ++ [if repeats point cur then cur
             else mkSubPath (points cur ++ [point])
                    (values cur ++ [current_value_ (self e)]) (closed cur)].
Proof.
  intros H. rewrite addPoint_unfold. unfold duplicate, repeats. rewrite H, back_snoc.
  destruct (match back (points cur) with Some b => Point_eqb point b | None => false end).
  - exact H.
  - unfold appended. cbn [self paths_ with_paths]. rewrite H, alter_back_snoc.
    rewrite (currentPath_fields (self e)). reflexivity.
Qed.

(** The other members after [addPoint]. *)
Lemma addPoint_members (point : Point) (e : Env) (init : list SubPath) (cur : SubPath) :
  paths_ (currentPath (self e)) = init ++ [cur] ->
  let p' := self (addPoint point e) in
  last_point_ p' = (if repeats point cur then last_point_ (self e) else point) /\
  smooth_control_point_ p' = smooth_control_point_ (self e) /\
  current_value_ p' = current_value_ (self e) /\
  error_tolerance_ p' = error_tolerance_ (self e) /\
  resolution_matrix_ p' = resolution_matrix_ (self e) /\
  fill_rule_ p' = fill_rule_ (self e).
Proof.
  intros H. cbv zeta. rewrite addPoint_unfold. unfold duplicate, repeats.
  rewrite H, back_snoc.
  destruct (match back (points cur) with Some b => Point_eqb point b | None => false end);
    cbn [self on_self appended]; rewrite (currentPath_fields (self e)); cbn; auto 10.
Qed.

(** After [addPoint] the last sub-path is open: [currentPath()] returns
    it as it is. *)
Lemma currentPath_addPoint (point : Point) (e : Env) :
  currentPath (self (addPoint point e)) = self (addPoint point e).
Proof.
  destruct (currentPath_back (self e)) as (init & cur & Hp & Hc & _).
  pose proof (addPoint_paths point e init cur Hp) as H.
  eapply currentPath_open; [exact H|].
  destruct (repeats point cur); [exact Hc | exact Hc].
Qed.

(** [lineTo]: the current sub-path is started with [last_point_] when it
    has no point yet, and the target is added unless it repeats the
    point before it. *)
Lemma lineTo_paths (point : Point) (relative : bool) (e : Env)
    (init : list SubPath) (cur : SubPath) :
  paths_ (currentPath (self e)) = init ++ [cur] ->
  let target := if relative then Point_add point (last_point_ (self e)) else point in
  let value := current_value_ (self e) in
  let started :=
    if is_empty (points cur)
    then mkSubPath [last_point_ (self e)] (values cur ++ [value]) false
    else cur in
  paths_ (self (lineTo point relative e)) =
    init ++ [if repeats target started then started
             else mkSubPath (points started ++ [target]) (values started ++ [value]) false]
  /\ last_point_ (self (lineTo point relative e)) =
       (if repeats target started then last_point_ (self e) else target)
  /\ current_value_ (self (lineTo point relative e)) = value.
Proof.
  intros H. destruct (currentPath_cases _ _ _ H) as [Hc _].
  cbv zeta. unfold lineTo.
  set (e0 := on_self currentPath e).
  assert (H0 : paths_ (currentPath (self e0)) = init ++ [cur])
    by (cbn; now rewrite currentPath_idem).
  assert (Hlp0 : last_point_ (self e0) = last_point_ (self e))
    by (cbn; now rewrite currentPath_fields).
  assert (Hcv0 : current_value_ (self e0) = current_value_ (self e))
    by (cbn; now rewrite currentPath_fields).
  assert (Hempty : currentPath_empty (self e0) = is_empty (points cur))
    by (unfold currentPath_empty; now rewrite H0, back_snoc).
  rewrite Hempty.
  destruct (is_empty (points cur)) eqn:He; cbv iota; rewrite ?Hlp0.
  - apply is_empty_true in He.
    pose proof (addPoint_paths (last_point_ (self e0)) e0 init cur H0) as H1.
    pose proof (addPoint_members (last_point_ (self e0)) e0 init cur H0) as M1.
    cbv zeta in M1. unfold repeats in H1, M1. rewrite He in H1, M1.
    cbn [back_nil app] in H1, M1. rewrite back_nil in H1, M1.
    rewrite Hc, Hlp0, Hcv0 in H1. rewrite Hlp0, Hcv0 in M1.
    destruct M1 as (Ml & _ & Mv & _).
    set (e1 := addPoint (last_point_ (self e)) e0) in *.
    assert (H1' : paths_ (currentPath (self e1)) = init ++ [mkSubPath [last_point_ (self e)]
                     (values cur ++ [current_value_ (self e)]) false]).
    { rewrite <- H1. unfold e1. now rewrite currentPath_addPoint. }
    rewrite Ml.
    set (target := if relative then Point_add point (last_point_ (self e)) else point).
    pose proof (addPoint_paths target e1 _ _ H1') as H2.
    pose proof (addPoint_members target e1 _ _ H1') as M2. cbv zeta in M2.
    destruct M2 as (Ml2 & _ & Mv2 & _).
    cbn [on_self self paths_ with_smooth last_point_ current_value_].
    rewrite H2, Ml2, Mv2, Mv, Ml.
    destruct (repeats target _); auto.
  - set (target := if relative then Point_add point (last_point_ (self e)) else point).
    pose proof (addPoint_paths target e0 _ _ H0) as H2.
    pose proof (addPoint_members target e0 _ _ H0) as M2. cbv zeta in M2.
    destruct M2 as (Ml2 & _ & Mv2 & _).
    cbn [on_self self paths_ with_smooth last_point_ current_value_].
    rewrite H2, Ml2, Mv2. rewrite Hlp0, Hcv0, Hc.
    destruct (repeats _ cur); auto.
Qed.

(** [moveTo] leaves the current sub-path without a point. *)
Lemma moveTo_paths (point : Point) (relative : bool) (p : Path) :
  paths_ (moveTo point relative p) =
    match back (paths_ p) with
    | Some b => if is_empty (points b) then paths_ p else paths_ p ++ [SubPath_new]
    | None => paths_ p
    end.
Proof.
  unfold moveTo, startNewPath.
  destruct (back (paths_ p)) as [b|] eqn:Hb; [|reflexivity].
  destruct (is_empty (points b)) eqn:He; cbn; rewrite ?He; reflexivity.
Qed.

Lemma moveTo_last_point (point : Point) (p : Path) :
  last_point_ (moveTo point false p) = point.
Proof. reflexivity. Qed.

Lemma moveTo_current (point : Point) (relative : bool) (p : Path)
    (init : list SubPath) (cur : SubPath) :
  paths_ (currentPath (moveTo point relative p)) = init ++ [cur] ->
  points cur = [] /\ (init = paths_ p \/ paths_ p = init ++ [cur] /\ closed cur = false).
Proof.
  intros H. pose proof (moveTo_paths point relative p) as Hm.
  set (q := moveTo point relative p) in *. clearbody q.
  destruct (back (paths_ p)) as [b|] eqn:Hb.
  - apply back_Some in Hb as [i Hb].
    destruct (is_empty (points b)) eqn:He.
    + apply is_empty_true in He. rewrite Hb in Hm.
      destruct (closed b) eqn:Hcb.
      * rewrite (currentPath_closed q i b Hm Hcb) in H. cbn in H.
        apply app_inj_tail in H as [<- <-]. split; [reflexivity|]. left. congruence.
      * rewrite (currentPath_open q i b Hm Hcb), Hm in H.
        apply app_inj_tail in H as [<- <-]. split; [exact He|]. right. auto.
    + rewrite (currentPath_open q (paths_ p) SubPath_new Hm eq_refl), Hm in H.
      apply app_inj_tail in H as [<- <-]. auto.
  - apply back_None in Hb. rewrite Hb in Hm.
    rewrite (currentPath_none q Hm) in H. cbn in H.
    change [SubPath_new] with ([] ++ [SubPath_new]) in H.
    apply app_inj_tail in H as [<- <-]. rewrite Hb. auto.
Qed.

(** X3: Of two [moveTo] calls in a row the second, when it is absolute,
    makes the first one void: the path is the one that the second call
    alone leaves. *)
Theorem moveTo_twice (first second : Point) (relative : bool) (p : Path) :
  moveTo second false (moveTo first relative p) = moveTo second false p.
Proof.
  unfold moveTo at 1 3.
  rewrite moveTo_paths.
  destruct (back (paths_ p)) as [b|] eqn:Hb.
  - destruct (is_empty (points b)) eqn:He.
    + rewrite Hb, He. cbn [negb]. unfold moveTo. rewrite Hb, He. reflexivity.
    + rewrite back_snoc. cbn [negb is_empty points SubPath_new].
      unfold moveTo. rewrite Hb, He. cbn [negb].
      unfold startNewPath. rewrite Hb, He. reflexivity.
  - rewrite Hb. unfold moveTo. rewrite Hb. reflexivity.
Qed.

(** X4: [moveTo(from)] followed by [lineTo(to)], on any path and for two
    points that do not compare equal, leaves the segment from [from] to
    [to] as the last sub-path, open, and the sub-paths before it as they
    were (an open sub-path without points at the end is the one that is
    filled). *)
Theorem moveTo_lineTo_segment (from_ to_ : Point) (e : Env) :
  Point_eqb to_ from_ = false ->
  exists init sp,
    paths_ (self (lineTo to_ false (on_self (moveTo from_ false) e))) = init ++ [sp] /\
    points sp = [from_; to_] /\
    closed sp = false /\
    last_point_ (self (lineTo to_ false (on_self (moveTo from_ false) e))) = to_ /\
    (init = paths_ (self e) \/
     exists old, paths_ (self e) = init ++ [old] /\ points old = [] /\ closed old = false).
Proof.
  intros Hne.
  set (e1 := on_self (moveTo from_ false) e).
  destruct (currentPath_back (self e1)) as (init & cur & Hp & _).
  destruct (moveTo_current from_ false (self e) init cur Hp) as [Hempty Hinit].
  destruct (lineTo_paths to_ false e1 init cur Hp) as (H1 & H2 & _).
  cbv zeta in H1, H2. rewrite Hempty in H1, H2. cbn [is_empty] in H1, H2.
  unfold repeats in H1, H2. cbn [points] in H1, H2.
  change (back [last_point_ (self e1)]) with (Some (last_point_ (self e1))) in H1, H2.
  change (last_point_ (self e1)) with from_ in H1, H2.
  cbv iota in H1, H2. rewrite Hne in H1, H2.
  eexists init, _. split; [exact H1|]. cbn [points closed].
  repeat split; [exact H2|].
  destruct Hinit as [->|[Hold Hc]]; [left; reflexivity|].
  right. exists cur. split; [exact Hold|]. split; [exact Hempty | exact Hc].
Qed.
End MorePathFacts.

Lemma moveTo_lineTo_segment_witness :
  exists init sp,
    paths_ (self (lineTo (Plain.pt 1 1) false
                    (on_self (moveTo (Plain.pt 5 5) false) Plain.triangle_cached)))
      = init ++ [sp] /\
    points sp = [Plain.pt 5 5; Plain.pt 1 1].
Proof.
  destruct (@moveTo_lineTo_segment Plain.space (Plain.pt 5 5) (Plain.pt 1 1)
              Plain.triangle_cached) as (init & sp & H1 & H2 & _).
  - vm_compute. reflexivity.
  - exists init, sp. auto.
Defined.

(* ================================================================== *)
(** * What the drawing calls keep                                       *)
(* ================================================================== *)

Section DrawingFacts.
Context {space : Space}.
Local Existing Instance binary32.

(** A property of the sub-paths that an appended empty sub-path and
    [addPoint] keep is kept by every drawing call. *)
Section Preserved.
Variable Inv : Path -> Prop.
Hypothesis Inv_paths : forall p q, paths_ q = paths_ p -> Inv p -> Inv q.
Hypothesis Inv_new : forall p, Inv p -> Inv (with_paths (paths_ p ++ [SubPath_new]) p).
Hypothesis Inv_addPoint : forall point e, Inv (self e) -> Inv (self (addPoint point e)).

Lemma preserved_currentPath (p : Path) : Inv p -> Inv (currentPath p).
Proof.
  intros H.
  destruct (currentPath_back p) as (init & cur & Hp & _ & [[_ ->]|(Hp' & _ & _)]);
    [exact H|].
  apply (Inv_paths (with_paths (paths_ p ++ [SubPath_new]) p)); [exact Hp' | now apply Inv_new].
Qed.

Lemma preserved_moveTo (point : Point) (relative : bool) (p : Path) :
  Inv p -> Inv (moveTo point relative p).
Proof.
  intros H. pose proof (moveTo_paths point relative p) as Hm.
  destruct (back (paths_ p)) as [b|]; [destruct (is_empty (points b))|].
  - now apply (Inv_paths p).
  - apply (Inv_paths (with_paths (paths_ p ++ [SubPath_new]) p)); [exact Hm | now apply Inv_new].
  - now apply (Inv_paths p).
Qed.

Lemma preserved_with_smooth (c : Point) (e : Env) :
  Inv (self e) -> Inv (self (on_self (with_smooth c) e)).
Proof. apply Inv_paths. reflexivity. Qed.

Lemma preserved_curve_start (e : Env) :
  Inv (self e) ->
  Inv (self (if currentPath_empty (self (on_self currentPath e))
             then addPoint (last_point_ (self (on_self currentPath e)))
                    (on_self currentPath e)
             else on_self currentPath e)).
Proof.
  intros H. apply preserved_currentPath in H.
  destruct (currentPath_empty _); [apply Inv_addPoint|]; exact H.
Qed.

Lemma preserved_lineTo (point : Point) (relative : bool) (e : Env) :
  Inv (self e) -> Inv (self (lineTo point relative e)).
Proof.
  intros H. unfold lineTo.
  apply preserved_with_smooth, Inv_addPoint, preserved_curve_start, H.
Qed.

Lemma preserved_recurseBezierTo (fuel : nat) (from control1 control2 to : Point)
    (e e' : Env) :
  recurseBezierTo fuel from control1 control2 to e = Some e' ->
  Inv (self e) -> Inv (self e').
Proof.
  revert from control1 control2 to e e'.
  induction fuel as [|fuel IH]; intros from control1 control2 to e e'; simpl; [discriminate|].
  destruct (flat_enough (self e) from control1 control2 to).
  - intros [= <-]. apply Inv_addPoint.
  - destruct (recurseBezierTo fuel from _ _ _ e) as [e1|] eqn:E1; [|discriminate].
    intros E2 H. eapply IH; [exact E2|]. eapply IH; eauto.
Qed.

Lemma preserved_quadraticTo (fuel : nat) (control end_ : Point) (relative : bool)
    (e e' : Env) :
  quadraticTo fuel control end_ relative e = Some e' -> Inv (self e) -> Inv (self e').
Proof.
  unfold quadraticTo. intros E H. eapply preserved_recurseBezierTo; [exact E|].
  apply preserved_with_smooth, preserved_curve_start, H.
Qed.

Lemma preserved_bezierTo (fuel : nat) (control1 control2 end_ : Point) (relative : bool)
    (e e' : Env) :
  bezierTo fuel control1 control2 end_ relative e = Some e' -> Inv (self e) -> Inv (self e').
Proof.
  unfold bezierTo.
  destruct (recurseBezierTo _ _ _ _ _ _) as [e2|] eqn:E; [|discriminate].
  intros [= <-] H. apply preserved_with_smooth.
  eapply preserved_recurseBezierTo; [exact E|]. apply preserved_curve_start, H.
Qed.

Lemma preserved_drawing (fuel : nat) (op : EditOp) (e e' : Env) :
  drawing op = true -> Inv (self e) -> run fuel op e = Some e' -> Inv (self e').
Proof.
  intros Hop H. destruct op; try discriminate; simpl; try (intros [= <-]).
  - now apply preserved_moveTo.
  - now apply preserved_lineTo.
  - unfold verticalTo. apply preserved_with_smooth, preserved_lineTo, H.
  - unfold horizontalTo. apply preserved_with_smooth, preserved_lineTo, H.
  - intros E. eapply preserved_quadraticTo; eauto.
  - intros E. eapply preserved_quadraticTo; eauto.
  - intros E. eapply preserved_bezierTo; eauto.
  - intros E. eapply preserved_bezierTo; eauto.
Qed.
End Preserved.

Lemma distinct_neighbours_snoc (l : list Point) (x : Point) :
  distinct_neighbours (l ++ [x]) =
    distinct_neighbours l &&
    match back l with
    | Some b => negb (Point_eqb x b)
    | None => true
    end.
Proof.
  induction l as [|a l IH]; [reflexivity|].
  destruct l as [|b l].
  - cbn. now rewrite andb_true_r.
  - change ((a :: b :: l) ++ [x]) with (a :: (b :: l) ++ [x]).
    change (distinct_neighbours (a :: (b :: l) ++ [x]))
      with (negb (Point_eqb b a) && distinct_neighbours ((b :: l) ++ [x])).
    rewrite IH.
    change (distinct_neighbours (a :: b :: l))
      with (negb (Point_eqb b a) && distinct_neighbours (b :: l)).
    change (back (a :: b :: l)) with (back (b :: l)).
    now rewrite andb_assoc.
Qed.

(** X5: The drawing calls ([moveTo], the line calls and the curve calls)
    never add a segment between two points that compare equal: in a
    path without such a segment they leave none. *)
Theorem drawing_adds_no_empty_segment (fuel : nat) (op : EditOp) (e e' : Env) :
  drawing op = true ->
  no_empty_segment (self e) ->
  run fuel op e = Some e' ->
  no_empty_segment (self e').
Proof.
  apply (preserved_drawing no_empty_segment).
  - unfold no_empty_segment. now intros p q ->.
  - unfold no_empty_segment. intros p H. cbn. apply Forall_app. split; [exact H|].
    now constructor.
  - unfold no_empty_segment. intros point e0 H.
    destruct (currentPath_back (self e0)) as (init & cur & Hp & _ & Hcases).
    rewrite (addPoint_paths point e0 init cur Hp).
    assert (Hcur : Forall (fun sp => distinct_neighbours (points sp) = true) (init ++ [cur])).
    { destruct Hcases as [[<- _]|(_ & -> & ->)]; [exact H|].
      apply Forall_app. split; [exact H | now constructor]. }
    apply Forall_app in Hcur as [Hi Hc]. apply Forall_app. split; [exact Hi|].
    constructor; [|constructor]. apply Forall_inv in Hc.
    unfold repeats. destruct (back (points cur)) as [b|] eqn:Hb.
    + destruct (Point_eqb point b) eqn:E; [exact Hc|].
      cbn [points]. now rewrite distinct_neighbours_snoc, Hc, Hb, E.
    + cbn [points]. now rewrite distinct_neighbours_snoc, Hc, Hb.
Qed.

Lemma ends_at_paths (to : Point) (p q : Path) :
  paths_ q = paths_ p -> ends_at to p -> ends_at to q.
Proof. unfold ends_at. now intros ->. Qed.

Lemma curve_start_last_point (e : Env) :
  last_point_ (self (if currentPath_empty (self (on_self currentPath e))
                     then addPoint (last_point_ (self (on_self currentPath e)))
                            (on_self currentPath e)
                     else on_self currentPath e))
  = last_point_ (self e).
Proof.
  assert (H0 : last_point_ (self (on_self currentPath e)) = last_point_ (self e))
    by (cbn; now rewrite currentPath_fields).
  destruct (currentPath_empty _); [|exact H0].
  destruct (currentPath_back (self (on_self currentPath e))) as (init & cur & Hp & _).
  destruct (addPoint_members (last_point_ (self (on_self currentPath e)))
              (on_self currentPath e) init cur Hp) as [Hl _].
  rewrite Hl, H0. destruct (repeats (last_point_ (self e)) cur); reflexivity.
Qed.

(** X6: A line or curve call that returns leaves the polyline under
    construction ending at its target (the end point of the call, taken
    from the current point when the call is relative), and it removes no
    point. *)
Theorem drawing_ends_at_target (fuel : nat) (op : EditOp) (e e' : Env) (to : Point) :
  target op (self e) = Some to ->
  run fuel op e = Some e' ->
  ends_at to (self e') /\ (numPoints (self e) <= numPoints (self e'))%nat.
Proof.
  intros Ht Hrun. split.
  - destruct op; try discriminate; simpl in Ht, Hrun; injection Ht as <-.
    + injection Hrun as <-. unfold lineTo. rewrite curve_start_last_point.
      eapply ends_at_paths; [|apply addPoint_ends_at]. reflexivity.
    + injection Hrun as <-. unfold verticalTo, lineTo.
      eapply ends_at_paths; [|apply addPoint_ends_at]. reflexivity.
    + injection Hrun as <-. unfold horizontalTo, lineTo.
      eapply ends_at_paths; [|apply addPoint_ends_at]. reflexivity.
    + unfold quadraticTo in Hrun. rewrite curve_start_last_point in Hrun.
      exact (recurseBezierTo_ends_at _ _ _ _ _ _ _ Hrun).
    + unfold smoothQuadraticTo, quadraticTo in Hrun.
      exact (recurseBezierTo_ends_at _ _ _ _ _ _ _ Hrun).
    + unfold bezierTo in Hrun. rewrite curve_start_last_point in Hrun.
      destruct (recurseBezierTo _ _ _ _ _ _) as [e2|] eqn:E; [|discriminate].
      injection Hrun as <-.
      eapply ends_at_paths; [|exact (recurseBezierTo_ends_at _ _ _ _ _ _ _ E)]. reflexivity.
    + unfold smoothBezierTo, bezierTo in Hrun.
      destruct (recurseBezierTo _ _ _ _ _ _) as [e2|] eqn:E; [|discriminate].
      injection Hrun as <-.
      eapply ends_at_paths; [|exact (recurseBezierTo_ends_at _ _ _ _ _ _ _ E)]. reflexivity.
  - assert (Hd : drawing op = true) by (destruct op; try discriminate; reflexivity).
    apply (preserved_drawing (fun p => (numPoints (self e) <= numPoints p)%nat)
             ltac:(cbv beta; intros p q Hq; rewrite !numPoints_count, Hq; auto)
             ltac:(cbv beta; intros p; rewrite !numPoints_count; cbn [paths_ with_paths];
                   rewrite count_points_snoc; cbn; lia)
             ltac:(cbv beta; intros point e0; rewrite numPoints_addPoint;
                   destruct (duplicate point (self e0)); lia)
             fuel op e e' Hd); [lia | exact Hrun].
Qed.
End DrawingFacts.

Lemma drawing_adds_no_empty_segment_witness :
  no_empty_segment (self (lineTo (Plain.pt 1 1) false Plain.triangle_cached)).
Proof.
  apply (@drawing_adds_no_empty_segment Plain.space 0 (LineTo (Plain.pt 1 1) false)
           Plain.triangle_cached).
  - reflexivity.
  - constructor; [vm_compute; reflexivity | constructor].
  - reflexivity.
Defined.

Lemma drawing_ends_at_target_witness :
  ends_at (Plain.pt 1 1) (self (lineTo (Plain.pt 1 1) false Plain.triangle_cached)) /\
  (numPoints (self Plain.triangle_cached)
   <= numPoints (self (lineTo (Plain.pt 1 1) false Plain.triangle_cached)))%nat.
Proof.
  apply (@drawing_ends_at_target Plain.space 0 (LineTo (Plain.pt 1 1) false)
           Plain.triangle_cached).
  - reflexivity.
  - reflexivity.
Defined.

(* ================================================================== *)
(** * [close] on a closed sub-path, [reverse], and the cache            *)
(* ================================================================== *)

Section MoreCloseFacts.
Context {space : Space}.
Local Existing Instance binary32.

Lemma set_back_same {A} (l : list A) (x : A) : back l = Some x -> set_back x l = l.
Proof. intros [init ->]%back_Some. apply set_back_snoc. Qed.

(** X7: [close()] on a path whose last sub-path is closed already (its ends
    coincide and are finite) appends an empty closed sub-path and sets
    [last_point_]; the points, the cached graph and the free store stay
    as they are.  A further [close()] changes nothing. *)
Theorem close_closed_subpath (e : Env) (init : list SubPath) (sp : SubPath) (first : Point) :
  paths_ (self e) = init ++ [sp] ->
  closed sp = true ->
  front (points sp) = Some first ->
  back (points sp) = Some first ->
  Point_finite first = true ->
  close e =
    mkEnv (with_last_point first
             (with_paths (paths_ (self e) ++ [SubPath_closed_empty]) (self e)))
      (heap e) /\
  numPoints (self (close e)) = numPoints (self e) /\
  close (close e) = close e.
Proof.
  intros Hp Hc Hf Hl Hfin.
  assert (Hclose : close e =
            mkEnv (with_last_point first
                     (with_paths (paths_ (self e) ++ [SubPath_closed_empty]) (self e)))
              (heap e)).
  { unfold close. rewrite Hp, back_snoc, Hf, Hl.
    fold (snaps first first).
    rewrite (snaps_equal_finite first first Hfin Hfin (Point_eqb_refl_finite first Hfin)).
    destruct e as [p h]. cbn [self heap] in *.
    unfold on_self, on_currentPath. cbn [self heap]. f_equal.
    match goal with |- context [currentPath ?q] =>
      assert (Hq : paths_ q = init ++ [sp])
    end.
    { cbn [paths_ with_paths with_last_point]. rewrite Hp, alter_back_snoc.
      rewrite (set_back_same _ _ Hl). now destruct sp. }
    rewrite (currentPath_closed _ init sp Hq Hc).
    cbn [paths_ with_paths]. rewrite Hq, alter_back_snoc.
    destruct p; reflexivity. }
  split; [exact Hclose|]. split.
  - rewrite Hclose. cbn [self]. rewrite !numPoints_count. cbn [paths_ with_paths with_last_point].
    rewrite count_points_snoc. cbn. lia.
  - rewrite Hclose. unfold close. cbn [self paths_ with_paths with_last_point].
    rewrite back_snoc. reflexivity.
Qed.

(** X8: Reversing a path twice gives the path back. *)
Theorem reverse_involutive (p : Path) : reverse (reverse p) = p.
Proof.
  assert (H : forall ps : list SubPath,
            map (fun path => mkSubPath (rev (points path)) (rev (values path)) (closed path))
              (map (fun path => mkSubPath (rev (points path)) (rev (values path))
                                  (closed path)) ps) = ps).
  { induction ps as [|[pts vs c] ps IH]; [reflexivity|].
    cbn [map points values closed]. now rewrite !rev_involutive, IH. }
  destruct p as [m ps g r sc lp cv tol]. unfold reverse, with_paths.
  cbn [paths_ resolution_matrix_ triangulation_graph_ fill_rule_ smooth_control_point_
       last_point_ current_value_ error_tolerance_].
  now rewrite H.
Qed.
End MoreCloseFacts.

Section StaleCacheFacts.
Context {space : Space} {cpp : PathCpp}.
Local Existing Instance binary32.



(** X10: The copy-returning calls [scaled], [translated], [rotated],
    [transformed] and [reversed] are the in-place call on a copy of the
    path.  Without a cached graph the free store stays as it is; with
    one, the result manages a clone of it at a new address (a clone of
    the graph of the path as it was before the call), and the graph of
    the source stays where and as it is. *)
Theorem copy_calls_clone_cached_graph (op : CopyOp) (this : Path) (h : Heap) :
  (triangulation_graph_ this = None ->
     run_copy op this h = Some (mkEnv (in_place op this) h)) /\
  (forall a g,
     triangulation_graph_ this = Some a -> h !! a = Some g ->
     let a' := fresh (dom h) in
     let h' := <[a' := TriangulationGraph_copy a' g]> h in
     run_copy op this h = Some (mkEnv (in_place op (with_graph (Some a') this)) h') /\
     triangulation_graph_ (in_place op (with_graph (Some a') this)) = Some a' /\
     a' <> a /\ h' !! a = Some g).
Proof.
  split.
  - intros Hn.
    assert (Hc : Path_copy this h = Some (mkEnv this h)).
    { unfold Path_copy. rewrite Hn. cbn. now destruct this; cbn in *; subst. }
    destruct op; cbn; unfold scaled, translated, rotated, transformed, reversed;
      now rewrite Hc.
  - intros a g Ha Hg a' h'.
    assert (Hc : Path_copy this h = Some (mkEnv (with_graph (Some a') this) h')).
    { unfold Path_copy, clone_ptr_copy, make_unique. now rewrite Ha, Hg. }
    assert (Hne : a' <> a) by exact (fresh_not_alive h a g Hg).
    repeat split.
    + destruct op; cbn; unfold scaled, translated, rotated, transformed, reversed;
        now rewrite Hc.
    + now destruct op.
    + exact Hne.
    + unfold h'. now rewrite lookup_insert_ne.
Qed.
End StaleCacheFacts.

Section MoreDivergence.
Context {space : Space}.
Local Existing Instance binary32.

Lemma flat_enough_nan_matrix (p : Path) (from control1 control2 : Point) :
  is_nan (px (Matrix_apply (resolution_matrix_ p) Plain.nan_point)) = true ->
  flat_enough p from control1 control2 Plain.nan_point = false.
Proof.
  intros H. unfold flat_enough. rewrite !deltaFromLine_nan.
  unfold squareMagnitude.
  destruct (px (Matrix_apply (resolution_matrix_ p) Plain.nan_point)); try discriminate.
  reflexivity.
Qed.

Lemma recurseBezierTo_nan (fuel : nat) (from control1 control2 : Point) (e : Env) :
  is_nan (px (Matrix_apply (resolution_matrix_ (self e)) Plain.nan_point)) = true ->
  recurseBezierTo fuel from control1 control2 Plain.nan_point e = None.
Proof.
  intros H. revert from control1 control2.
  induction fuel as [|fuel IH]; intros from control1 control2; simpl; [reflexivity|].
  rewrite (flat_enough_nan_matrix _ _ _ _ H).
  unfold deCasteljau. cbn [mid1 midmid1 break_point midmid2 mid3].
  rewrite !mid_nan_r. now rewrite IH.
Qed.

Lemma curve_start_matrix (e : Env) :
  resolution_matrix_
    (self (if currentPath_empty (self (on_self currentPath e))
           then addPoint (last_point_ (self (on_self currentPath e)))
                  (on_self currentPath e)
           else on_self currentPath e))
  = resolution_matrix_ (self e).
Proof.
  assert (H0 : resolution_matrix_ (self (on_self currentPath e))
               = resolution_matrix_ (self e))
    by (cbn; now rewrite currentPath_fields).
  destruct (currentPath_empty _); [|exact H0].
  destruct (currentPath_back (self (on_self currentPath e))) as (init & cur & Hp & _).
  destruct (addPoint_members (last_point_ (self (on_self currentPath e)))
              (on_self currentPath e) init cur Hp) as (_ & _ & _ & _ & Hm & _).
  now rewrite Hm.
Qed.

(** X11: The subdivision has no depth limit.  When the resolution matrix of
    the path maps a point without numbers to a point whose x is not a
    number, no curve towards an end point without numbers ever passes
    the flatness test: the absolute curve calls do not return, whatever
    the depth allowed. *)
Theorem curve_to_nan_never_returns (e : Env) :
  is_nan (px (Matrix_apply (resolution_matrix_ (self e)) Plain.nan_point)) = true ->
  forall fuel control1 control2,
    run fuel (BezierTo control1 control2 Plain.nan_point false) e = None /\
    run fuel (QuadraticTo control1 Plain.nan_point false) e = None.
Proof.
  intros H fuel control1 control2. simpl. split.
  - unfold bezierTo. cbv zeta iota. rewrite recurseBezierTo_nan; [reflexivity|].
    now rewrite curve_start_matrix.
  - unfold quadraticTo. cbv zeta iota. apply recurseBezierTo_nan.
    change (resolution_matrix_ (self (on_self (with_smooth ?c) ?x)))
      with (resolution_matrix_ (self x)).
    now rewrite curve_start_matrix.
Qed.
End MoreDivergence.

Lemma close_closed_subpath_witness :
  numPoints (self (close (@mkEnv Plain.space Samples.closed_triangle_path ∅))) = 4%nat.
Proof.
  apply (@close_closed_subpath Plain.space
           (@mkEnv Plain.space Samples.closed_triangle_path ∅) []
           Samples.closed_triangle (Plain.pt 0 0)); reflexivity.
Defined.


Lemma copy_calls_clone_cached_graph_witness :
  @run_copy Plain.space Reversed Plain.triangle_path ∅
    = Some (@mkEnv Plain.space (reverse Plain.triangle_path) ∅) /\
  fresh (dom (heap Plain.triangle_cached)) <> 1%positive.
Proof.
  split.
  - apply (proj1 (@copy_calls_clone_cached_graph Plain.space Reversed Plain.triangle_path ∅)).
    reflexivity.
  - apply (proj2 (@copy_calls_clone_cached_graph Plain.space (Scaled f32_two)
                    (self Plain.triangle_cached) (heap Plain.triangle_cached))
             1%positive
             (Plain.graph_of_path Plain.Affine_identity Plain.triangle_path 1%positive));
      reflexivity.
Defined.

Lemma curve_to_nan_never_returns_witness :
  @run Plain.space 64 (BezierTo (Plain.pt 1 5) (Plain.pt 3 5) Plain.nan_point false)
    Plain.triangle_cached = None.
Proof.
  exact (proj1 (@curve_to_nan_never_returns Plain.space Plain.triangle_cached
                  ltac:(vm_compute; reflexivity) 64%nat (Plain.pt 1 5) (Plain.pt 3 5))).
Defined.

(* ================================================================== *)
(** * The bounding box of a path with points                            *)
(* ================================================================== *)

Lemma fle_refl (a : spec_float) : is_nan a = false -> fle a a = true.
Proof. intros H. unfold fle, SFleb. now rewrite (SFcompare_refl a H). Qed.

Lemma fle_trans (a b c : spec_float) : fle a b = true -> fle b c = true -> fle a c = true.
Proof.
  unfold fle, SFleb.
  destruct (SFcompare a b) as [x|] eqn:E1; [|discriminate].
  destruct (SFcompare b c) as [y|] eqn:E2; [|destruct x; discriminate].
  intros Hx Hy.
  rewrite (SFcompare_trans a b c x y E1 E2) by (destruct x, y; discriminate).
  now destruct x, y.
Qed.

Lemma flt_fle (a b : spec_float) : flt a b = true -> fle a b = true.
Proof. unfold flt, fle, SFltb, SFleb. now destruct (SFcompare a b) as [[]|]. Qed.

Lemma flt_not_nan (a b : spec_float) : flt a b = true -> is_nan a = false /\ is_nan b = false.
Proof.
  unfold flt, SFltb. destruct (SFcompare a b) as [c|] eqn:E; [|discriminate].
  intros _. exact (SFcompare_not_nan a b c E).
Qed.

(** Two numbers are ordered one way or the other. *)
Lemma not_flt_fle (a b : spec_float) :
  is_nan a = false -> is_nan b = false -> flt a b = false -> fle b a = true.
Proof.
  intros Ha Hb. unfold flt, fle, SFltb, SFleb.
  destruct (SFcompare_Some a b Ha Hb) as [c E]. rewrite E, (SFcompare_antisym _ _ _ E).
  now destruct c.
Qed.

(** The running minimum of [std::min] over a list, from a start value
    that is a number: it is a number, it is below the start value and
    below every number of the list, and it is the start value or a member
    of the list.  Values that are not numbers are passed over. *)
Lemma fold_std_min (xs : list spec_float) (acc : spec_float) :
  is_nan acc = false ->
  let m := fold_left std_min xs acc in
  is_nan m = false /\ fle m acc = true /\
  (forall x, In x xs -> is_nan x = false -> fle m x = true) /\
  (m = acc \/ In m xs).
Proof.
  revert acc. induction xs as [|x xs IH]; intros acc Hacc; cbn [fold_left].
  - repeat split; [exact Hacc | now apply fle_refl | intros x [] | now left].
  - change (std_min acc x) with (if flt x acc then x else acc).
    destruct (flt x acc) eqn:E.
    + destruct (flt_not_nan _ _ E) as [Hx _].
      destruct (IH x Hx) as (H1 & H2 & H3 & H4). repeat split.
      * exact H1.
      * eapply fle_trans; [exact H2 | apply flt_fle; exact E].
      * intros y [<-|Hy] Hn; [exact H2 | now apply H3].
      * right. destruct H4 as [->|H4]; [now left | now right].
    + destruct (IH acc Hacc) as (H1 & H2 & H3 & H4). repeat split.
      * exact H1.
      * exact H2.
      * intros y [<-|Hy] Hn; [|now apply H3].
        eapply fle_trans; [exact H2 | now apply not_flt_fle].
      * destruct H4 as [->|H4]; [now left | right; now right].
Qed.

Lemma fold_std_max (xs : list spec_float) (acc : spec_float) :
  is_nan acc = false ->
  let m := fold_left std_max xs acc in
  is_nan m = false /\ fle acc m = true /\
  (forall x, In x xs -> is_nan x = false -> fle x m = true) /\
  (m = acc \/ In m xs).
Proof.
  revert acc. induction xs as [|x xs IH]; intros acc Hacc; cbn [fold_left].
  - repeat split; [exact Hacc | now apply fle_refl | intros x [] | now left].
  - change (std_max acc x) with (if flt acc x then x else acc).
    destruct (flt acc x) eqn:E.
    + destruct (flt_not_nan _ _ E) as [_ Hx].
      destruct (IH x Hx) as (H1 & H2 & H3 & H4). repeat split.
      * exact H1.
      * eapply fle_trans; [apply flt_fle; exact E | exact H2].
      * intros y [<-|Hy] Hn; [exact H2 | now apply H3].
      * right. destruct H4 as [->|H4]; [now left | now right].
    + destruct (IH acc Hacc) as (H1 & H2 & H3 & H4). repeat split.
      * exact H1.
      * exact H2.
      * intros y [<-|Hy] Hn; [|now apply H3].
        eapply fle_trans; [|exact H2]. now apply not_flt_fle.
      * destruct H4 as [->|H4]; [now left | right; now right].
Qed.

Section BoundingBoxFacts.
Context {space : Space}.
Local Existing Instance binary32.

(** The four running values of [boundingBox] are the running minima and
    maxima of the coordinates. *)
Lemma fold_bounds_step (pts : list Point) (a b c d : float) :
  fold_left
    (fun (acc : float * float * float * float) (point : Point) =>
       let '(min_x, min_y, max_x, max_y) := acc in
       (std_min min_x (px point), std_min min_y (py point),
        std_max max_x (px point), std_max max_y (py point)))
    pts (a, b, c, d)
  = (fold_left std_min (map px pts) a, fold_left std_min (map py pts) b,
     fold_left std_max (map px pts) c, fold_left std_max (map py pts) d).
Proof.
  revert a b c d. induction pts as [|pt pts IH]; intros a b c d; [reflexivity|].
  cbn [fold_left map]. apply IH.
Qed.

Lemma fold_sub_paths {A} (step : A -> Point -> A) (ps : list SubPath) (acc : A) :
  fold_left (fun acc path => fold_left step (points path) acc) ps acc
  = fold_left step (concat (map points ps)) acc.
Proof.
  revert acc. induction ps as [|sp ps IH]; intros acc; [reflexivity|].
  cbn [fold_left map concat]. now rewrite fold_left_app, IH.
Qed.

Lemma boundingBox_unfold (p : Path) :
  let min_x := fold_left std_min (map px (all_points p)) FLT_MAX in
  let min_y := fold_left std_min (map py (all_points p)) FLT_MAX in
  let max_x := fold_left std_max (map px (all_points p)) (fneg FLT_MAX) in
  let max_y := fold_left std_max (map py (all_points p)) (fneg FLT_MAX) in
  boundingBox p =
    if fgt min_x max_x || fgt min_y max_y then mkBounds zero zero zero zero
    else mkBounds min_x min_y (fsub max_x min_x) (fsub max_y min_y).
Proof.
  cbv zeta. unfold boundingBox.
  rewrite fold_sub_paths, fold_bounds_step. reflexivity.
Qed.

(** X12: The bounding box of a path that has a point, and whose coordinates
    are all numbers, contains every point of the path: its corner
    [(x, y)] is below every point, its width and height are
    [max_x - x] and [max_y - y] for two values [max_x] and [max_y] above
    every point, and each of the four values is a coordinate of a point
    of the path or the start value of the search ([FLT_MAX] and
    [-FLT_MAX]). *)
Theorem boundingBox_contains_points (p : Path) :
  all_points p <> [] ->
  (forall pt, In pt (all_points p) -> is_nan (px pt) = false /\ is_nan (py pt) = false) ->
  exists max_x max_y,
    bwidth (boundingBox p) = fsub max_x (bx (boundingBox p)) /\
    bheight (boundingBox p) = fsub max_y (by_ (boundingBox p)) /\
    (forall pt, In pt (all_points p) ->
       fle (bx (boundingBox p)) (px pt) = true /\ fle (px pt) max_x = true /\
       fle (by_ (boundingBox p)) (py pt) = true /\ fle (py pt) max_y = true) /\
    (bx (boundingBox p) = FLT_MAX \/ In (bx (boundingBox p)) (map px (all_points p))) /\
    (by_ (boundingBox p) = FLT_MAX \/ In (by_ (boundingBox p)) (map py (all_points p))) /\
    (max_x = fneg FLT_MAX \/ In max_x (map px (all_points p))) /\
    (max_y = fneg FLT_MAX \/ In max_y (map py (all_points p))).
Proof.
  intros Hne Hnum. rewrite boundingBox_unfold. cbv zeta.
  destruct (fold_std_min (map px (all_points p)) FLT_MAX eq_refl) as (_ & _ & Hminx & Hmx).
  destruct (fold_std_min (map py (all_points p)) FLT_MAX eq_refl) as (_ & _ & Hminy & Hmy).
  destruct (fold_std_max (map px (all_points p)) (fneg FLT_MAX) eq_refl)
    as (_ & _ & Hmaxx & HMx).
  destruct (fold_std_max (map py (all_points p)) (fneg FLT_MAX) eq_refl)
    as (_ & _ & Hmaxy & HMy).
  cbv zeta in Hminx, Hminy, Hmaxx, Hmaxy, Hmx, Hmy, HMx, HMy.
  set (min_x := fold_left std_min (map px (all_points p)) FLT_MAX) in *.
  set (min_y := fold_left std_min (map py (all_points p)) FLT_MAX) in *.
  set (max_x := fold_left std_max (map px (all_points p)) (fneg FLT_MAX)) in *.
  set (max_y := fold_left std_max (map py (all_points p)) (fneg FLT_MAX)) in *.
  assert (Hin : forall pt, In pt (all_points p) ->
            fle min_x (px pt) = true /\ fle (px pt) max_x = true /\
            fle min_y (py pt) = true /\ fle (py pt) max_y = true).
  { intros pt Hpt. destruct (Hnum pt Hpt) as [Hx Hy].
    repeat split; [apply Hminx | apply Hmaxx | apply Hminy | apply Hmaxy];
      try assumption; now apply in_map. }
  destruct (all_points p) as [|pt0 rest] eqn:Hall; [congruence|].
  destruct (Hin pt0 (or_introl eq_refl)) as (H1 & H2 & H3 & H4).
  rewrite (fle_not_fgt _ _ (fle_trans _ _ _ H1 H2)).
  rewrite (fle_not_fgt _ _ (fle_trans _ _ _ H3 H4)).
  cbn [orb bx by_ bwidth bheight].
  exists max_x, max_y. repeat split; try assumption; apply Hin; assumption.
Qed.
End BoundingBoxFacts.

Lemma boundingBox_contains_points_witness :
  fle (bx (@boundingBox Plain.space Plain.triangle_path)) (px (Plain.pt 4 0)) = true.
Proof.
  destruct (@boundingBox_contains_points Plain.space Plain.triangle_path)
    as (max_x & max_y & _ & _ & H & _).
  - discriminate.
  - intros pt [<-|[<-|[<-|[]]]]; split; reflexivity.
  - apply (H (Plain.pt 4 0)). right. left. reflexivity.
Defined.

(* ================================================================== *)
(** * The length of a path and a polygon built call by call             *)
(* ================================================================== *)

Section LengthFacts.
Context {space : Space}.
Local Existing Instance binary32.
Variable Point_length : Point -> float.

(** X13: [length()] counts a segment for every point after the first one of
    a sub-path, and the closing segment only when the sub-path is closed
    and has more than two points.  A path whose sub-paths have at most
    one point each has the length 0, closed or not; a single sub-path of
    two points has the length of its one segment, closed or not. *)
Theorem Path_length_few_points (p : Path) :
  (Forall (fun sp => (length (points sp) <= 1)%nat) (paths_ p) ->
   Path_length Point_length p = zero) /\
  (forall a b vs c,
     paths_ p = [mkSubPath [a; b] vs c] ->
     Path_length Point_length p = fadd zero (Point_length (Point_sub b a))).
Proof.
  split.
  - unfold Path_length. generalize zero as total.
    induction (paths_ p) as [|sp ps IH]; intros total H; [reflexivity|].
    apply Forall_cons in H as [Hsp Hps]. cbn [fold_left]. rewrite IH by assumption.
    destruct (points sp) as [|a [|b l]]; cbn in Hsp |- *; try lia;
      now rewrite andb_false_r.
  - intros a b vs c Hp. unfold Path_length. rewrite Hp. cbn.
    now rewrite andb_false_r.
Qed.
End LengthFacts.

Lemma Path_length_few_points_witness :
  @Path_length Plain.space Samples.sqrt_length Samples.dots_path = zero.
Proof.
  apply (proj1 (@Path_length_few_points Plain.space Samples.sqrt_length Samples.dots_path)).
  repeat constructor.
Defined.

Section PolygonFacts.
Context {space : Space}.
Local Existing Instance binary32.

Lemma distinct_neighbours_app (l r : list Point) (x : Point) :
  distinct_neighbours (l ++ x :: r) = true ->
  repeats x (mkSubPath l [] false) = false /\ distinct_neighbours ((l ++ [x]) ++ r) = true.
Proof.
  intros H. split; [|now rewrite <- app_assoc].
  unfold repeats. cbn [points].
  destruct (snoc_cases l) as [->|(init & b & ->)]; [reflexivity|].
  rewrite back_snoc. rewrite <- app_assoc in H. cbn [app] in H.
  clear -H. induction init as [|a init IH].
  - cbn in H. apply andb_prop in H as [H _]. now apply negb_true_iff in H.
  - apply IH. destruct init; cbn in H |- *; now apply andb_prop in H as [_ H].
Qed.

(** A run of absolute [lineTo] calls on a sub-path that has a point. *)
Lemma polyline_paths (rest : list Point) (e : Env) (init : list SubPath) (cur : SubPath) :
  paths_ (self e) = init ++ [cur] ->
  closed cur = false ->
  points cur <> [] ->
  distinct_neighbours (points cur ++ rest) = true ->
  paths_ (self (fold_left (fun e point => lineTo point false e) rest e)) =
    init ++ [mkSubPath (points cur ++ rest)
               (values cur ++ replicate (length rest) (current_value_ (self e))) false].
Proof.
  revert e cur. induction rest as [|x rest IH]; intros e cur Hp Hc Hne Hd.
  - cbn. rewrite !app_nil_r, Hp. now destruct cur; cbn in *; subst.
  - cbn [fold_left].
    assert (Hcp : paths_ (currentPath (self e)) = init ++ [cur])
      by now rewrite (currentPath_open _ _ _ Hp Hc).
    destruct (lineTo_paths x false e init cur Hcp) as (H1 & _ & H3).
    cbv zeta in H1, H3.
    replace (is_empty (points cur)) with false in H1
      by (destruct (points cur); [congruence | reflexivity]).
    destruct (distinct_neighbours_app _ _ _ Hd) as [Hr Hd'].
    assert (Hr' : repeats x cur = false) by exact Hr.
    rewrite Hr' in H1.
    rewrite (IH _ _ H1 eq_refl); cbn [points values].
    + rewrite H3, <- !app_assoc. reflexivity.
    + now destruct (points cur).
    + exact Hd'.
Qed.

(** [moveTo] to the first vertex and [lineTo] to the others, on a path
    without sub-paths. *)
Lemma polygon_paths (first second : Point) (rest : list Point) (e : Env) :
  paths_ (self e) = [] ->
  distinct_neighbours (first :: second :: rest) = true ->
  paths_ (self (fold_left (fun e point => lineTo point false e) (second :: rest)
                  (on_self (moveTo first false) e))) =
    [mkSubPath (first :: second :: rest)
       (replicate (S (S (length rest))) (current_value_ (self e))) false].
Proof.
  intros Hp Hd. cbn [fold_left].
  set (e1 := on_self (moveTo first false) e).
  assert (Hp1 : paths_ (self e1) = []).
  { unfold e1, on_self. cbn [self]. rewrite moveTo_paths, Hp. reflexivity. }
  assert (Hv1 : current_value_ (self e1) = current_value_ (self e)).
  { cbn. unfold moveTo. rewrite Hp. reflexivity. }
  assert (Hcp : paths_ (currentPath (self e1)) = [] ++ [SubPath_new])
    by now rewrite (currentPath_none _ Hp1).
  destruct (lineTo_paths second false e1 [] SubPath_new Hcp) as (H1 & _ & H3).
  cbv zeta in H1, H3. cbn [is_empty points SubPath_new values app] in H1.
  change (last_point_ (self e1)) with first in H1.
  assert (Hr : repeats second (mkSubPath [first] [current_value_ (self e1)] false) = false).
  { unfold repeats. cbn. cbn in Hd. apply andb_prop in Hd as [Hd _].
    now apply negb_true_iff in Hd. }
  rewrite Hr in H1. cbn [points values app] in H1.
  rewrite (polyline_paths rest _ [] _ H1 eq_refl); cbn [points values app].
  - now rewrite H3, Hv1.
  - discriminate.
  - exact Hd.
Qed.

Lemma kept_none (e e' : Env) :
  kept_or_discarded e e' -> triangulation_graph_ (self e) = None ->
  triangulation_graph_ (self e') = None /\ heap e' = heap e.
Proof.
  intros [(Hh & Hg & _)|(Hg & Hh)] Hn.
  - split; congruence.
  - rewrite Hn in Hh. auto.
Qed.

(** X14: [starPath] of the example: when no two vertices in a row compare
    equal, the path it returns consists of one closed sub-path with the
    ten vertices in the order of the loop, closed by [close()] (the last
    vertex is moved onto the first when they are closer than [close()]
    tells apart, and a copy of the first vertex is appended otherwise);
    every point carries the value 0, and the free store is as before. *)
Theorem starPath_is_closed_polygon (center_x center_y radius : float) (h : Heap) :
  let vertices := map (star_vertex center_x center_y radius) (map Z.of_nat (seq 0 10)) in
  let first := star_vertex center_x center_y radius 0 in
  let last := star_vertex center_x center_y radius 9 in
  distinct_neighbours vertices = true ->
  paths_ (self (starPath center_x center_y radius h)) =
    [mkSubPath (closed_points first last vertices)
       (replicate (length (closed_points first last vertices)) zero) true] /\
  heap (starPath center_x center_y radius h) = h.
Proof.
  cbv zeta. intros Hd. unfold starPath.
  set (e0 := @mkEnv space Path_new h).
  set (vertex := star_vertex center_x center_y radius) in *.
  assert (Hfold : fold_left (star_step center_x center_y radius) (map Z.of_nat (seq 0 10)) e0
                  = fold_left (fun e point => lineTo point false e)
                      (map vertex (map Z.of_nat (seq 1 9)))
                      (on_self (moveTo (vertex 0) false) e0)) by reflexivity.
  rewrite Hfold. clear Hfold.
  set (e1 := fold_left _ _ _).
  assert (Hp : paths_ (self e1) =
            [mkSubPath (map vertex (map Z.of_nat (seq 0 10))) (replicate 10 zero) false]).
  { unfold e1. exact (polygon_paths (vertex 0) (vertex 1)
                        (map vertex (map Z.of_nat (seq 2 8))) e0 eq_refl Hd). }
  assert (Hk : kept_or_discarded e0 e1).
  { unfold e1. cbn [map seq fold_left].
    repeat (eapply kept_trans; [|apply kept_lineTo]).
    apply kept_on_self, quiet_moveTo. }
  destruct (kept_none _ _ Hk eq_refl) as [Hg1 Hh1].
  destruct (kept_none _ _ (kept_close e1) Hg1) as [_ Hh2].
  split; [|now rewrite Hh2, Hh1].
  assert (Hv : current_value_ (self e1) = zero).
  { unfold e1. cbn [map seq fold_left].
    repeat match goal with
    | |- current_value_ (self (lineTo ?x false ?e)) = _ =>
        destruct (currentPath_back (self e)) as (i & c & Hic & _);
        destruct (lineTo_paths x false e i c Hic) as (_ & _ & ->); clear i c Hic
    end.
    reflexivity. }
  rewrite (close_paths e1 [] _ (vertex 0) (vertex 9) Hp eq_refl eq_refl).
  unfold closed_points. cbn [points values closed app].
  destruct (snaps (vertex 0) (vertex 9)); [reflexivity|].
  destruct (Point_neb (vertex 0) (vertex 9)); [|reflexivity].
  rewrite Hv. reflexivity.
Qed.
End PolygonFacts.

Lemma starPath_is_closed_polygon_witness :
  length (paths_ (self (@starPath Plain.space (@of_Z binary32 100) (@of_Z binary32 100)
                          (@of_Z binary32 40) ∅))) = 1%nat.
Proof.
  rewrite (proj1 (@starPath_is_closed_polygon Plain.space (@of_Z binary32 100)
                    (@of_Z binary32 100) (@of_Z binary32 40) ∅
                    ltac:(vm_compute; reflexivity))).
  reflexivity.
Defined.

(* ================================================================== *)
(** * Command lists                                                     *)
(* ================================================================== *)

Lemma last_move_snoc (cs : list CommandList.Command) (c : CommandList.Command) :
  CommandList.last_move (cs ++ [c]) =
    if Ascii.eqb (CommandList.type_ c) "M" then CommandList.end_ c
    else CommandList.last_move cs.
Proof. unfold CommandList.last_move. now rewrite fold_left_app. Qed.

(** Every call appends one command; the list's [current] is the end of
    that command, and its [start] is that end for an ['M'] command and
    the [start] of before otherwise; a ['Z'] command ends at the [start]
    of before. *)
Lemma CommandList_call (c : CommandList.Call) (l : CommandList.t) :
  exists cmd,
    CommandList.commands (CommandList.call c l) = CommandList.commands l ++ [cmd] /\
    CommandList.current (CommandList.call c l) = CommandList.end_ cmd /\
    CommandList.start (CommandList.call c l) =
      (if Ascii.eqb (CommandList.type_ cmd) "M" then CommandList.end_ cmd
       else CommandList.start l) /\
    (CommandList.type_ cmd = "Z"%char -> CommandList.end_ cmd = CommandList.start l).
Proof.
  destruct c; eexists; (split; [reflexivity|]); cbn; repeat split; discriminate.
Qed.

(** X15: A list built by any sequence of calls holds one command per call;
    [current] is the end point of the last command and [start] the end
    point of the last ['M'] command (both the origin when there is none);
    every ['Z'] command ends at the end point of the last ['M'] command
    before it. *)
Theorem CommandList_close_returns_to_last_move (cs : list CommandList.Call) :
  let l := CommandList.build cs in
  length (CommandList.commands l) = length cs /\
  CommandList.current l = CommandList.last_end (CommandList.commands l) /\
  CommandList.start l = CommandList.last_move (CommandList.commands l) /\
  (forall i cmd,
     CommandList.commands l !! i = Some cmd ->
     CommandList.type_ cmd = "Z"%char ->
     CommandList.end_ cmd = CommandList.last_move (take i (CommandList.commands l))).
Proof.
  cbv zeta. induction cs as [|c cs IH] using rev_ind.
  - repeat split. intros i cmd H. discriminate.
  - unfold CommandList.build in *. rewrite fold_left_app. cbn [fold_left].
    set (l := fold_left _ cs CommandList.empty) in *.
    destruct IH as (Hlen & Hcur & Hstart & Hz).
    destruct (CommandList_call c l) as (cmd & Hc & Hcurrent & Hs & Hclose).
    rewrite Hc, Hcurrent, Hs. repeat split.
    + rewrite !length_app, Hlen. reflexivity.
    + unfold CommandList.last_end. now rewrite back_snoc.
    + rewrite last_move_snoc, Hstart. reflexivity.
    + intros i cmd' Hi Ht.
      destruct (decide (i < length (CommandList.commands l))%nat) as [Hlt|Hge].
      * rewrite lookup_app_l in Hi by exact Hlt.
        rewrite take_app_le by lia. now apply Hz.
      * rewrite lookup_app_r in Hi by lia.
        destruct (i - length (CommandList.commands l))%nat as [|k] eqn:Hk; [|discriminate].
        injection Hi as <-.
        assert (i = length (CommandList.commands l)) as -> by lia.
        rewrite take_app_length. rewrite <- Hstart. now apply Hclose.
Qed.

(** X16: [arcTo] keeps everything it is given: the two flags can be read back
    from [flags] with the masks [kLargeArc] and [kSweep], the radii are
    in [control1] and the rotation is in [control2]. *)
Theorem arcTo_flags_round_trip (rx ry rotation : float) (large_arc sweep : bool)
    (x y : float) (relative : bool) (l : CommandList.t) :
  exists cmd,
    CommandList.commands (CommandList.arcTo rx ry rotation large_arc sweep x y relative l)
      = CommandList.commands l ++ [cmd] /\
    negb (Z.land (CommandList.flags cmd) CommandList.kLargeArc =? 0) = large_arc /\
    negb (Z.land (CommandList.flags cmd) CommandList.kSweep =? 0) = sweep /\
    CommandList.control1 cmd = mkPoint rx ry /\
    CommandList.control2 cmd = mkPoint rotation rotation /\
    CommandList.type_ cmd = "A"%char.
Proof.
  eexists. split; [reflexivity|]. cbn. now destruct large_arc, sweep.
Qed.

(* ================================================================== *)
(** * The scan line                                                     *)
(* ================================================================== *)

(** X17: [hasIntersection] does not depend on the order in which the two
    areas are given, and a scan line without pending intersection has
    none. *)
Theorem hasIntersection_symmetric (from1 to1 from2 to2 : Z) (sl : ScanLine) :
  hasIntersection from1 to1 from2 to2 sl = hasIntersection from2 to2 from1 to1 sl /\
  (intersection_events_ sl = [] -> hasIntersection from1 to1 from2 to2 sl = false).
Proof.
  split.
  - unfold hasIntersection.
    induction (intersection_events_ sl) as [|ev evs IH]; [reflexivity|].
    cbn [existsb]. rewrite IH. f_equal. apply orb_comm.
  - unfold hasIntersection. now intros ->.
Qed.

Lemma find_area_spec (test : ScanLineArea -> bool) (areas : list ScanLineArea) (it : nat) :
  match find_area test areas it with
  | Some found =>
      (it <= found < it + length areas)%nat /\
      (exists area, areas !! (found - it)%nat = Some area /\ test area = true) /\
      (forall k area, (k < found - it)%nat -> areas !! k = Some area -> test area = false)
  | None => forall k area, areas !! k = Some area -> test area = false
  end.
Proof.
  revert it. induction areas as [|a areas IH]; intros it; cbn [find_area].
  - intros k area H. discriminate.
  - destruct (test a) eqn:Ea.
    + split; [cbn; lia|]. split.
      * exists a. now rewrite Nat.sub_diag.
      * intros k area Hk. lia.
    + specialize (IH (S it)). destruct (find_area test areas (S it)) as [found|].
      * destruct IH as (Hr & (area & Ha & Ht) & Hbefore). split; [cbn; lia|]. split.
        -- exists area. replace (found - it)%nat with (S (found - S it)) by lia.
           now split.
        -- intros k area' Hk Hl. destruct k as [|k]; [now injection Hl as <-|].
           apply (Hbefore k); [lia | exact Hl].
      * intros [|k] area Hl; [now injection Hl as <- | now apply (IH k)].
Qed.

Lemma find_area_search (build : Build) (test : ScanLineArea -> bool)
    (areas : list ScanLineArea) (it : nat) :
  search_result build test areas it
    match find_area test (drop it areas) it with
    | Some found => Returned found
    | None => VISAGE_ASSERT build false (Returned (length areas))
    end.
Proof.
  pose proof (find_area_spec test (drop it areas) it) as H.
  destruct (find_area test (drop it areas) it) as [found|].
  - destruct H as (Hr & (area & Ha & Ht) & Hbefore). left.
    rewrite length_drop in Hr. rewrite lookup_drop in Ha.
    pose proof (lookup_lt_Some _ _ _ Ha) as Hlen.
    replace (it + (found - it))%nat with found in Ha, Hlen by lia.
    split; [lia|]. split; [eauto|].
    intros j area' Hj Hl. apply (Hbefore (j - it)%nat); [lia|].
    rewrite lookup_drop. now replace (it + (j - it))%nat with j by lia.
  - assert (Hn : no_match test areas it).
    { intros j area Hj Hl. apply (H (j - it)%nat).
      rewrite lookup_drop. now replace (it + (j - it))%nat with j by lia. }
    destruct build; cbn; auto.
Qed.

(** X18: [findAreaByToIndex] and [findAreaByFromTo] return the position of
    the first area that matches (from the iterator given, for the
    former).  When no area matches, a release build returns
    [areas_.end()] and a debug build stops at the assertion. *)
Theorem findArea_returns_first_match (build : Build) (sl : ScanLine) :
  (forall index it,
     search_result build (fun area => to_index area =? index) (areas_ sl) it
       (findAreaByToIndex build index it sl)) /\
  (forall from to,
     search_result build (fun area => (from_index area =? from) && (to_index area =? to))
       (areas_ sl) 0
       (findAreaByFromTo build from to sl)).
Proof.
  split.
  - intros index it. apply find_area_search.
  - intros from to. apply (find_area_search build _ (areas_ sl) 0).
Qed.

Section EventFacts.
Context {space : Space}.

Lemma skip_removed_spec (next_edge : list Z) (rest : list IndexData) (current_index : Z) :
  (forall entry, In entry rest -> is_Some (at_ next_edge (index entry))) ->
  exists n : nat,
    skip_removed next_edge rest current_index = Some (current_index + Z.of_nat n) /\
    (n <= length rest)%nat /\
    (forall k entry, (k < n)%nat -> rest !! k = Some entry ->
       at_ next_edge (index entry) = Some (index entry)) /\
    (forall entry, rest !! n = Some entry ->
       exists next, at_ next_edge (index entry) = Some next /\ next <> index entry).
Proof.
  revert current_index. induction rest as [|entry rest IH]; intros current_index Hin.
  - exists 0%nat. cbn. rewrite Z.add_0_r. split; [reflexivity|]. split; [lia|].
    split; [intros k e Hk; lia | intros e H; discriminate].
  - cbn [skip_removed].
    destruct (Hin entry (or_introl eq_refl)) as [next Hnext]. rewrite Hnext.
    destruct (Z.eqb_spec next (index entry)) as [->|Hne]; cbn [negb].
    + destruct (IH (current_index + 1)) as (n & Hs & Hlen & Hbefore & Hat).
      { intros e He. apply Hin. now right. }
      exists (S n). rewrite Hs. split; [f_equal; lia|]. split; [cbn; lia|]. split.
      * intros [|k] e Hk Hl; [now injection Hl as <-|]. apply (Hbefore k); [lia | exact Hl].
      * intros e Hl. now apply Hat.
    + exists 0%nat. rewrite Z.add_0_r. split; [reflexivity|]. split; [cbn; lia|]. split.
      * intros k e Hk. lia.
      * intros e Hl. injection Hl as <-. eauto.
Qed.

(** X19: [progressToNextEvent] moves [current_index_] forward over the
    entries whose vertex was taken out of its cycle (it is its own
    successor in [next_edge_]) and stops at the first entry that is
    still linked, or at the end of the sorted entries; nothing else of
    the scan line changes.  It returns whenever the vertex of every
    sorted entry is in [next_edge_]. *)
Theorem progressToNextEvent_skips_removed (h : Heap) (sl : ScanLine)
    (sorted : list IndexData) (next_edge : list Z) :
  sorted_indices_of h sl = Some sorted ->
  next_edge_of h sl = Some next_edge ->
  (forall entry, In entry sorted -> is_Some (at_ next_edge (index entry))) ->
  exists i,
    progressToNextEvent h sl = Some (with_current_index i sl) /\
    current_index_ sl <= i /\
    (below_size (current_index_ sl) (length sorted) = true -> i <= Z.of_nat (length sorted)) /\
    (forall k entry, current_index_ sl <= k < i -> at_ sorted k = Some entry ->
       at_ next_edge (index entry) = Some (index entry)) /\
    (hasNext h (with_current_index i sl) = Some true ->
       exists entry next,
         at_ sorted i = Some entry /\ at_ next_edge (index entry) = Some next /\
         next <> index entry).
Proof.
  intros Hs Hn Hin. unfold progressToNextEvent, hasNext. rewrite Hs, Hn.
  assert (Hs' : forall i, sorted_indices_of h (with_current_index i sl) = Some sorted)
    by (intros i; exact Hs).
  destruct (below_size (current_index_ sl) (length sorted)) eqn:Hb.
  - unfold below_size in Hb. apply andb_prop in Hb as [H0 Hlt].
    apply Z.leb_le in H0. apply Z.ltb_lt in Hlt.
    set (c := Z.to_nat (current_index_ sl)).
    destruct (skip_removed_spec next_edge (drop c sorted) (current_index_ sl))
      as (n & Hskip & Hlen & Hbefore & Hat).
    { intros entry He. apply Hin. apply list_elem_of_In.
      apply list_elem_of_In, list_elem_of_lookup_1 in He as [k Hk].
      rewrite lookup_drop in Hk. eapply list_elem_of_lookup_2. exact Hk. }
    rewrite length_drop in Hlen.
    exists (current_index_ sl + Z.of_nat n). rewrite Hskip.
    split; [reflexivity|]. split; [lia|]. split; [intros _; lia|]. split.
    + intros k entry Hk Hl. unfold at_ in Hl.
      destruct (k <? 0) eqn:Hk0; [discriminate|]. apply Z.ltb_ge in Hk0.
      apply (Hbefore (Z.to_nat k - c)%nat); [lia|].
      rewrite lookup_drop. now replace (c + (Z.to_nat k - c))%nat with (Z.to_nat k) by lia.
    + rewrite Hs'. intros [= Hb']. cbn [current_index_ with_current_index] in Hb'.
      unfold below_size in Hb'. apply andb_prop in Hb' as [_ Hlt'].
      apply Z.ltb_lt in Hlt'.
      destruct (lookup_lt_is_Some_2 (drop c sorted) n) as [entry Hentry];
        [rewrite length_drop; lia|].
      destruct (Hat entry Hentry) as (next & Hnext & Hne).
      exists entry, next. split; [|now split].
      unfold at_. replace (current_index_ sl + Z.of_nat n <? 0) with false by lia.
      rewrite lookup_drop in Hentry.
      now replace (Z.to_nat (current_index_ sl + Z.of_nat n)) with (c + n)%nat by lia.
  - exists (current_index_ sl).
    assert (E : with_current_index (current_index_ sl) sl = sl) by now destruct sl.
    rewrite E. split; [reflexivity|]. split; [lia|]. split; [discriminate|]. split.
    + intros k entry Hk. lia.
    + rewrite Hs, Hb. discriminate.
Qed.
End EventFacts.

Lemma progressToNextEvent_skips_removed_witness :
  exists i,
    @progressToNextEvent Plain.space Samples.store Samples.scan_line
      = Some (with_current_index i Samples.scan_line) /\
    current_index_ Samples.scan_line <= i.
Proof.
  destruct (@progressToNextEvent_skips_removed Plain.space Samples.store Samples.scan_line
              (sorted_indices_ Samples.removed_first) (next_edge_ Samples.removed_first))
    as (i & H1 & H2 & _).
  - reflexivity.
  - reflexivity.
  - intros entry [<-|[<-|[<-|[]]]]; cbn; eauto.
  - exists i. auto.
Defined.

Example progressToNextEvent_skips_first :
  match @progressToNextEvent Plain.space Samples.store Samples.scan_line with
  | Some sl => current_index_ sl
  | None => -1
  end = 1.
Proof. reflexivity. Qed.

Section IntersectionOrderFacts.
Variable DPoint_lt : DPoint -> DPoint -> bool.
Hypothesis lt_irreflexive : forall a, DPoint_lt a a = false.
Hypothesis lt_transitive :
  forall a b c, DPoint_lt a b = true -> DPoint_lt b c = true -> DPoint_lt a c = true.

(** The state of the loop after the events [seen]. *)
Lemma next_intersection_loop (seen rest : list IntersectionEvent) (state : Z * DPoint * Z) :
  (let '(next, point, i) := state in
   i = Z.of_nat (length seen) /\
   match seen with
   | [] => next = -1
   | _ => exists chosen, at_ seen next = Some chosen /\ point = ie_point chosen /\
            forall ev, In ev seen -> DPoint_lt (ie_point ev) (ie_point chosen) = false
   end) ->
  let '(next, point, i) := fold_left (next_intersection_step DPoint_lt) rest state in
  i = Z.of_nat (length (seen ++ rest)) /\
  match seen ++ rest with
  | [] => next = -1
  | _ => exists chosen, at_ (seen ++ rest) next = Some chosen /\ point = ie_point chosen /\
           forall ev, In ev (seen ++ rest) -> DPoint_lt (ie_point ev) (ie_point chosen) = false
  end.
Proof.
  revert seen state. induction rest as [|ev rest IH]; intros seen [[next point] i] H.
  - cbn [fold_left]. now rewrite app_nil_r.
  - cbn [fold_left].
    replace (seen ++ ev :: rest) with ((seen ++ [ev]) ++ rest) by now rewrite <- app_assoc.
    apply IH. destruct H as [Hi H]. unfold next_intersection_step.
    assert (Hlen : i + 1 = Z.of_nat (length (seen ++ [ev])))
      by (rewrite length_app; cbn; lia).
    assert (Hat : at_ (seen ++ [ev]) i = Some ev).
    { unfold at_. replace (i <? 0) with false by lia.
      rewrite lookup_app_r by lia. now replace (Z.to_nat i - length seen)%nat with 0%nat by lia. }
    destruct seen as [|s seen'].
    + subst next. cbn [Z.eqb orb]. split; [exact Hlen|]. cbn [app].
      exists ev. split; [exact Hat|]. split; [reflexivity|].
      intros ev' [<-|[]]. apply lt_irreflexive.
    + destruct H as (chosen & Hc & -> & Hmin).
      assert (Hnext : (next =? -1) = false).
      { unfold at_ in Hc. destruct (next <? 0) eqn:E; [discriminate|]. lia. }
      rewrite Hnext. cbn [orb].
      destruct (DPoint_lt (ie_point ev) (ie_point chosen)) eqn:Hlt.
      * split; [exact Hlen|]. cbn [app].
        exists ev. split; [exact Hat|]. split; [reflexivity|].
        intros ev' Hin. change (In ev' ((s :: seen') ++ [ev])) in Hin.
        apply in_app_or in Hin as [Hin|[<-|[]]]; [|apply lt_irreflexive].
        destruct (DPoint_lt (ie_point ev') (ie_point ev)) eqn:E; [|reflexivity].
        rewrite <- (Hmin ev' Hin). symmetry. now apply (lt_transitive _ (ie_point ev)).
      * split; [exact Hlen|]. cbn [app].
        exists chosen. split; [|split; [reflexivity|]].
        -- unfold at_ in Hc |- *. destruct (next <? 0); [discriminate|].
           now apply (lookup_app_l_Some (s :: seen') [ev]).
        -- intros ev' Hin. change (In ev' ((s :: seen') ++ [ev])) in Hin.
           apply in_app_or in Hin as [Hin|[<-|[]]]; [now apply Hmin | exact Hlt].
Qed.

(** X20: [progressToNextIntersection] sets [next_intersection_] to -1 when no
    intersection is pending.  Otherwise, for an [operator<] on points
    that is irreflexive and transitive, it sets it to the position of a
    pending intersection none of the others is before; nothing else of
    the scan line changes. *)
Theorem progressToNextIntersection_picks_minimum (sl : ScanLine) :
  let sl' := progressToNextIntersection DPoint_lt sl in
  sl' = with_next_intersection (next_intersection_ sl') sl /\
  match intersection_events_ sl with
  | [] => next_intersection_ sl' = -1
  | _ =>
      exists chosen,
        at_ (intersection_events_ sl) (next_intersection_ sl') = Some chosen /\
        forall ev, In ev (intersection_events_ sl) ->
                   DPoint_lt (ie_point ev) (ie_point chosen) = false
  end.
Proof.
  cbv zeta. unfold progressToNextIntersection.
  pose proof (next_intersection_loop [] (intersection_events_ sl) (-1, Point_origin, 0)
                (conj eq_refl eq_refl)) as H.
  destruct (fold_left _ _ _) as [[next point] i]. cbn [app] in H.
  cbn [next_intersection_ with_next_intersection]. split; [reflexivity|].
  destruct H as [_ H]. destruct (intersection_events_ sl); [exact H|].
  destruct H as (chosen & H1 & _ & H2). eauto.
Qed.
End IntersectionOrderFacts.

Lemma lt_lex_irreflexive (a : DPoint) : Samples.lt_lex a a = false.
Proof.
  assert (H : forall x, flt x x = false).
  { intros x. unfold flt, SFltb. destruct (SFcompare x x) as [c|] eqn:E; [|reflexivity].
    pose proof (SFcompare_antisym _ _ _ E) as E'. rewrite E in E'. now destruct c. }
  unfold Samples.lt_lex. rewrite !H. now rewrite andb_false_r.
Qed.

Lemma flt_trans (a b c : spec_float) : flt a b = true -> flt b c = true -> flt a c = true.
Proof.
  unfold flt, SFltb.
  destruct (SFcompare a b) as [[]|] eqn:E1; try discriminate.
  destruct (SFcompare b c) as [[]|] eqn:E2; try discriminate.
  intros _ _. now rewrite (SFcompare_trans a b c Lt Lt E1 E2).
Qed.

Lemma flt_feq_trans (a b c : spec_float) : flt a b = true -> feq b c = true -> flt a c = true.
Proof.
  unfold flt, feq, SFltb, SFeqb.
  destruct (SFcompare a b) as [[]|] eqn:E1; try discriminate.
  destruct (SFcompare b c) as [[]|] eqn:E2; try discriminate.
  intros _ _. now rewrite (SFcompare_trans a b c Lt Eq E1 E2).
Qed.

Lemma feq_flt_trans (a b c : spec_float) : feq a b = true -> flt b c = true -> flt a c = true.
Proof.
  unfold flt, feq, SFltb, SFeqb.
  destruct (SFcompare a b) as [[]|] eqn:E1; try discriminate.
  destruct (SFcompare b c) as [[]|] eqn:E2; try discriminate.
  intros _ _. now rewrite (SFcompare_trans a b c Eq Lt E1 E2).
Qed.

Lemma feq_trans (a b c : spec_float) : feq a b = true -> feq b c = true -> feq a c = true.
Proof.
  unfold feq, SFeqb.
  destruct (SFcompare a b) as [[]|] eqn:E1; try discriminate.
  destruct (SFcompare b c) as [[]|] eqn:E2; try discriminate.
  intros _ _. now rewrite (SFcompare_trans a b c Eq Eq E1 E2).
Qed.

Lemma lt_lex_transitive (a b c : DPoint) :
  Samples.lt_lex a b = true -> Samples.lt_lex b c = true -> Samples.lt_lex a c = true.
Proof.
  unfold Samples.lt_lex.
  intros [H1|[H1 H1']%andb_prop]%orb_prop [H2|[H2 H2']%andb_prop]%orb_prop.
  - now rewrite (flt_trans _ _ _ H1 H2).
  - now rewrite (flt_feq_trans _ _ _ H1 H2).
  - now rewrite (feq_flt_trans _ _ _ H1 H2).
  - rewrite (feq_trans _ _ _ H1 H2), (flt_trans _ _ _ H1' H2'). apply orb_true_r.
Qed.

Lemma progressToNextIntersection_picks_minimum_witness :
  exists chosen,
    at_ (intersection_events_ Samples.scan_line)
      (next_intersection_ (progressToNextIntersection Samples.lt_lex Samples.scan_line))
      = Some chosen /\
    forall ev, In ev (intersection_events_ Samples.scan_line) ->
               Samples.lt_lex (ie_point ev) (ie_point chosen) = false.
Proof.
  exact (proj2 (@progressToNextIntersection_picks_minimum Samples.lt_lex
                  lt_lex_irreflexive lt_lex_transitive Samples.scan_line)).
Defined.

Example progressToNextIntersection_picks_second :
  next_intersection_ (progressToNextIntersection Samples.lt_lex Samples.scan_line) = 1.
Proof. reflexivity. Qed.

(* ================================================================== *)
(** * Aliases                                                           *)
(* ================================================================== *)

Lemma follow_aliases_flat (fuel : nat) (aliases : gmap Z Z) (original : Z) (sl : ScanLine) :
  flat_aliases aliases -> aliases_ sl = aliases -> (2 <= fuel)%nat ->
  follow_aliases fuel aliases original = Some (resolveAlias sl original) /\
  aliases !! resolveAlias sl original = None.
Proof.
  intros Hflat Hsl Hfuel. unfold resolveAlias. rewrite Hsl.
  destruct fuel as [|[|fuel]]; try lia. cbn [follow_aliases].
  destruct (aliases !! original) as [next|] eqn:E.
  - rewrite (Hflat _ _ E). split; reflexivity.
  - split; [reflexivity | exact E].
Qed.

(** X21: [addAlias] on a scan line whose aliases resolve in one step: when
    the new alias is not what another index is an alias of, and is not
    what [original] resolves to, the call returns after at most one step
    of its loop, the alias resolves to what [original] resolves to, every
    other index resolves as before, and the aliases still resolve in one
    step.  An index that is an alias of itself, on the other hand, makes
    the loop run forever. *)
Theorem addAlias_keeps_aliases_flat (fuel : nat) (alias original : Z) (sl : ScanLine) :
  flat_aliases (aliases_ sl) ->
  (forall i, aliases_ sl !! i <> Some alias) ->
  alias <> resolveAlias sl original ->
  (2 <= fuel)%nat ->
  (exists sl',
     addAlias fuel alias original sl = Some sl' /\
     sl' = with_aliases (aliases_ sl') sl /\
     resolveAlias sl' alias = resolveAlias sl original /\
     (forall i, i <> alias -> resolveAlias sl' i = resolveAlias sl i) /\
     flat_aliases (aliases_ sl')) /\
  (forall steps, follow_aliases steps (<[alias := alias]> (aliases_ sl)) alias = None).
Proof.
  intros Hflat Hfree Hne Hfuel. split.
  - destruct (follow_aliases_flat fuel (aliases_ sl) original sl Hflat eq_refl Hfuel)
      as [Hfollow Hroot].
    unfold addAlias. rewrite Hfollow.
    eexists. split; [reflexivity|]. cbn [aliases_ with_aliases].
    split; [reflexivity|]. split; [|split].
    + unfold resolveAlias at 1. cbn [aliases_ with_aliases]. now rewrite lookup_insert_eq.
    + intros i Hi. unfold resolveAlias at 1. cbn [aliases_ with_aliases].
      now rewrite lookup_insert_ne by congruence.
    + intros k v Hk. destruct (decide (k = alias)) as [->|Hka].
      * rewrite lookup_insert_eq in Hk. injection Hk as <-.
        now rewrite lookup_insert_ne by congruence.
      * rewrite lookup_insert_ne in Hk by congruence.
        rewrite lookup_insert_ne by (intros ->; exact (Hfree k Hk)).
        exact (Hflat _ _ Hk).
  - induction steps as [|steps IH]; [reflexivity|].
    cbn [follow_aliases]. now rewrite lookup_insert_eq.
Qed.

Lemma sample_aliases_lookup (i v : Z) :
  aliases_ Samples.scan_line !! i = Some v -> i = 5 /\ v = 2.
Proof.
  change (aliases_ Samples.scan_line) with (<[5 := 2]> (∅ : gmap Z Z)).
  intros [[<- <-]|[_ H]]%lookup_insert_Some; [auto|].
  rewrite lookup_empty in H. discriminate.
Qed.

Lemma sample_aliases_flat : flat_aliases (aliases_ Samples.scan_line).
Proof. intros a o [-> ->]%sample_aliases_lookup. reflexivity. Qed.

Lemma addAlias_keeps_aliases_flat_witness :
  exists sl',
    addAlias 2 7 5 Samples.scan_line = Some sl' /\
    resolveAlias sl' 7 = resolveAlias Samples.scan_line 5.
Proof.
  destruct (proj1 (addAlias_keeps_aliases_flat 2 7 5 Samples.scan_line
                     sample_aliases_flat
                     ltac:(intros i [_ H]%sample_aliases_lookup; discriminate)
                     ltac:(discriminate) ltac:(lia)))
    as (sl' & H1 & _ & H2 & _).
  exists sl'. auto.
Defined.

Example addAlias_follows_the_alias :
  match addAlias 2 7 5 Samples.scan_line with
  | Some sl' => resolveAlias sl' 7
  | None => -1
  end = 2.
Proof. reflexivity. Qed.

(* ================================================================== *)
(** * The two orders of the sweep                                       *)
(* ================================================================== *)

(** X22: [ScanLineArea::operator<] is irreflexive, as [std::sort] and
    [std::lower_bound] require, for every [operator<] on points that puts
    no end point of the area before itself. *)
Theorem ScanLineArea_lt_irreflexive (DPoint_lt : DPoint -> DPoint -> bool)
    (area : ScanLineArea) :
  DPoint_lt (from area) (from area) = false ->
  DPoint_lt (to area) (to area) = false ->
  ScanLineArea_lt DPoint_lt area area = false.
Proof.
  intros Hf Ht. unfold ScanLineArea_lt. rewrite Hf, Ht.
  change (truthy zero) with false. cbv iota.
  unfold Point_neb. rewrite (Point_eqb_sym (from area) (to area)).
  now destruct (Point_eqb (to area) (from area)).
Qed.

Lemma ScanLineArea_lt_irreflexive_witness :
  ScanLineArea_lt Samples.lt_lex
    (mkScanLineArea 0 (Samples.dpt 0 0) 1 (Samples.dpt 4 0) true 0)
    (mkScanLineArea 0 (Samples.dpt 0 0) 1 (Samples.dpt 4 0) true 0) = false.
Proof.
  apply (ScanLineArea_lt_irreflexive Samples.lt_lex
           (mkScanLineArea 0 (Samples.dpt 0 0) 1 (Samples.dpt 4 0) true 0));
    vm_compute; reflexivity.
Defined.

Section MoreIndexOrderFacts.
Context {space : Space}.

(** X23: In [IndexData::operator<] the entries of type [None] come after all
    the others, wherever their points are, and no entry is before
    itself (the comparison of [space.h] is taken to report a point equal
    to itself). *)
Theorem IndexData_None_sorts_last (a b : IndexData) :
  (type a <> PT_None -> type b = PT_None ->
   IndexData_lt a b = true /\ IndexData_lt b a = false) /\
  (truthy (DPoint_compare (point a) (point a)) = false -> IndexData_lt a a = false).
Proof.
  split.
  - intros Ha Hb. unfold IndexData_lt. rewrite Hb.
    destruct (type a); [congruence| | |]; split; reflexivity.
  - intros Hc. unfold IndexData_lt. rewrite Hc, Z.ltb_irrefl.
    now destruct (type a).
Qed.
End MoreIndexOrderFacts.

Lemma IndexData_None_sorts_last_witness :
  @IndexData_lt Plain.space Plain.event_end (mkIndexData 0 (Samples.dpt 0 0) PT_None) = true /\
  @IndexData_lt Plain.space Plain.event_end Plain.event_end = false.
Proof.
  split.
  - apply (proj1 (@IndexData_None_sorts_last Plain.space Plain.event_end
                    (mkIndexData 0 (Samples.dpt 0 0) PT_None)));
      [discriminate | reflexivity].
  - apply (proj2 (@IndexData_None_sorts_last Plain.space Plain.event_end Plain.event_end)).
    vm_compute. reflexivity.
Defined.

(* ================================================================== *)
(** * Segment intersection                                              *)
(* ================================================================== *)

Lemma fsub_self_finite {fmt : Ieee} (a : spec_float) : is_finite a = true -> fsub a a = zero.
Proof.
  unfold fsub. destruct a as [s|s| |s m e]; simpl; try discriminate; intros _.
  - now destruct s.
  - now rewrite Z.sub_diag.
Qed.

(** X24: Two segments with the same direction vector have no intersection
    point: [findIntersection] returns [std::nullopt] (the product of the
    two coordinates of the direction is taken to be finite).  In
    particular a segment has none with itself. *)
Theorem findIntersection_parallel {fmt : Ieee} (start1 end1 start2 end2 : BasePoint fmt) :
  Point_sub end2 start2 = Point_sub end1 start1 ->
  is_finite (fmul (px (Point_sub end1 start1)) (py (Point_sub end1 start1))) = true ->
  findIntersection start1 end1 start2 end2 = None.
Proof.
  intros Hd Hfin. unfold findIntersection. rewrite Hd. unfold Point_cross.
  rewrite (fmul_comm (py (Point_sub end1 start1)) (px (Point_sub end1 start1))).
  now rewrite (fsub_self_finite _ Hfin).
Qed.

Lemma findIntersection_parallel_witness :
  @findIntersection binary64 (Samples.dpt 0 0) (Samples.dpt 4 3) (Samples.dpt 0 0)
    (Samples.dpt 4 3) = None.
Proof.
  apply (@findIntersection_parallel binary64 (Samples.dpt 0 0) (Samples.dpt 4 3)
           (Samples.dpt 0 0) (Samples.dpt 4 3)); vm_compute; reflexivity.
Defined.

(* ================================================================== *)
(** * The graph handle never dangles                                    *)
(* ================================================================== *)

Section OwnershipFacts.
Context {space : Space} {cpp : PathCpp}.

Lemma owns_kept (e e' : Env) :
  kept_or_discarded e e' -> owns_live_graph e -> owns_live_graph e'.
Proof.
  unfold owns_live_graph. intros [(Hh & Hg & _)|(Hg & _)] H a Ha.
  - rewrite Hh. apply H. congruence.
  - congruence.
Qed.

Lemma owns_query (method : Heap -> TriangulationGraph -> TriangulationGraph) (e : Env) :
  owns_live_graph e -> owns_live_graph (query method e).
Proof.
  unfold owns_live_graph, query, triangulationGraph, make_unique. intros H a.
  destruct (triangulation_graph_ (self e)) as [b|] eqn:Hb; cbn.
  - rewrite Hb. intros [= <-]. rewrite lookup_alter_eq.
    destruct (H b eq_refl) as [g ->]. cbn. eauto.
  - intros [= <-]. rewrite lookup_alter_eq, lookup_insert_eq. cbn. eauto.
Qed.

(** X25: Whatever is called through a path (the edit calls of the header and
    the geometry queries), its graph handle stays null or the manager of
    a live graph: no call leaves it dangling.  A path in that state can
    always be copied, and the edit calls create no graph. *)
Theorem calls_never_leave_dangling_handle (fuel : nat) (cs : list PathCall) (e e' : Env) :
  owns_live_graph e ->
  calls fuel cs e = Some e' ->
  owns_live_graph e' /\
  is_Some (Path_copy (self e') (heap e')) /\
  (Forall (fun c => match c with Edit _ => True | Query _ => False end) cs ->
   dom (heap e') ⊆ dom (heap e)).
Proof.
  intros Hown Hcalls.
  assert (H : owns_live_graph e' /\
              (Forall (fun c => match c with Edit _ => True | Query _ => False end) cs ->
               dom (heap e') ⊆ dom (heap e))).
  { revert e Hown Hcalls. induction cs as [|c cs IH]; intros e Hown; simpl.
    - intros [= <-]. auto.
    - destruct (call fuel c e) as [e1|] eqn:Hc; [|discriminate]. intros Hcs.
      destruct c as [op|method]; simpl in Hc.
      + pose proof (kept_run fuel op e e1 Hc) as Hk.
        destruct (IH e1 (owns_kept _ _ Hk Hown) Hcs) as [H1 H2]. split; [exact H1|].
        intros Hall. apply Forall_cons in Hall as [_ Hall].
        etransitivity; [exact (H2 Hall)|].
        destruct Hk as [(-> & _ & _)|(_ & ->)]; [reflexivity|].
        destruct (triangulation_graph_ (self e)); cbn; [|reflexivity].
        rewrite dom_delete. intros x [Hx _]%elem_of_difference. exact Hx.
      + injection Hc as <-.
        destruct (IH _ (owns_query method e Hown) Hcs) as [H1 _]. split; [exact H1|].
        intros Hall. exfalso. apply Forall_cons in Hall as [Hq _]. exact Hq. }
  destruct H as [H1 H2]. split; [exact H1|]. split; [|exact H2].
  unfold Path_copy, clone_ptr_copy.
  destruct (triangulation_graph_ (self e')) as [a|] eqn:Ha; [|cbn; eauto].
  destruct (H1 a Ha) as [g ->]. cbn. eauto.
Qed.
End OwnershipFacts.

Lemma calls_never_leave_dangling_handle_witness :
  owns_live_graph (@query Plain.space Plain.cpp (fun _ g => g)
                     (lineTo (Plain.pt 1 1) false Plain.triangle_cached)).
Proof.
  apply (@calls_never_leave_dangling_handle Plain.space Plain.cpp 0
           [Edit (LineTo (Plain.pt 1 1) false); Query (fun _ g => g)]
           Plain.triangle_cached).
  - intros a [= <-]. cbn. eauto.
  - reflexivity.
Defined.

(* ================================================================== *)
(** * The events of the sweep                                           *)
(* ================================================================== *)

Section NextEventFacts.
Context {space : Space}.

Lemma resolveAlias_flat (sl : ScanLine) (i : Z) :
  flat_aliases (aliases_ sl) -> aliases_ sl !! resolveAlias sl i = None.
Proof.
  intros Hflat. unfold resolveAlias.
  destruct (aliases_ sl !! i) as [original|] eqn:E; [exact (Hflat _ _ E) | exact E].
Qed.

Lemma at_in_range {A} (l : list A) (i : Z) (x : A) :
  at_ l i = Some x -> 0 <= i < Z.of_nat (length l).
Proof.
  unfold at_. destruct (i <? 0) eqn:E; [discriminate|]. apply Z.ltb_ge in E.
  intros H%lookup_lt_Some. lia.
Qed.

(** X26: [nextEvent] reports the two neighbours of the current vertex through
    their aliases: when the aliases resolve in one step, neither index it
    reports is aliased.  Its degeneracy flag is consistent between
    neighbours in the sorted order: when the point of the next entry
    compares equal to the point of the current one, the event of the
    current entry and the event of the next entry are both flagged. *)
Theorem nextEvent_flags_equal_neighbours (h : Heap) (sl : ScanLine) (ev : Event) :
  nextEvent h sl = Some ev ->
  (flat_aliases (aliases_ sl) ->
   aliases_ sl !! prev_index ev = None /\ aliases_ sl !! next_index ev = None) /\
  (forall ev',
     nextEvent h (with_current_index (current_index_ sl + 1) sl) = Some ev' ->
     Point_eqb (ev_point ev') (ev_point ev) = true ->
     degeneracy ev = true /\ degeneracy ev' = true).
Proof.
  unfold nextEvent.
  change (sorted_indices_of h (with_current_index (current_index_ sl + 1) sl))
    with (sorted_indices_of h sl).
  cbn [graph_ with_current_index current_index_].
  change (resolveAlias (with_current_index (current_index_ sl + 1) sl))
    with (resolveAlias sl).
  destruct (sorted_indices_of h sl) as [sorted|]; [|discriminate].
  destruct (h !! graph_ sl) as [g|]; [|discriminate].
  destruct (at_ sorted (current_index_ sl)) as [current|] eqn:Hcur; [|discriminate].
  destruct (at_ (prev_edge_ g) (index current)) as [pe|]; [|discriminate].
  destruct (at_ (next_edge_ g) (index current)) as [ne|]; [|discriminate].
  destruct (at_ (points_ g) (resolveAlias sl pe)) as [pp|]; [|discriminate].
  destruct (at_ (points_ g) (resolveAlias sl ne)) as [np|]; [|discriminate].
  intros [= <-]. cbn [prev_index next_index degeneracy ev_point]. split.
  - intros Hflat. split; now apply resolveAlias_flat.
  - intros ev'.
    destruct (at_ sorted (current_index_ sl + 1)) as [after|] eqn:Hafter; [|discriminate].
    destruct (at_ (prev_edge_ g) (index after)) as [pe'|]; [|discriminate].
    destruct (at_ (next_edge_ g) (index after)) as [ne'|]; [|discriminate].
    destruct (at_ (points_ g) (resolveAlias sl pe')) as [pp'|]; [|discriminate].
    destruct (at_ (points_ g) (resolveAlias sl ne')) as [np'|]; [|discriminate].
    intros [= <-]. cbn [degeneracy ev_point]. intros Heq.
    pose proof (at_in_range _ _ _ Hcur) as Hr.
    pose proof (at_in_range _ _ _ Hafter) as Hr'.
    split.
    + unfold below_size at 1.
      replace (0 <=? current_index_ sl + 1) with true by lia.
      replace (current_index_ sl + 1 <? Z.of_nat (length sorted)) with true by lia.
      now rewrite Heq.
    + replace (current_index_ sl + 1 - 1) with (current_index_ sl) by lia.
      rewrite Hcur, (Point_eqb_sym (point current) (point after)), Heq.
      replace (current_index_ sl >=? 0) with true by lia.
      apply orb_true_r.
Qed.
End NextEventFacts.

Lemma nextEvent_flags_equal_neighbours_witness :
  match @nextEvent Plain.space Samples.twin_store
          (with_current_index 1 Samples.scan_line) with
  | Some ev => degeneracy ev
  | None => false
  end = true.
Proof.
  destruct (@nextEvent Plain.space Samples.twin_store (with_current_index 1 Samples.scan_line))
    as [ev|] eqn:E; [|vm_compute in E; discriminate].
  destruct (@nextEvent Plain.space Samples.twin_store
              (with_current_index (current_index_ (with_current_index 1 Samples.scan_line) + 1)
                 (with_current_index 1 Samples.scan_line)))
    as [ev'|] eqn:E'; [|vm_compute in E'; discriminate].
  refine (proj1 (proj2 (@nextEvent_flags_equal_neighbours Plain.space Samples.twin_store
                          (with_current_index 1 Samples.scan_line) ev E) ev' E' _)).
  vm_compute in E, E'. injection E as <-. injection E' as <-. vm_compute. reflexivity.
Defined.

(* ================================================================== *)
(** * The leak checker                                                  *)
(* ================================================================== *)

Lemma LeakChecker_step_count (w w' : LeakChecker.World) (ev : LeakChecker.Event) :
  LeakChecker.step w ev = Some w' ->
  LeakChecker.count_ w = Z.of_nat (size (LeakChecker.alive w)) ->
  LeakChecker.count_ w' = Z.of_nat (size (LeakChecker.alive w')).
Proof.
  intros Hstep Hcount.
  assert (Hadd : forall this, this ∉ LeakChecker.alive w ->
            Z.of_nat (size ({[this]} ∪ LeakChecker.alive w))
            = Z.of_nat (size (LeakChecker.alive w)) + 1).
  { intros this Hn. rewrite size_union by set_solver. rewrite size_singleton. lia. }
  destruct ev as [this|this other|this]; cbn in Hstep.
  - destruct (decide (this ∈ LeakChecker.alive w)); [discriminate|].
    injection Hstep as <-. cbn. rewrite Hadd by assumption. lia.
  - destruct (decide (this ∈ LeakChecker.alive w)); [discriminate|].
    destruct (decide (other ∈ LeakChecker.alive w)); [|discriminate].
    injection Hstep as <-. cbn. rewrite Hadd by assumption. lia.
  - destruct (decide (this ∈ LeakChecker.alive w)) as [Hin|]; [|discriminate].
    injection Hstep as <-. cbn.
    rewrite size_difference by set_solver. rewrite size_singleton.
    assert (size (LeakChecker.alive w) <> 0%nat).
    { intros H0. apply size_empty_iff in H0. set_solver. }
    lia.
Qed.

(** X27: Over any history of [LeakChecker] objects that C++ defines
    (every object is made where none is alive, copied from one that is
    alive, and destroyed while it is alive), the [count_] of the
    [InstanceCounter] is the number of objects alive, and the assertion
    of its destructor at the end of the program holds exactly when none
    is left. *)
Theorem LeakChecker_counts_live_objects (evs : list LeakChecker.Event)
    (w : LeakChecker.World) :
  LeakChecker.run LeakChecker.start evs = Some w ->
  LeakChecker.count_ w = Z.of_nat (size (LeakChecker.alive w)) /\
  (LeakChecker.exit w = Returned tt <-> LeakChecker.alive w = ∅) /\
  (LeakChecker.exit w = Terminated <-> LeakChecker.alive w <> ∅).
Proof.
  assert (Hrun : forall w0,
            LeakChecker.count_ w0 = Z.of_nat (size (LeakChecker.alive w0)) ->
            LeakChecker.run w0 evs = Some w ->
            LeakChecker.count_ w = Z.of_nat (size (LeakChecker.alive w))).
  { induction evs as [|ev evs IH]; intros w0 H0; cbn [LeakChecker.run].
    - now intros [= <-].
    - destruct (LeakChecker.step w0 ev) as [w1|] eqn:E; [|discriminate].
      apply IH. exact (LeakChecker_step_count w0 w1 ev E H0). }
  intros H. specialize (Hrun LeakChecker.start eq_refl H).
  split; [exact Hrun|].
  assert (Hzero : (LeakChecker.count_ w =? 0) = true <-> LeakChecker.alive w = ∅).
  { rewrite Z.eqb_eq, Hrun. split.
    - intros H0. apply leibniz_equiv, size_empty_iff. lia.
    - intros ->. reflexivity. }
  unfold LeakChecker.exit, VISAGE_ASSERT.
  destruct (LeakChecker.count_ w =? 0); split.
  - split; [intros _; now apply Hzero | reflexivity].
  - split; [discriminate | intros Hne; exfalso; apply Hne; now apply Hzero].
  - split; [discriminate | intros He; apply Hzero in He; discriminate].
  - split; [intros _ He; apply Hzero in He; discriminate | reflexivity].
Qed.

Lemma LeakChecker_counts_live_objects_witness :
  match LeakChecker.run LeakChecker.start Samples.lifetimes with
  | Some w => LeakChecker.count_ w = Z.of_nat (size (LeakChecker.alive w))
  | None => False
  end.
Proof.
  destruct (LeakChecker.run LeakChecker.start Samples.lifetimes) as [w|] eqn:E.
  - exact (proj1 (LeakChecker_counts_live_objects Samples.lifetimes w E)).
  - vm_compute in E. discriminate.
Defined.

Example LeakChecker_no_leak :
  match LeakChecker.run LeakChecker.start Samples.lifetimes with
  | Some w => LeakChecker.count_ w
  | None => -1
  end = 0.
Proof. vm_compute. reflexivity. Qed.
